(** * firemorph: the migration engine of [src/index.ts]

    A shallow embedding of the two versions of the engine that the
    repository holds:

    - the version in [src/src/cli.ts] (the third document of that file), with
      [dryRun], [single] and a [migrate] that ends the process on an error;
      it is embedded at top level, under the names of the source;
    - the version in [src/src/index.ts], without [dryRun] and [single], whose
      [runMigrations] logs and leaves the loop where the other one throws; it
      is embedded in the module [Index];
    - the actions of the command [migrate] of the first two documents of
      [src/src/cli.ts], in the module [Cli].

    The functions of the platform that decide what the engine does are
    written out: [String.prototype.includes] and [split], [path.join],
    [path.resolve] and [path.basename] (POSIX), [semver.coerce] and
    [semver.gt], [Promise.all], [Object.assign] and [Array.prototype.sort].
    The host gives [glob.sync], [import()], the SHA-256 digest and
    [Timestamp.now].

    A JavaScript string is modelled by its UTF-8 encoding, a [string] of
    bytes. Searching and cutting at a separator that is not empty, and the
    tests for digits, dots and separators, give the same result on the
    bytes as on the UTF-16 code units of the source.

    What the model leaves out:
    - a migration procedure works on the database and the clock, and does
      not write to the collection of migration results;
    - the reads and writes of the collection of results do not fail;
    - among the promises of [gather] that settle after [import()], the
      rejections are taken in the order of the files;
    - [Array.prototype.sort] is an insertion sort; the engine of a host may
      use another algorithm, which gives the same array whenever the
      comparator orders the elements;
    - with the empty delimiter, [split] cuts a name between its bytes, where
      the source cuts it between its UTF-16 code units: they agree on the
      names that are ASCII;
    - a value that is thrown is [null] or [undefined], or a value whose
      property [message] can be read. *)

From Stdlib Require Import Ascii String DecimalString DecimalN Sorted Permutation.
From stdpp Require Import gmap strings list fin_maps sorting.

Local Open Scope string_scope.
Local Open Scope list_scope.

(** ** JavaScript strings and paths *)

Module Js.

(** [s.includes(needle)] *)
Fixpoint includes (s needle : string) : bool :=
  String.prefix needle s ||
  match s with
  | EmptyString => false
  | String _ s' => includes s' needle
  end.

(** The loop of [s.split(sep)] for a separator that is not empty: [skip]
    counts the characters of a separator just met that are still to be
    passed over, [cur] is the piece being read. *)
Fixpoint split_from (sep s : string) (skip : nat) (cur : string) : list string :=
  match s with
  | EmptyString => [cur]
  | String c s' =>
      match skip with
      | S k => split_from sep s' k cur
      | O =>
          if String.prefix sep s
          then cur :: split_from sep s' (String.length sep - 1) ""
          else split_from sep s' 0 (cur +:+ String c "")
      end
  end.

(** [s.split(sep)]; the empty separator cuts between every two characters. *)
Definition split (s sep : string) : list string :=
  match sep with
  | EmptyString => (λ c, String c "") <$> String.list_ascii_of_string s
  | _ => split_from sep s 0 ""
  end.

(** The last segment of a path: [path.basename(f)] for the path of a file
    (no trailing separator). *)
Fixpoint basename_from (s cur : string) : string :=
  match s with
  | EmptyString => cur
  | String c s' =>
      if Ascii.eqb c "/"%char then basename_from s' "" else basename_from s' (cur +:+ String c "")
  end.

Definition basename (f : string) : string := basename_from f "".

(** [normalizeString] of Node's [path]: the segments of a path without the
    empty ones and the dots, a [..] taking back the segment before it;
    [stack] holds the segments read, the last one first. *)
Fixpoint normalize_segments (allowAboveRoot : bool) (segments stack : list string)
  : list string :=
  match segments with
  | [] => reverse stack
  | segment :: segments' =>
      if String.eqb segment "" || String.eqb segment "."
      then normalize_segments allowAboveRoot segments' stack
      else if String.eqb segment ".."
      then
        match stack with
        | top :: stack' =>
            if String.eqb top ".."
            then normalize_segments allowAboveRoot segments' (".." :: stack)
            else normalize_segments allowAboveRoot segments' stack'
        | [] =>
            normalize_segments allowAboveRoot segments'
              (if allowAboveRoot then [".."] else [])
        end
      else normalize_segments allowAboveRoot segments' (segment :: stack)
  end.

Definition normalizeString (path : string) (allowAboveRoot : bool) : string :=
  String.concat "/" (normalize_segments allowAboveRoot (split path "/") []).

Fixpoint ends_with_separator (path : string) : bool :=
  match path with
  | EmptyString => false
  | String c EmptyString => Ascii.eqb c "/"%char
  | String _ path' => ends_with_separator path'
  end.

(** [path.normalize(path)] (POSIX) *)
Definition normalize (path : string) : string :=
  if String.eqb path "" then "."
  else
    let isAbsolute := String.prefix "/" path in
    let trailingSeparator := ends_with_separator path in
    let normal := normalizeString path (negb isAbsolute) in
    if String.eqb normal ""
    then (if isAbsolute then "/" else if trailingSeparator then "./" else ".")
    else
      let normal := if trailingSeparator then normal +:+ "/" else normal in
      if isAbsolute then "/" +:+ normal else normal.

(** [path.join(a, b)] *)
Definition join (a b : string) : string :=
  if String.eqb a "" then (if String.eqb b "" then "." else normalize b)
  else if String.eqb b "" then normalize a
  else normalize (a +:+ "/" +:+ b).

(** [path.resolve(f)] in the working directory [cwd], an absolute path *)
Definition resolve (cwd f : string) : string :=
  let resolvedPath :=
    if String.eqb f "" then cwd +:+ "/"
    else if String.prefix "/" f then f +:+ "/"
    else cwd +:+ "/" +:+ f +:+ "/" in
  "/" +:+ normalizeString resolvedPath false.

(** The line terminators, which the dot of a regular expression does not
    match: LF and CR, and U+2028 and U+2029, three bytes each in UTF-8. *)
Definition is_line_terminator (c : ascii) : bool :=
  Ascii.eqb c "010"%char || Ascii.eqb c "013"%char.

Definition LINE_SEPARATOR : string := String "226" (String "128" (String "168" "")).
Definition PARAGRAPH_SEPARATOR : string := String "226" (String "128" (String "169" "")).

Fixpoint has_line_terminator (s : string) : bool :=
  match s with
  | EmptyString => false
  | String c s' =>
      is_line_terminator c || String.prefix LINE_SEPARATOR s ||
      String.prefix PARAGRAPH_SEPARATOR s || has_line_terminator s'
  end.

(** [name.replace(extension, '')] with [extension = /\..*$/]: the text from
    the first dot that no line terminator follows. *)
Fixpoint strip_extension (s : string) : string :=
  match s with
  | EmptyString => EmptyString
  | String c s' =>
      if Ascii.eqb c "."%char && negb (has_line_terminator s') then EmptyString
      else String c (strip_extension s')
  end.

End Js.

(** ** The [semver] package: [coerce] and [gt] *)

Module semver.

Record SemVer : Type := mkSemVer { major : N; minor : N; patch : N }.

Definition num (n : N) : string := NilEmpty.string_of_uint (N.to_uint n).

(** [v.version], the text [`${major}.${minor}.${patch}`] *)
Definition version (v : SemVer) : string :=
  num (major v) +:+ "." +:+ num (minor v) +:+ "." +:+ num (patch v).

Definition is_digit (c : ascii) : bool :=
  let n := nat_of_ascii c in (48 <=? n)%nat && (n <=? 57)%nat.

(** The longest prefix of digits, and what follows it. *)
Fixpoint span_digits (s : string) : string * string :=
  match s with
  | EmptyString => (EmptyString, EmptyString)
  | String c s' =>
      if is_digit c
      then let '(d, r) := span_digits s' in (String c d, r)
      else (EmptyString, s)
  end.

Definition MAX_SAFE_COMPONENT_LENGTH : nat := 16.
Definition MAX_SAFE_INTEGER : N := 9007199254740991.

Definition digit_value (c : ascii) : N := N.of_nat (nat_of_ascii c - 48).

Fixpoint value_from (acc : N) (s : string) : N :=
  match s with
  | EmptyString => acc
  | String c s' => value_from (10 * acc + digit_value c) s'
  end.

(** A numeric identifier of the strict grammar, [0|[1-9]\d*], no larger
    than [MAX_SAFE_INTEGER]. *)
Definition numeric_identifier (d : string) : option N :=
  match d with
  | EmptyString => None
  | String c d' =>
      if Ascii.eqb c "0"%char && negb (String.eqb d' "") then None
      else
        let n := value_from 0 d in
        if (n <=? MAX_SAFE_INTEGER)%N then Some n else None
  end.

(** One optional group [(?:\.(\d{1,16}))?] of the COERCE expression: the
    digits it captures and the text after them. *)
Definition dot_component (s : string) : option (string * string) :=
  match s with
  | String c s' =>
      if Ascii.eqb c "."%char
      then
        let '(d, r) := span_digits s' in
        if (1 <=? String.length d)%nat && (String.length d <=? MAX_SAFE_COMPONENT_LENGTH)%nat
        then Some (d, r) else None
      else None
  | EmptyString => None
  end.

(** [parse(`${match[2]}.${match[3] || '0'}.${match[4] || '0'}`)] *)
Definition parse_components (ma : string) (rest : string) : option SemVer :=
  let '(mi, pa) :=
    match dot_component rest with
    | Some (mi, rest') =>
        (mi, match dot_component rest' with Some (pa, _) => pa | None => "0" end)
    | None => ("0", "0")
    end in
  ma' ← numeric_identifier ma;
  mi' ← numeric_identifier mi;
  pa' ← numeric_identifier pa;
  Some (mkSemVer ma' mi' pa').

(** The leftmost match of
    [(^|[^\d])(\d{1,16})(?:\.(\d{1,16}))?(?:\.(\d{1,16}))?(?:$|[^\d])]:
    it starts at the first run of digits of at most 16 characters.
    [prev_digit] tells that the character before [s] is a digit. *)
Fixpoint coerce_from (s : string) (prev_digit : bool) : option SemVer :=
  match s with
  | EmptyString => None
  | String c s' =>
      if is_digit c && negb prev_digit
      then
        let '(d, r) := span_digits s in
        if (String.length d <=? MAX_SAFE_COMPONENT_LENGTH)%nat
        then parse_components d r
        else coerce_from s' true
      else coerce_from s' (is_digit c)
  end.

(** [semver.coerce(version)] on a string; [None] is [null]. *)
Definition coerce (raw : string) : option SemVer := coerce_from raw false.

(** [new SemVer(version)] on the strings that the engine hands to
    [semver.gt], which are those that [version] builds: the strict form
    [major.minor.patch] of three numeric identifiers. It is narrower than
    the library, which also reads a leading [v] or [=], blanks around the
    version, and prerelease and build parts; on these [parse] is [None]. *)
Definition parse (s : string) : option SemVer :=
  let '(ma, r1) := span_digits s in
  match r1 with
  | String c1 r1' =>
      let '(mi, r2) := span_digits r1' in
      match r2 with
      | String c2 r2' =>
          let '(pa, r3) := span_digits r2' in
          if Ascii.eqb c1 "."%char && Ascii.eqb c2 "."%char && String.eqb r3 ""
          then
            ma' ← numeric_identifier ma;
            mi' ← numeric_identifier mi;
            pa' ← numeric_identifier pa;
            Some (mkSemVer ma' mi' pa')
          else None
      | EmptyString => None
      end
  | EmptyString => None
  end.

(** The components are no larger than [MAX_SAFE_INTEGER]. *)
Definition safe (v : SemVer) : Prop :=
  (major v <= MAX_SAFE_INTEGER ∧ minor v <= MAX_SAFE_INTEGER ∧
   patch v <= MAX_SAFE_INTEGER)%N.

(** [compareMain]: major, then minor, then patch *)
Definition compare (a b : SemVer) : comparison :=
  match (major a ?= major b)%N with
  | Eq =>
      match (minor a ?= minor b)%N with
      | Eq => (patch a ?= patch b)%N
      | c => c
      end
  | c => c
  end.

(** [semver.gt(a, b)] *)
Definition gt (a b : SemVer) : bool :=
  match compare a b with Gt => true | _ => false end.

(** The strict order of versions, and the order, as propositions. *)
Definition lt (a b : SemVer) : Prop := compare a b = Lt.

Definition le (a b : SemVer) : Prop := gt a b = false.

Fixpoint all_digits (s : string) : bool :=
  match s with
  | EmptyString => true
  | String c s' => is_digit c && all_digits s'
  end.

End semver.

(** ** Data model *)

Inductive MigrationResultStatus : Type := Successful | Failed.

Definition Timestamp : Type := Z.

(** A document of the collection of migration results. *)
Record MigrationResult : Type := mkResult {
  result_version : string;
  executed : Timestamp;
  status : MigrationResultStatus
}.

(** How the promise of a migration procedure settles. *)
Inductive Settled : Type := Resolved | Rejected.

(** A migration procedure: it works on the database [D] (the application
    collections, and the clock that [Timestamp.now] reads) and resolves or
    rejects. The collection of migration results is kept apart from [D]: the
    procedures of this development do not write to it. *)
Definition MigrationFN (D : Type) : Type := D → Settled * D.

(** [version] is the SemVer that [coerce] returned; the string that the
    source keeps in the field is [semver.version] of it, which [semver.gt]
    parses back to the same SemVer ([parse_version] below). *)
Record MigrationFile (D : Type) : Type := mkFile {
  version : semver.SemVer;
  name : string;
  fn : MigrationFN D
}.
Arguments mkFile {D}.
Arguments version {D}.
Arguments name {D}.
Arguments fn {D}.

Record Options : Type := mkOptions {
  directory : string;
  delimiter : string;
  ignoreRemote : bool;
  single : option (list string);
  dryRun : bool
}.

(** [Partial<Options>]: [None] is a property that the caller left out. A
    flag that the caller passes as [undefined], as [src/cli.ts] does for an
    option that is not on the command line, is falsy: it is [Some false]. *)
Record PartialOptions : Type := mkPartial {
  directory' : option string;
  delimiter' : option string;
  ignoreRemote' : option bool;
  single' : option (list string);
  dryRun' : option bool
}.

(** [Object.assign(target, source)]: every property of [source] replaces the
    one of [target]; [source] may be [undefined]. *)
Definition Object_assign (target : Options) (source : option PartialOptions) : Options :=
  match source with
  | None => target
  | Some o =>
      {| directory := default (directory target) (directory' o);
         delimiter := default (delimiter target) (delimiter' o);
         ignoreRemote := default (ignoreRemote target) (ignoreRemote' o);
         single := match single' o with Some l => Some l | None => single target end;
         dryRun := default (dryRun target) (dryRun' o) |}
  end.

(** What a module threw while it was loaded: [null] or [undefined], or any
    other value. *)
Inductive Reason : Type := Nullish | Value.

(** The errors that the engine throws, by the message of each. *)
Inductive Error : Type :=
| InvalidVersion (rawVersion : option string)
    (* Invalid version: "${rawVersion}". *)
| DuplicateVersion (v : string)
    (* Cannot have multiple files for version: ${version.version} *)
| ImportFailed (f : string) (reason : Reason)
    (* the rejection of import(f), with what the module threw *)
| MissingProcedure (f : string)
    (* No migrate function found in: ${f} *)
| NameUndefined
    (* TypeError: name is undefined, at name.replace *)
| InvalidVersionSpecified (v : string)
    (* Invalid version specified: "${v}". Could not parse. *)
| UnknownVersion (v : string)
    (* Version "${v}" specified in --only does not exist in as migration. *)
| SkippingNextMigrations.
    (* Skipping next migrations *)

(** [e.message] can be read: [e] is not [null] or [undefined]. The errors
    that the engine makes itself are [Error] objects. *)
Definition has_message (e : Error) : bool :=
  match e with
  | ImportFailed _ Nullish => false
  | _ => true
  end.

(** What [import(f)] gives: a rejection, or a module whose export
    [migration] is a function or not. *)
Inductive Imported (D : Type) : Type :=
| ImportRejected (reason : Reason)
| Module_ (migration : option (MigrationFN D)).
Arguments ImportRejected {D}.
Arguments Module_ {D}.

(** The functions of the host that the engine calls. *)
Record Host (D : Type) : Type := mkHost {
  sha256_hex : string → string;
  Timestamp_now : D → Timestamp;
  glob_sync : string → list string;
  import_ : string → Imported D;
  cwd : string
}.
Arguments sha256_hex {D}.
Arguments Timestamp_now {D}.
Arguments glob_sync {D}.
Arguments import_ {D}.
Arguments cwd {D}.

Inductive Message : Type :=
| AlreadyRun | SkipDueToDryRun | ErrorWhileRunning | Success.

(** What the engine does to the outside, in order. *)
Inductive Event : Type :=
| DocGet (id : string)
| DocSet (id : string) (result : MigrationResult)
| Invoke (v : semver.SemVer) (name : string)
| PrintMigration (v : string) (msg : Message)
| ConsoleError
| ConsoleLog.

(** ** [Array.prototype.sort] *)

(** The place of [x] in a sorted prefix: before the first element that
    [comparefn] puts after it. *)
Fixpoint insert_sorted {A : Type} (comparefn : A → A → Z) (x : A) (sorted : list A) : list A :=
  match sorted with
  | [] => [x]
  | y :: ys =>
      if (comparefn x y <? 0)%Z then x :: y :: ys
      else y :: insert_sorted comparefn x ys
  end.

(** [arr.sort(comparefn)], as the insertion sort of the elements from left
    to right. *)
Definition Array_sort {A : Type} (comparefn : A → A → Z) (arr : list A) : list A :=
  foldl (λ sorted x, insert_sorted comparefn x sorted) [] arr.

(** ** The engine of [src/src/cli.ts] *)

Section Engine.
Context {D : Type}.

(** The state of the process and of the remote store: the module-level
    [defaults], the collection [_migrations] by document id, the database. *)
Record World : Type := mkWorld {
  defaults : Options;
  MigrationCollection : gmap string MigrationResult;
  DB : D
}.

(** Asynchronous code of the engine: from a world to a value or a thrown
    error, the events on the way, and the world after. *)
Definition M (A : Type) : Type := World → (Error + A) * list Event * World.

Definition ret {A : Type} (a : A) : M A := λ w, (inr a, [], w).

Definition throw {A : Type} (e : Error) : M A := λ w, (inl e, [], w).

Definition bind {A B : Type} (m : M A) (k : A → M B) : M B :=
  λ w,
    match m w with
    | (inl e, t, w') => (inl e, t, w')
    | (inr a, t, w') =>
        let '(r, t', w'') := k a w' in (r, t ++ t', w'')
    end.

Definition emit (e : Event) : M unit := λ w, (inr tt, [e], w).

(** [MigrationCollection.doc(id).get()] and [.data()] *)
Definition doc_get (id : string) : M (option MigrationResult) :=
  λ w, (inr (MigrationCollection w !! id), [DocGet id], w).

(** [remoteDoc.ref.set(result)] *)
Definition doc_set (id : string) (result : MigrationResult) : M unit :=
  λ w,
    (inr tt, [DocSet id result],
     {| defaults := defaults w;
        MigrationCollection := <[id := result]> (MigrationCollection w);
        DB := DB w |}).

(** [await migration.fn(DB, admin.firestore)] inside [try]: the value tells
    how the promise settled. *)
Definition call (migration : MigrationFile D) : M Settled :=
  λ w,
    let '(s, d) := fn migration (DB w) in
    (inr s, [Invoke (version migration) (name migration)],
     {| defaults := defaults w;
        MigrationCollection := MigrationCollection w;
        DB := d |}).

Definition now (h : Host D) : M Timestamp :=
  λ w, (inr (Timestamp_now h (DB w)), [], w).

End Engine.
Arguments World : clear implicits.
Arguments M : clear implicits.


#[export] Instance M_ret {D : Type} : MRet (M D) := λ A a, ret a.
#[export] Instance M_bind {D : Type} : MBind (M D) := λ A B k m, bind m k.

Definition lift {D A : Type} (r : Error + A) : M D A :=
  match r with inl e => throw e | inr a => ret a end.

Section Discovery.
Context {D : Type}.

(** A promise that [files.map] returns for one file: rejected before its
    callback reached [await import(f)] (rejected already when
    [Promise.all] looks at it), or settling after the import. *)
Inductive Promise (A : Type) : Type :=
| RejectedAtOnce (e : Error)
| Settles (r : Error + A).
Arguments RejectedAtOnce {A}.
Arguments Settles {A}.

(** The callback of [files.map] in [gather], with the array [versions]
    before and after the call. *)
Definition load_file (h : Host D) (options : Options) (versions : list string) (f : string)
  : Promise (MigrationFile D) * list string :=
  let parts := Js.split (Js.basename f) (delimiter options) in
  let rawVersion := parts !! 0%nat in
  let name := parts !! 1%nat in
  match rawVersion ≫= semver.coerce with
  | None => (RejectedAtOnce (InvalidVersion rawVersion), versions)
  | Some version =>
      if bool_decide (semver.version version ∈ versions)
      then (RejectedAtOnce (DuplicateVersion (semver.version version)), versions)
      else
        (Settles
           match import_ h f with
           | ImportRejected reason => inl (ImportFailed f reason)
           | Module_ None => inl (MissingProcedure f)
           | Module_ (Some migration) =>
               match name with
               | None => inl NameUndefined
               | Some name => inr (mkFile version (Js.strip_extension name) migration)
               end
           end,
         versions ++ [semver.version version])
  end.

Fixpoint files_map (h : Host D) (options : Options) (versions : list string) (files : list string)
  : list (Promise (MigrationFile D)) :=
  match files with
  | [] => []
  | f :: files' =>
      let '(p, versions') := load_file h options versions f in
      p :: files_map h options versions' files'
  end.

Fixpoint first_rejected {A : Type} (ps : list (Promise A)) : option Error :=
  match ps with
  | [] => None
  | RejectedAtOnce e :: _ => Some e
  | Settles _ :: ps' => first_rejected ps'
  end.

Fixpoint settle_all {A : Type} (ps : list (Promise A)) : Error + list A :=
  match ps with
  | [] => inr []
  | RejectedAtOnce e :: _ => inl e
  | Settles (inl e) :: _ => inl e
  | Settles (inr a) :: ps' =>
      match settle_all ps' with
      | inl e => inl e
      | inr l => inr (a :: l)
      end
  end.

(** [Promise.all(ps)]: it rejects with the first rejection that it sees: a
    promise that was rejected at once comes before every one that settles
    later, and those settle in the order of the array. *)
Definition Promise_all {A : Type} (ps : list (Promise A)) : Error + list A :=
  match first_rejected ps with
  | Some e => inl e
  | None => settle_all ps
  end.

(** The comparator of [sortMigrationFiles] *)
Definition by_version (a b : MigrationFile D) : Z :=
  if semver.gt (version a) (version b) then 1%Z else (-1)%Z.

Definition sortMigrationFiles (arr : list (MigrationFile D)) : list (MigrationFile D) :=
  Array_sort by_version arr.

(** The paths that [gather] reads: the matches of the pattern that contain
    the delimiter, made absolute. *)
Definition files_of (h : Host D) (options : Options) : list string :=
  Js.resolve (cwd h) <$>
    filter (λ f, Is_true (Js.includes f (delimiter options)))
           (glob_sync h (Js.join (directory options) "*.js")).

Definition gather (h : Host D) (options : Options) : Error + list (MigrationFile D) :=
  match Promise_all (files_map h options [] (files_of h options)) with
  | inl e => inl e
  | inr contents => inr (sortMigrationFiles contents)
  end.

(** ** Running the migrations *)

Definition version_string (migration : MigrationFile D) : string :=
  semver.version (version migration).

Definition getIdFromMigration (h : Host D) (migration : MigrationFile D) : string :=
  sha256_hex h (version_string migration).

Definition printMigration (migration : MigrationFile D) (msg : Message) : M D unit :=
  emit (PrintMigration (version_string migration) msg).

(** [remote && remote.status === MigrationResultStatus.Successful] *)
Definition is_successful (remote : option MigrationResult) : bool :=
  match remote with
  | Some r => match status r with Successful => true | Failed => false end
  | None => false
  end.

(** The [finally] block: the report, the result, the write. *)
Definition record_result (h : Host D) (migration : MigrationFile D) (id : string) (error : bool)
  : M D unit :=
  printMigration migration (if error then ErrorWhileRunning else Success);;
  time ← now h;
  doc_set id
    (mkResult (version_string migration) time (if error then Failed else Successful)).

Fixpoint runMigrations (h : Host D) (migrations : list (MigrationFile D)) (options : Options)
  : M D unit :=
  match migrations with
  | [] => mret tt
  | migration :: rest =>
      let id := getIdFromMigration h migration in
      remote ← doc_get id;
      if negb (ignoreRemote options) && is_successful remote then
        printMigration migration AlreadyRun;;
        runMigrations h rest options
      else if dryRun options then
        printMigration migration SkipDueToDryRun
      else
        settled ← call migration;
        match settled with
        | Resolved =>
            record_result h migration id false;;
            runMigrations h rest options
        | Rejected =>
            emit ConsoleError;;
            record_result h migration id true;;
            throw SkippingNextMigrations
        end
  end.

(** ** [migrate] *)

(** [options.single.map(...)] with [semver.coerce] *)
Fixpoint singleVersions (single : list string) : Error + list string :=
  match single with
  | [] => inr []
  | v :: vs =>
      match semver.coerce v with
      | None => inl (InvalidVersionSpecified v)
      | Some parsed =>
          match singleVersions vs with
          | inl e => inl e
          | inr l => inr (semver.version parsed :: l)
          end
      end
  end.

(** [singleVersions.map(...)] with [migrations.find] *)
Fixpoint filtered (migrations : list (MigrationFile D)) (versions : list string)
  : Error + list (MigrationFile D) :=
  match versions with
  | [] => inr []
  | v :: vs =>
      match List.find (λ m, String.eqb (version_string m) v) migrations with
      | None => inl (UnknownVersion v)
      | Some selected =>
          match filtered migrations vs with
          | inl e => inl e
          | inr l => inr (selected :: l)
          end
      end
  end.

Definition with_defaults (w : World D) (options : Options) : World D :=
  {| defaults := options;
     MigrationCollection := MigrationCollection w;
     DB := DB w |}.

(** [Object.assign(defaults, options)]: the module-level [defaults] is the
    target, and the value. *)
Definition assign_defaults (options : option PartialOptions) : M D Options :=
  λ w,
    let merged := Object_assign (defaults w) options in
    (inr merged, [], with_defaults w merged).

(** The versions of [--only]: parsed, found, sorted. *)
Definition selection (migrations : list (MigrationFile D)) (single : list string)
  : Error + list (MigrationFile D) :=
  match singleVersions single with
  | inl e => inl e
  | inr versions =>
      match filtered migrations versions with
      | inl e => inl e
      | inr l => inr (sortMigrationFiles l)
      end
  end.

(** [options?.single] *)
Definition single_of (options : option PartialOptions) : option (list string) :=
  options ≫= single'.

(** The body of [try] in [migrate] *)
Definition migrate_try (h : Host D) (options : option PartialOptions) : M D unit :=
  merged ← assign_defaults options;
  migrations ← lift (gather h merged);
  emit ConsoleLog;;
  migrations ←
    match single_of options return M D (list (MigrationFile D)) with
    | Some single =>
        selected ← lift (selection migrations single);
        emit ConsoleLog;;
        mret selected
    | None => mret migrations
    end;
  runMigrations h migrations merged.

(** How a call of [migrate] ends: its promise is fulfilled;
    [process.exit(code)] ended the process; or the [catch] block threw, on
    the read of [e.message], and the promise is rejected. *)
Inductive Ending : Type := Fulfilled | Exit (code : Z) | CatchThrew.

(** The [catch] block: [console.error(chalk.red(e.message))], then
    [process.exit(1)]. *)
Definition catch (e : Error) (t : list Event) (w : World D)
  : Ending * list Event * World D :=
  if has_message e then (Exit 1, t ++ [ConsoleError], w) else (CatchThrew, t, w).

Definition migrate (h : Host D) (options : option PartialOptions) (w : World D)
  : Ending * list Event * World D :=
  match migrate_try h options w with
  | (inr _, t, w') => (Fulfilled, t, w')
  | (inl e, t, w') => catch e t w'
  end.

End Discovery.
Arguments RejectedAtOnce {A}.
Arguments Settles {A}.

(** ** The engine of [src/src/index.ts] *)

Module Index.
Section Engine.
Context {D : Type}.

(** [gather] sorts the SemVer objects, then takes [version.version]. *)
Definition gather (h : Host D) (options : Options) : Error + list (MigrationFile D) :=
  match Promise_all (files_map h options [] (files_of h options)) with
  | inl e => inl e
  | inr contents => inr (Array_sort by_version contents)
  end.

(** After a failure the [finally] block logs and leaves the loop. *)
Fixpoint runMigrations (h : Host D) (migrations : list (MigrationFile D)) (options : Options)
  : M D unit :=
  match migrations with
  | [] => mret tt
  | migration :: rest =>
      let id := getIdFromMigration h migration in
      remote ← doc_get id;
      if negb (ignoreRemote options) && is_successful remote then
        printMigration migration AlreadyRun;;
        runMigrations h rest options
      else
        settled ← call migration;
        match settled with
        | Resolved =>
            record_result h migration id false;;
            runMigrations h rest options
        | Rejected =>
            emit ConsoleError;;
            record_result h migration id true;;
            emit ConsoleLog
        end
  end.

(** [migrate] has no [try]: an error of [gather] rejects its promise. *)
Definition migrate (h : Host D) (options : option PartialOptions) : M D unit :=
  merged ← assign_defaults options;
  migrations ← lift (gather h merged);
  runMigrations h migrations merged.

End Engine.
End Index.

(** ** The command [migrate] of [src/src/cli.ts] *)

Module Cli.

(** The options of the command, as [commander] hands them to the action. A
    flag that is not on the command line is [undefined], which is falsy:
    it is [false]. *)
Record Args : Type := mkArgs {
  migrations : string;           (* -m, --migrations <glob> *)
  only : option (list string);   (* --only <version...> *)
  force : bool;                  (* -f, --force *)
  dryRun : bool                  (* --dry-run *)
}.

(** The default of [-m, --migrations] *)
Definition default_migrations : string := "./migrations/*.js".

(** The action of the command of the second document of the file, on the
    engine of the third one. *)
Definition action {D : Type} (h : Host D) (args : Args) (w : World D)
  : Ending * list Event * World D :=
  migrate h
    (Some {| directory' := Some (migrations args);
             delimiter' := None;
             ignoreRemote' := Some (force args);
             single' := only args;
             dryRun' := Some (dryRun args) |})
    w.

(** The action of the command of the first document, which has [-m] and
    [--force] only, on the engine of [src/src/index.ts]. *)
Definition action_v1 {D : Type} (h : Host D) (args : Args) : M D unit :=
  Index.migrate h
    (Some {| directory' := Some (migrations args);
             delimiter' := None;
             ignoreRemote' := Some (force args);
             single' := None;
             dryRun' := None |}).

End Cli.

(** ** The vocabulary of the statements *)

Section Vocabulary.
Context {D : Type}.
Implicit Types (h : Host D) (w : World D) (m : MigrationFile D)
  (ms pre post : list (MigrationFile D)) (o : Options) (t : list Event).

(** The events [t], then the run [r]. *)
Definition after {A : Type} (t : list Event) (r : (Error + A) * list Event * World D)
  : (Error + A) * list Event * World D :=
  (r.1.1, t ++ r.1.2, r.2).

(** The migration is passed over: a successful result is recorded and the
    run is not forced. *)
Definition skipped h o w m : bool :=
  negb (ignoreRemote o) && is_successful (MigrationCollection w !! getIdFromMigration h m).

(** The result that the engine writes for [m] in the database [d]. *)
Definition result_of h m (d : D) (s : Settled) : MigrationResult :=
  mkResult (version_string m) (Timestamp_now h d)
           (match s with Resolved => Successful | Rejected => Failed end).

(** The world after [m] was executed from [w]. *)
Definition executed_world h m w : World D :=
  let '(s, d) := fn m (DB w) in
  {| defaults := defaults w;
     MigrationCollection :=
       <[getIdFromMigration h m := result_of h m d s]> (MigrationCollection w);
     DB := d |}.

(** The events of the execution of [m] from [w]. *)
Definition executed_events h m w : list Event :=
  let '(s, d) := fn m (DB w) in
  [DocGet (getIdFromMigration h m); Invoke (version m) (name m)] ++
  match s with Resolved => [] | Rejected => [ConsoleError] end ++
  [PrintMigration (version_string m)
     (match s with Resolved => Success | Rejected => ErrorWhileRunning end);
   DocSet (getIdFromMigration h m) (result_of h m d s)].

Definition skipped_events h m : list Event :=
  [DocGet (getIdFromMigration h m); PrintMigration (version_string m) AlreadyRun].

(** The four ways of one turn of the loop. *)
Inductive turn h m ms o w : (Error + unit) * list Event * World D → Prop :=
| turn_skipped :
    skipped h o w m = true →
    turn h m ms o w (after (skipped_events h m) (runMigrations h ms o w))
| turn_dry :
    skipped h o w m = false → dryRun o = true →
    turn h m ms o w
      (inr tt,
       [DocGet (getIdFromMigration h m); PrintMigration (version_string m) SkipDueToDryRun],
       w)
| turn_resolved d :
    skipped h o w m = false → dryRun o = false → fn m (DB w) = (Resolved, d) →
    turn h m ms o w
      (after (executed_events h m w) (runMigrations h ms o (executed_world h m w)))
| turn_rejected d :
    skipped h o w m = false → dryRun o = false → fn m (DB w) = (Rejected, d) →
    turn h m ms o w
      (inl SkippingNextMigrations, executed_events h m w, executed_world h m w).

(** The first piece of the name of the file [f], and its version. *)
Definition rawVersion o (f : string) : option string :=
  Js.split (Js.basename f) (delimiter o) !! 0%nat.

Definition coerced o (f : string) : option semver.SemVer :=
  rawVersion o f ≫= semver.coerce.

(** What the promise of [f] settles to after [import(f)], for the version
    [v] of [f]. *)
Definition described h o (v : semver.SemVer) (f : string) : Error + MigrationFile D :=
  match import_ h f with
  | ImportRejected reason => inl (ImportFailed f reason)
  | Module_ None => inl (MissingProcedure f)
  | Module_ (Some migration) =>
      match Js.split (Js.basename f) (delimiter o) !! 1%nat with
      | None => inl NameUndefined
      | Some name => inr (mkFile v (Js.strip_extension name) migration)
      end
  end.

(** The descriptor of [f], when [f] has a version and a procedure. *)
Definition entry h o (f : string) : option (MigrationFile D) :=
  v ← coerced o f;
  match described h o v f with
  | inr c => Some c
  | inl _ => None
  end.

(** The errors of the callback of [gather] before its first [await]. *)
Definition thrown_at_once (e : Error) : Prop :=
  match e with
  | InvalidVersion _ | DuplicateVersion _ => True
  | _ => False
  end.

(** The list that [migrate] hands to [runMigrations], or the error of
    [gather] or of the selection. *)
Definition plan h (options : option PartialOptions) (merged : Options)
  : Error + list (MigrationFile D) :=
  match gather h merged with
  | inl e => inl e
  | inr migrations =>
      match single_of options with
      | Some single => selection migrations single
      | None => inr migrations
      end
  end.

(** The lines that [migrate] logs before the run. *)
Definition announce (options : option PartialOptions) : list Event :=
  ConsoleLog :: match single_of options with Some _ => [ConsoleLog] | None => [] end.

(** How [migrate] ends after the body of its [try]. *)
Definition finish (r : (Error + unit) * list Event * World D)
  : Ending * list Event * World D :=
  match r with
  | (inr _, t, w) => (Fulfilled, t, w)
  | (inl e, t, w) => catch e t w
  end.

(** The versions of the descriptors whose procedure was invoked, in order. *)
Definition invocations t : list semver.SemVer :=
  t ≫= λ e, match e with Invoke v _ => [v] | _ => [] end.

(** The ids of the documents that were written, in order. *)
Definition writes t : list string :=
  t ≫= λ e, match e with DocSet id _ => [id] | _ => [] end.

(** The ids of the documents that were read, in order. *)
Definition reads t : list string :=
  t ≫= λ e, match e with DocGet id => [id] | _ => [] end.

(** The two ways of a call of [migrate]. *)
Inductive migrated h (options : option PartialOptions) w
  : Ending * list Event * World D → Prop :=
| migrated_failed e t :
    plan h options (Object_assign (defaults w) options) = inl e →
    invocations t = [] → writes t = [] → reads t = [] →
    migrated h options w
      (if has_message e then Exit 1 else CatchThrew, t,
       with_defaults w (Object_assign (defaults w) options))
| migrated_ran ms :
    plan h options (Object_assign (defaults w) options) = inr ms →
    migrated h options w
      (finish (after (announce options)
         (runMigrations h ms (Object_assign (defaults w) options)
            (with_defaults w (Object_assign (defaults w) options))))).

(** The results that were written, in order. *)
Definition results t : list MigrationResult :=
  t ≫= λ e, match e with DocSet _ r => [r] | _ => [] end.

(** Every document of the collection lies under the digest of the version
    that it holds. *)
Definition well_keyed h (collection : gmap string MigrationResult) : Prop :=
  ∀ k r, collection !! k = Some r → k = sha256_hex h (result_version r).

End Vocabulary.

(** The module-level [defaults] when the module is loaded. *)
Definition initial_defaults : Options :=
  {| directory := "./migrations";
     delimiter := "__";
     ignoreRemote := false;
     single := None;
     dryRun := false |}.

(** ** Hosts and worlds of the examples *)

Module Fixture.

(** The database is a clock; a procedure takes one unit of time. *)
Definition resolves : MigrationFN nat := λ clock, (Resolved, S clock).
Definition rejects : MigrationFN nat := λ clock, (Rejected, S clock).

(** A host whose pattern [migrations/*.js] matches [files]; the procedure
    of a file of [rejecting] rejects. *)
Definition host (files rejecting : list string) : Host nat :=
  {| sha256_hex := λ s, "sha256:" +:+ s;
     Timestamp_now := Z.of_nat;
     glob_sync := λ pattern, if String.eqb pattern "migrations/*.js" then files else [];
     import_ := λ f,
       Module_ (Some (if bool_decide (f ∈ rejecting) then rejects else resolves));
     cwd := "/app" |}.

Definition world (results : gmap string MigrationResult) : World nat :=
  {| defaults := initial_defaults; MigrationCollection := results; DB := 0%nat |}.

Definition v (major : N) : semver.SemVer := semver.mkSemVer major 0 0.

Definition init : MigrationFile nat := mkFile (v 1) "init" resolves.
Definition users : MigrationFile nat := mkFile (v 2) "users" resolves.
Definition users_rejecting : MigrationFile nat := mkFile (v 2) "users" rejects.
Definition posts : MigrationFile nat := mkFile (v 3) "posts" resolves.

Definition three_files : list string :=
  ["migrations/3__posts.js"; "migrations/1__init.js"; "migrations/2__users.js"].

(** Three migrations, the second of which rejects. *)
Definition second_rejects : Host nat := host three_files ["/app/migrations/2__users.js"].

Definition all_resolve : Host nat := host three_files [].

(** The same files, enumerated in another order. *)
Definition all_resolve_reordered : Host nat :=
  host ["migrations/1__init.js"; "migrations/2__users.js"; "migrations/3__posts.js"] [].

(** One migration only. *)
Definition one_file : Host nat := host ["migrations/1__init.js"] [].

(** A directory whose name holds the delimiter, with a helper file beside
    a migration. *)
Definition delimiter_in_directory : Host nat :=
  {| sha256_hex := λ s, "sha256:" +:+ s;
     Timestamp_now := Z.of_nat;
     glob_sync := λ pattern,
       if String.eqb pattern "my__migrations/*.js"
       then ["my__migrations/1__init.js"; "my__migrations/helper.js"]
       else if String.eqb pattern "migrations/*.js"
       then ["migrations/1__init.js"; "migrations/helper.js"]
       else [];
     import_ := λ f, Module_ (Some resolves);
     cwd := "/app" |}.

Definition in_directory (directory : string) : Options :=
  {| directory := directory;
     delimiter := "__";
     ignoreRemote := false;
     single := None;
     dryRun := false |}.

(** Two files for one version, written [1] and [1.0.0]. *)
Definition one_twice : Host nat :=
  host ["migrations/1__init.js"; "migrations/2__users.js"; "migrations/1.0.0__again.js"] [].


(** One file, whose module throws [null] while it is loaded. *)
Definition throws_null : Host nat :=
  {| sha256_hex := λ s, "sha256:" +:+ s;
     Timestamp_now := Z.of_nat;
     glob_sync := λ pattern,
       if String.eqb pattern "migrations/*.js" then ["migrations/1__init.js"] else [];
     import_ := λ f, ImportRejected Nullish;
     cwd := "/app" |}.

Definition successful (version : string) (time : Z) : MigrationResult :=
  mkResult version time Successful.

Definition failed (version : string) (time : Z) : MigrationResult :=
  mkResult version time Failed.

Definition force : option PartialOptions :=
  Some (mkPartial None None (Some true) None None).

Definition dry : option PartialOptions :=
  Some (mkPartial None None None None (Some true)).

Definition only (versions : list string) (ignore : bool) : option PartialOptions :=
  Some (mkPartial None None (Some ignore) (Some versions) None).

End Fixture.

(** * Properties *)

(** ** The functions of the platform, on examples *)

Example coerce_1 : semver.version <$> semver.coerce "1" = Some "1.0.0".
Proof. reflexivity. Qed.

Example coerce_1_2 : semver.version <$> semver.coerce "1.2" = Some "1.2.0".
Proof. reflexivity. Qed.

Example coerce_v3_4 :
  semver.version <$> semver.coerce "v3.4 replaces v3.3.1" = Some "3.4.0".
Proof. reflexivity. Qed.

Example coerce_four_components :
  semver.version <$> semver.coerce "4.6.3.9.2-alpha2" = Some "4.6.3".
Proof. reflexivity. Qed.

Example coerce_long_major :
  semver.version <$> semver.coerce "11111111111111111.2.3" = Some "2.3.0".
Proof. reflexivity. Qed.

Example coerce_long_minor :
  semver.version <$> semver.coerce "1.22222222222222222.3" = Some "1.0.0".
Proof. reflexivity. Qed.

Example coerce_unsafe : semver.coerce "9999999999999999" = None.
Proof. reflexivity. Qed.

Example coerce_no_digit : semver.coerce "version one" = None.
Proof. reflexivity. Qed.

Example split_two_delimiters :
  Js.split "1__add__users.js" "__" = ["1"; "add"; "users.js"].
Proof. reflexivity. Qed.

Example split_no_delimiter : Js.split "helper.js" "__" = ["helper.js"].
Proof. reflexivity. Qed.

Example split_three_underscores : Js.split "a___b" "__" = ["a"; "_b"].
Proof. reflexivity. Qed.

Example join_default : Js.join "./migrations" "*.js" = "migrations/*.js".
Proof. reflexivity. Qed.

Example join_dots : Js.join "a/../b//c/" "*.js" = "b/c/*.js".
Proof. reflexivity. Qed.

Example resolve_relative :
  Js.resolve "/app" "migrations/1__init.js" = "/app/migrations/1__init.js".
Proof. reflexivity. Qed.

Example basename_file : Js.basename "/app/migrations/1.0.0__init.js" = "1.0.0__init.js".
Proof. reflexivity. Qed.

Example strip_extension_first_dot : Js.strip_extension "init.spec.js" = "init".
Proof. reflexivity. Qed.

(** The dot of the expression does not pass a line terminator: the name is
    cut at the first dot behind the last one. *)
Example strip_extension_line_separator :
  Js.strip_extension ("a.b" +:+ Js.LINE_SEPARATOR +:+ "c.js") =
    "a.b" +:+ Js.LINE_SEPARATOR +:+ "c" ∧
  Js.strip_extension ("a.b" +:+ Js.PARAGRAPH_SEPARATOR +:+ "c.js") =
    "a.b" +:+ Js.PARAGRAPH_SEPARATOR +:+ "c" ∧
  Js.strip_extension ("a.b" +:+ String "010" "c.js") = "a.b" +:+ String "010" "c".
Proof. split_and!; vm_compute; reflexivity. Qed.

Example sort_three :
  version <$> sortMigrationFiles [Fixture.posts; Fixture.init; Fixture.users] =
    [Fixture.v 1; Fixture.v 2; Fixture.v 3].
Proof. reflexivity. Qed.

(** ** Versions *)

Section Versions.
Import semver.
Implicit Types a b c : SemVer.

Lemma compare_Eq a b : compare a b = Eq ↔ a = b.
Proof.
  destruct a as [a1 a2 a3], b as [b1 b2 b3]. unfold compare. cbn. split.
  - destruct (N.compare_spec a1 b1); try done.
    destruct (N.compare_spec a2 b2); try done.
    destruct (N.compare_spec a3 b3); try done. congruence.
  - intros [= -> -> ->]. by rewrite !N.compare_refl.
Qed.

Lemma compare_antisym a b : compare b a = CompOpp (compare a b).
Proof.
  destruct a as [a1 a2 a3], b as [b1 b2 b3]. unfold compare. cbn.
  rewrite (N.compare_antisym a1 b1), (N.compare_antisym a2 b2),
    (N.compare_antisym a3 b3).
  destruct (a1 ?= b1)%N, (a2 ?= b2)%N, (a3 ?= b3)%N; reflexivity.
Qed.

Lemma compare_Lt a b :
  compare a b = Lt ↔
  (major a < major b ∨
   major a = major b ∧ (minor a < minor b ∨ minor a = minor b ∧ patch a < patch b))%N.
Proof.
  destruct a as [a1 a2 a3], b as [b1 b2 b3]. unfold compare. cbn.
  destruct (N.compare_spec a1 b1); [|split; [intros _|done]; lia|split; [done|lia]].
  destruct (N.compare_spec a2 b2); [|split; [intros _|done]; lia|split; [done|lia]].
  destruct (N.compare_spec a3 b3); split; try done; lia.
Qed.

Lemma gt_lt a b : gt a b = true ↔ lt b a.
Proof.
  unfold gt, lt. rewrite (compare_antisym a b).
  destruct (compare a b); cbn; split; congruence.
Qed.

Lemma lt_irrefl a : ¬ lt a a.
Proof. unfold lt. rewrite compare_Lt. lia. Qed.

Lemma lt_trans a b c : lt a b → lt b c → lt a c.
Proof. unfold lt. rewrite !compare_Lt. lia. Qed.

Lemma lt_asym a b : lt a b → lt b a → False.
Proof. intros H1 H2. exact (lt_irrefl a (lt_trans _ _ _ H1 H2)). Qed.

Lemma le_lt_eq a b : le a b ↔ lt a b ∨ a = b.
Proof.
  unfold le, lt, gt. rewrite <- compare_Eq.
  destruct (compare a b); split; (congruence || tauto || (intros [?|?]; congruence)).
Qed.

Lemma le_total a b : le a b ∨ le b a.
Proof.
  rewrite !le_lt_eq. unfold lt. rewrite (compare_antisym a b).
  destruct (compare a b) eqn:E; cbn; [apply compare_Eq in E|..]; tauto.
Qed.

Lemma le_trans a b c : le a b → le b c → le a c.
Proof.
  rewrite !le_lt_eq. intros [?| ->] [?| ->]; eauto using lt_trans.
Qed.

Lemma le_antisym a b : le a b → le b a → a = b.
Proof.
  rewrite !le_lt_eq. intros [H1|?] [H2|?]; try done.
  destruct (lt_asym _ _ H1 H2).
Qed.

(** [v.version] tells the versions apart. *)

Lemma all_digits_string_of_uint d : all_digits (NilEmpty.string_of_uint d) = true.
Proof. induction d; cbn; done. Qed.

Lemma all_digits_num n : all_digits (num n) = true.
Proof. apply all_digits_string_of_uint. Qed.

Lemma num_inj n n' : num n = num n' → n = n'.
Proof.
  unfold num. intros E.
  assert (N.to_uint n = N.to_uint n') as E'.
  { apply (f_equal NilEmpty.uint_of_string) in E.
    rewrite !NilEmpty.usu in E. congruence. }
  apply (f_equal N.of_uint) in E'. by rewrite !DecimalN.Unsigned.of_to in E'.
Qed.

Lemma append_dot_inj s s' r r' :
  all_digits s = true → all_digits s' = true →
  s +:+ String "."%char r = s' +:+ String "."%char r' → s = s' ∧ r = r'.
Proof.
  revert s'. induction s as [|c s IH]; intros [|c' s']; cbn.
  - intros _ _ [= ->]. done.
  - intros _ [Hc _]%andb_prop [= <- _]. done.
  - intros [Hc _]%andb_prop _ [= -> _]. done.
  - intros [_ Hs]%andb_prop [_ Hs']%andb_prop [= -> E].
    destruct (IH _ Hs Hs' E) as [-> ->]. done.
Qed.

Lemma version_inj a b : version a = version b → a = b.
Proof.
  destruct a as [a1 a2 a3], b as [b1 b2 b3]. unfold version. cbn.
  intros E.
  apply append_dot_inj in E as [E1 E]; [|apply all_digits_num..].
  apply append_dot_inj in E as [E2 E3]; [|apply all_digits_num..].
  by rewrite (num_inj _ _ E1), (num_inj _ _ E2), (num_inj _ _ E3).
Qed.

(** The string [v.version] is read back as [v]. *)

Lemma value_from_of_uint_acc d acc :
  value_from (Npos acc) (NilEmpty.string_of_uint d) = Npos (Pos.of_uint_acc d acc).
Proof.
  revert acc. induction d; intros acc; cbn [NilEmpty.string_of_uint value_from Pos.of_uint_acc];
    [done|rewrite <- IHd; f_equal..];
    match goal with
    | |- context [digit_value ?c] =>
        let n := eval vm_compute in (digit_value c) in change (digit_value c) with n
    end; lia.
Qed.

Lemma value_from_of_uint d : value_from 0 (NilEmpty.string_of_uint d) = Pos.of_uint d.
Proof.
  induction d; cbn [NilEmpty.string_of_uint value_from Pos.of_uint]; [done|exact IHd|..];
    apply (value_from_of_uint_acc d).
Qed.

Lemma value_from_num n : value_from 0 (num n) = n.
Proof.
  unfold num. rewrite value_from_of_uint. apply DecimalN.Unsigned.of_to.
Qed.

Lemma nzhead_not_D0 d d' : Decimal.nzhead d ≠ Decimal.D0 d'.
Proof. induction d; cbn; congruence. Qed.

Lemma to_uint_not_D0 p d : Pos.to_uint p ≠ Decimal.D0 d.
Proof.
  intros E.
  pose proof (DecimalPos.Unsigned.to_of (Pos.to_uint p)) as H.
  rewrite DecimalPos.Unsigned.of_to in H. cbn in H. rewrite E in H.
  unfold Decimal.unorm in H. cbn in H.
  destruct (Decimal.nzhead d) eqn:Hd; try congruence.
  - injection H as ->. by apply (DecimalPos.Unsigned.to_uint_nonzero p).
  - by apply (nzhead_not_D0 _ _ Hd).
Qed.

Lemma numeric_identifier_num n :
  (n <= MAX_SAFE_INTEGER)%N → numeric_identifier (num n) = Some n.
Proof.
  intros Hn. unfold numeric_identifier.
  assert (value_from 0 (num n) = n) as Hv by apply value_from_num.
  destruct n as [|p]; [done|].
  unfold num in *. cbn [N.to_uint] in *.
  destruct (Pos.to_uint p) as [|d|d|d|d|d|d|d|d|d|d] eqn:E;
    [by destruct (DecimalPos.Unsigned.to_uint_nonnil p)
    |by destruct (to_uint_not_D0 p d)|..];
    cbn [NilEmpty.string_of_uint Ascii.eqb Bool.eqb andb] in *;
    rewrite Hv; by apply N.leb_le in Hn as ->.
Qed.

Lemma span_digits_dot d r :
  all_digits d = true → span_digits (d +:+ String "."%char r) = (d, String "."%char r).
Proof.
  induction d as [|c d IH]; [done|].
  change (String c d +:+ String "."%char r) with (String c (d +:+ String "."%char r)).
  cbn [span_digits all_digits].
  intros [-> Hd]%andb_prop. by rewrite IH.
Qed.

Lemma span_digits_end d : all_digits d = true → span_digits d = (d, "").
Proof.
  induction d as [|c d IH]; [done|]. cbn [span_digits all_digits].
  intros [-> Hd]%andb_prop. by rewrite IH.
Qed.

Lemma version_dots v :
  version v =
    num (major v) +:+ String "."%char (num (minor v) +:+ String "."%char (num (patch v))).
Proof. reflexivity. Qed.

Lemma parse_version v : safe v → parse (version v) = Some v.
Proof.
  destruct v as [ma mi pa]. intros (H1 & H2 & H3). cbn in H1, H2, H3.
  unfold parse. rewrite version_dots. cbn [major minor patch].
  rewrite span_digits_dot by apply all_digits_num.
  rewrite span_digits_dot by apply all_digits_num.
  rewrite span_digits_end by apply all_digits_num. cbn.
  by rewrite !numeric_identifier_num.
Qed.

Lemma numeric_identifier_safe d n :
  numeric_identifier d = Some n → (n <= MAX_SAFE_INTEGER)%N.
Proof.
  unfold numeric_identifier. destruct d as [|c d]; [done|].
  destruct (_ && _); [done|].
  destruct (value_from 0 _ <=? MAX_SAFE_INTEGER)%N eqn:E; [|done].
  intros [= <-]. by apply N.leb_le.
Qed.

Lemma coerce_safe raw v : coerce raw = Some v → safe v.
Proof.
  unfold coerce. generalize false. induction raw as [|c raw IH]; intros b; [done|].
  cbn [coerce_from]. destruct (is_digit c && negb b); [|apply IH].
  destruct (span_digits (String c raw)) as [d r].
  destruct (_ <=? _)%nat; [|apply IH].
  unfold parse_components.
  destruct (match dot_component r with Some _ => _ | None => _ end) as [mi pa].
  destruct (numeric_identifier d) as [ma'|] eqn:E1; [|done].
  destruct (numeric_identifier mi) as [mi'|] eqn:E2; [|done].
  destruct (numeric_identifier pa) as [pa'|] eqn:E3; [|done].
  cbn. intros [= <-]. unfold safe. cbn.
  split_and!; eapply numeric_identifier_safe; eassumption.
Qed.

End Versions.

(** ** [Array.prototype.sort] with the comparator of [sortMigrationFiles] *)

Lemma insert_sorted_Permutation {A : Type} (comparefn : A → A → Z) (x : A) (l : list A) :
  insert_sorted comparefn x l ≡ₚ x :: l.
Proof.
  induction l as [|y l IH]; cbn; [done|].
  destruct (comparefn x y <? 0)%Z; [done|].
  rewrite IH. apply perm_swap.
Qed.

Lemma Array_sort_Permutation {A : Type} (comparefn : A → A → Z) (l : list A) :
  Array_sort comparefn l ≡ₚ l.
Proof.
  unfold Array_sort.
  assert (∀ acc, foldl (λ sorted x, insert_sorted comparefn x sorted) acc l ≡ₚ acc ++ l)
    as H; [|apply H].
  induction l as [|x l IH]; intros acc; cbn.
  - by rewrite app_nil_r.
  - rewrite IH, insert_sorted_Permutation. apply Permutation_middle.
Qed.

Section Sorting.
Context {D : Type}.
Implicit Types (x y : MigrationFile D) (l : list (MigrationFile D)).

(** The order of the descriptors by their versions. *)

Lemma by_version_le x y : (by_version x y <? 0)%Z = true ↔ semver.le (version x) (version y).
Proof. unfold by_version, semver.le. by destruct (semver.gt _ _). Qed.

Lemma insert_sorted_sorted x l :
  StronglySorted (λ a b, semver.le (version a) (version b)) l →
  StronglySorted (λ a b, semver.le (version a) (version b)) (insert_sorted by_version x l).
Proof.
  induction 1 as [|y l Hl IH Hy]; cbn.
  { repeat constructor. }
  destruct (by_version x y <? 0)%Z eqn:E.
  - apply by_version_le in E. constructor; [by constructor|].
    constructor; [done|].
    eapply Forall_impl; [exact Hy|]. cbn. eauto using le_trans.
  - assert (semver.le (version y) (version x)) as Hyx.
    { destruct (le_total (version x) (version y)) as [H|H]; [|done].
      apply by_version_le in H. congruence. }
    constructor; [done|].
    rewrite insert_sorted_Permutation. by constructor.
Qed.

Lemma sortMigrationFiles_sorted l :
  StronglySorted (λ a b, semver.le (version a) (version b)) (sortMigrationFiles l).
Proof.
  unfold sortMigrationFiles, Array_sort.
  assert (∀ acc,
    StronglySorted (λ a b, semver.le (version a) (version b)) acc →
    StronglySorted (λ a b, semver.le (version a) (version b))
      (foldl (λ sorted x, insert_sorted by_version x sorted) acc l)) as H.
  { induction l as [|x l IH]; intros acc Hacc; cbn; [done|].
    apply IH. by apply insert_sorted_sorted. }
  apply H. constructor.
Qed.

Lemma sortMigrationFiles_Permutation l : sortMigrationFiles l ≡ₚ l.
Proof. apply Array_sort_Permutation. Qed.

(** Sorted without two equal versions is strictly sorted. *)
Lemma sorted_NoDup_strict l :
  StronglySorted (λ a b, semver.le (version a) (version b)) l →
  NoDup (version <$> l) →
  StronglySorted (λ a b, semver.lt (version a) (version b)) l.
Proof.
  induction 1 as [|x l Hl IH Hx]; cbn; [constructor|].
  intros [Hnotin Hnd]%NoDup_cons. constructor; [by apply IH|].
  apply Forall_forall. intros y Hy.
  rewrite Forall_forall in Hx.
  destruct (proj1 (le_lt_eq _ _) (Hx y Hy)) as [?|E]; [done|].
  destruct Hnotin. rewrite E. by apply list_elem_of_fmap_2.
Qed.

Lemma sortMigrationFiles_strict l :
  NoDup (version <$> l) →
  StronglySorted semver.lt (version <$> sortMigrationFiles l).
Proof.
  intros Hnd.
  apply (StronglySorted_fmap _ (λ a b, semver.lt (version a) (version b))); [done|].
  apply sorted_NoDup_strict; [apply sortMigrationFiles_sorted|].
  by rewrite sortMigrationFiles_Permutation.
Qed.

(** The sorted list does not depend on the order of the elements. *)
Lemma sortMigrationFiles_unique l l' :
  NoDup (version <$> l) → l ≡ₚ l' →
  sortMigrationFiles l = sortMigrationFiles l'.
Proof.
  intros Hnd Hp.
  apply (StronglySorted_unique_strong (λ a b, semver.lt (version a) (version b))).
  - intros x1 x2 _ _ H1 H2. destruct (lt_asym _ _ H1 H2).
  - apply sorted_NoDup_strict; [apply sortMigrationFiles_sorted|].
    by rewrite sortMigrationFiles_Permutation.
  - apply sorted_NoDup_strict; [apply sortMigrationFiles_sorted|].
    by rewrite sortMigrationFiles_Permutation, <- Hp.
  - by rewrite !sortMigrationFiles_Permutation.
Qed.

Lemma NoDup_fmap_eq {A B : Type} (g : A → B) (l : list A) (a b : A) :
  NoDup (g <$> l) → a ∈ l → b ∈ l → g a = g b → a = b.
Proof.
  induction l as [|z l IH]; cbn; [by intros _ ?%elem_of_nil|].
  intros [Hz Hnd]%NoDup_cons [->|Ha]%elem_of_cons [->|Hb]%elem_of_cons E; [done|..].
  - destruct Hz. rewrite E. by apply list_elem_of_fmap_2.
  - destruct Hz. rewrite <- E. by apply list_elem_of_fmap_2.
  - by apply IH.
Qed.

(** The sorted list of descriptors taken from a list without two equal
    versions does not depend on their order, also when a descriptor comes
    more than once. *)
Lemma sortMigrationFiles_unique_of l l' ms :
  NoDup (version <$> ms) → Forall (λ x, x ∈ ms) l → l ≡ₚ l' →
  sortMigrationFiles l = sortMigrationFiles l'.
Proof.
  intros Hnd Hin Hp.
  apply (StronglySorted_unique_strong (λ a b, semver.le (version a) (version b))).
  - intros x1 x2 H1 H2 H12 H21.
    rewrite sortMigrationFiles_Permutation in H1.
    rewrite sortMigrationFiles_Permutation, <- Hp in H2.
    rewrite Forall_forall in Hin.
    apply (NoDup_fmap_eq version ms); auto using le_antisym.
  - apply sortMigrationFiles_sorted.
  - apply sortMigrationFiles_sorted.
  - by rewrite !sortMigrationFiles_Permutation.
Qed.

End Sorting.

Lemma StronglySorted_sublist {A : Type} (R : relation A) (l1 l2 : list A) :
  l1 `sublist_of` l2 → StronglySorted R l2 → StronglySorted R l1.
Proof.
  induction 1 as [|x l1 l2 Hs IH|x l1 l2 Hs IH]; [done|..].
  - intros [H1 H2]%StronglySorted_cons. apply StronglySorted_cons. split; [|auto].
    rewrite Forall_forall in H1 |- *. intros y Hy. apply H1.
    by eapply elem_of_sublist.
  - intros [_ H2]%StronglySorted_cons. auto.
Qed.

(** ** Runs, step by step *)

Section Runs.
Context {D : Type}.
Implicit Types (h : Host D) (w : World D) (m : MigrationFile D)
  (ms pre post : list (MigrationFile D)) (o : Options) (t : list Event).

Lemma runMigrations_nil h o w : runMigrations h [] o w = (inr tt, [], w).
Proof. reflexivity. Qed.

Lemma runMigrations_skipped h m ms o w :
  skipped h o w m = true →
  runMigrations h (m :: ms) o w = after (skipped_events h m) (runMigrations h ms o w).
Proof.
  unfold skipped. intros Hs. cbn [runMigrations].
  unfold mbind, M_bind, bind, doc_get at 1. rewrite Hs.
  unfold printMigration, emit, after. cbn.
  destruct (runMigrations h ms o w) as [[r t] w']. reflexivity.
Qed.

Lemma runMigrations_dry h m ms o w :
  skipped h o w m = false → dryRun o = true →
  runMigrations h (m :: ms) o w =
    (inr tt,
     [DocGet (getIdFromMigration h m); PrintMigration (version_string m) SkipDueToDryRun],
     w).
Proof.
  unfold skipped. intros Hs Hd. cbn [runMigrations].
  unfold mbind, M_bind, bind, doc_get at 1. rewrite Hs, Hd. reflexivity.
Qed.

Lemma runMigrations_resolved h m ms o w d :
  skipped h o w m = false → dryRun o = false → fn m (DB w) = (Resolved, d) →
  runMigrations h (m :: ms) o w =
    after (executed_events h m w) (runMigrations h ms o (executed_world h m w)).
Proof.
  unfold skipped. intros Hs Hd Hf. cbn [runMigrations].
  unfold mbind, M_bind, bind, doc_get at 1. rewrite Hs, Hd.
  unfold call, executed_events, executed_world, after. rewrite Hf.
  unfold record_result, printMigration, now, doc_set, emit, mbind, M_bind, bind. cbn.
  destruct (runMigrations h ms o _) as [[r t] w']. reflexivity.
Qed.

Lemma runMigrations_rejected h m ms o w d :
  skipped h o w m = false → dryRun o = false → fn m (DB w) = (Rejected, d) →
  runMigrations h (m :: ms) o w =
    (inl SkippingNextMigrations, executed_events h m w, executed_world h m w).
Proof.
  unfold skipped. intros Hs Hd Hf. cbn [runMigrations].
  unfold mbind, M_bind, bind, doc_get at 1. rewrite Hs, Hd.
  unfold call, executed_events, executed_world. rewrite Hf.
  unfold record_result, printMigration, now, doc_set, emit, throw, mbind, M_bind, bind.
  reflexivity.
Qed.

Lemma runMigrations_turn h m ms o w : turn h m ms o w (runMigrations h (m :: ms) o w).
Proof.
  destruct (skipped h o w m) eqn:Hs.
  { rewrite runMigrations_skipped by done. by constructor. }
  destruct (dryRun o) eqn:Hd.
  { rewrite runMigrations_dry by done. by constructor. }
  destruct (fn m (DB w)) as [[] d] eqn:Hf.
  - rewrite (runMigrations_resolved _ _ _ _ _ d) by done. by econstructor.
  - rewrite (runMigrations_rejected _ _ _ _ _ d) by done. by econstructor.
Qed.

Lemma Index_runMigrations_skipped h m ms o w :
  skipped h o w m = true →
  Index.runMigrations h (m :: ms) o w =
    after (skipped_events h m) (Index.runMigrations h ms o w).
Proof.
  unfold skipped. intros Hs. cbn [Index.runMigrations].
  unfold mbind, M_bind, bind, doc_get at 1. rewrite Hs.
  unfold printMigration, emit, after. cbn.
  destruct (Index.runMigrations h ms o w) as [[r t] w']. reflexivity.
Qed.

Lemma Index_runMigrations_resolved h m ms o w d :
  skipped h o w m = false → fn m (DB w) = (Resolved, d) →
  Index.runMigrations h (m :: ms) o w =
    after (executed_events h m w) (Index.runMigrations h ms o (executed_world h m w)).
Proof.
  unfold skipped. intros Hs Hf. cbn [Index.runMigrations].
  unfold mbind, M_bind, bind, doc_get at 1. rewrite Hs.
  unfold call, executed_events, executed_world, after. rewrite Hf.
  unfold record_result, printMigration, now, doc_set, emit, mbind, M_bind, bind. cbn.
  destruct (Index.runMigrations h ms o _) as [[r t] w']. reflexivity.
Qed.

Lemma Index_runMigrations_rejected h m ms o w d :
  skipped h o w m = false → fn m (DB w) = (Rejected, d) →
  Index.runMigrations h (m :: ms) o w =
    (inr tt, executed_events h m w ++ [ConsoleLog], executed_world h m w).
Proof.
  unfold skipped. intros Hs Hf. cbn [Index.runMigrations].
  unfold mbind, M_bind, bind, doc_get at 1. rewrite Hs.
  unfold call, executed_events, executed_world. rewrite Hf.
  unfold record_result, printMigration, now, doc_set, emit, throw, mbind, M_bind, bind.
  reflexivity.
Qed.

Lemma after_nil {A : Type} (r : (Error + A) * list Event * World D) : after [] r = r.
Proof. by destruct r as [[] ?]. Qed.

Lemma after_after {A : Type} t t' (r : (Error + A) * list Event * World D) :
  after t (after t' r) = after (t ++ t') r.
Proof. unfold after. cbn. by rewrite app_assoc. Qed.

(** A run that is not a dry run and ends normally has come to the end of
    its list: the run of a longer list goes on from there. *)
Lemma runMigrations_app h pre post o w t1 w1 :
  dryRun o = false →
  runMigrations h pre o w = (inr tt, t1, w1) →
  runMigrations h (pre ++ post) o w = after t1 (runMigrations h post o w1).
Proof.
  intros Hd. revert w t1. induction pre as [|m pre IH]; intros w t1 Hrun.
  - rewrite runMigrations_nil in Hrun. injection Hrun as <- <-. by rewrite after_nil.
  - cbn [app]. destruct (runMigrations_turn h m pre o w) as [Hs|Hs Hd'|d Hs _ Hf|d Hs _ Hf].
    + rewrite runMigrations_skipped by done.
      destruct (runMigrations h pre o w) as [[r t] w'] eqn:Hpre.
      unfold after in Hrun. cbn in Hrun. injection Hrun as -> <- ->.
      rewrite (IH _ _ Hpre), after_after. done.
    + congruence.
    + rewrite (runMigrations_resolved _ _ _ _ _ d) by done.
      destruct (runMigrations h pre o _) as [[r t] w'] eqn:Hpre.
      unfold after in Hrun. cbn in Hrun. injection Hrun as -> <- ->.
      rewrite (IH _ _ Hpre), after_after. done.
    + discriminate.
Qed.

(** The same for the loop of [src/src/index.ts], as long as no procedure
    rejects. *)
Lemma Index_runMigrations_app h pre post o w t1 w1 :
  dryRun o = false →
  runMigrations h pre o w = (inr tt, t1, w1) →
  Index.runMigrations h (pre ++ post) o w = after t1 (Index.runMigrations h post o w1).
Proof.
  intros Hd. revert w t1. induction pre as [|m pre IH]; intros w t1 Hrun.
  - rewrite runMigrations_nil in Hrun. injection Hrun as <- <-. by rewrite after_nil.
  - cbn [app]. destruct (runMigrations_turn h m pre o w) as [Hs|Hs Hd'|d Hs _ Hf|d Hs _ Hf].
    + rewrite Index_runMigrations_skipped by done.
      destruct (runMigrations h pre o w) as [[r t] w'] eqn:Hpre.
      unfold after in Hrun. cbn in Hrun. injection Hrun as -> <- ->.
      rewrite (IH _ _ Hpre), after_after. done.
    + congruence.
    + rewrite (Index_runMigrations_resolved _ _ _ _ _ d) by done.
      destruct (runMigrations h pre o _) as [[r t] w'] eqn:Hpre.
      unfold after in Hrun. cbn in Hrun. injection Hrun as -> <- ->.
      rewrite (IH _ _ Hpre), after_after. done.
    + discriminate.
Qed.

(** ** [migrate], case by case *)

Lemma migrate_gather_caught h options w e :
  gather h (Object_assign (defaults w) options) = inl e →
  migrate h options w =
    catch e [] (with_defaults w (Object_assign (defaults w) options)).
Proof.
  intros Hg. unfold migrate, migrate_try, assign_defaults, mbind, M_bind, bind.
  rewrite Hg. reflexivity.
Qed.

Lemma migrate_gather_failed h options w e :
  gather h (Object_assign (defaults w) options) = inl e →
  has_message e = true →
  migrate h options w =
    (Exit 1, [ConsoleError], with_defaults w (Object_assign (defaults w) options)).
Proof.
  intros Hg He. rewrite (migrate_gather_caught _ _ _ e) by done.
  unfold catch. by rewrite He.
Qed.

(** The errors of the selection are [Error] objects. *)
Lemma selection_has_message (migrations : list (MigrationFile D)) single e :
  selection migrations single = inl e → has_message e = true.
Proof.
  unfold selection.
  assert (∀ e, singleVersions single = inl e → has_message e = true) as H1.
  { clear. induction single as [|v vs IH]; intros e; cbn; [done|].
    destruct (semver.coerce v); [|by intros [= <-]].
    destruct (singleVersions vs); [|done]. intros [= <-]. by apply IH. }
  destruct (singleVersions single) as [e'|versions]; [intros [= <-]; by apply H1|].
  clear H1. destruct (filtered migrations versions) as [e'|l] eqn:Hl; [|done].
  intros [= <-]. revert e' Hl. induction versions as [|v vs IH]; intros e'; cbn; [done|].
  destruct (List.find _ migrations); [|by intros [= <-]].
  destruct (filtered migrations vs); [|done]. intros [= <-]. by apply IH.
Qed.

Lemma migrate_selection_failed h options w migrations single e :
  gather h (Object_assign (defaults w) options) = inr migrations →
  single_of options = Some single →
  selection migrations single = inl e →
  migrate h options w =
    (Exit 1, [ConsoleLog; ConsoleError],
     with_defaults w (Object_assign (defaults w) options)).
Proof.
  intros Hg Hs He. unfold migrate, migrate_try, assign_defaults, mbind, M_bind, bind.
  rewrite Hg, Hs. cbn. rewrite He. cbn. unfold catch.
  by rewrite (selection_has_message _ _ _ He).
Qed.

Lemma migrate_ran h options w ms :
  plan h options (Object_assign (defaults w) options) = inr ms →
  migrate h options w =
    finish (after (announce options)
      (runMigrations h ms (Object_assign (defaults w) options)
         (with_defaults w (Object_assign (defaults w) options)))).
Proof.
  unfold plan, announce. intros Hp.
  unfold migrate, migrate_try, assign_defaults, mbind, M_bind, bind.
  destruct (gather h _) as [e|migrations]; [done|].
  destruct (single_of options) as [single|].
  - cbn. rewrite Hp. cbn.
    destruct (runMigrations h ms _ _) as [[[] t] w']; reflexivity.
  - injection Hp as ->. cbn.
    destruct (runMigrations h ms _ _) as [[[] t] w']; reflexivity.
Qed.

Lemma migrate_migrated h options w : migrated h options w (migrate h options w).
Proof.
  destruct (plan h options (Object_assign (defaults w) options)) as [e|ms] eqn:Hp.
  - unfold plan in Hp.
    destruct (gather h _) as [e'|migrations] eqn:Hg.
    + injection Hp as ->. rewrite (migrate_gather_caught _ _ _ e) by done.
      unfold catch. destruct (has_message e) eqn:He.
      * pose proof (migrated_failed h options w e [ConsoleError]) as H.
        rewrite He in H. apply H; [|done..]. unfold plan. by rewrite Hg.
      * pose proof (migrated_failed h options w e []) as H.
        rewrite He in H. apply H; [|done..]. unfold plan. by rewrite Hg.
    + destruct (single_of options) as [single|] eqn:Hs; [|done].
      rewrite (migrate_selection_failed _ _ _ migrations single e) by done.
      pose proof (migrated_failed h options w e [ConsoleLog; ConsoleError]) as H.
      rewrite (selection_has_message _ _ _ Hp) in H.
      apply H; [|done..]. unfold plan. by rewrite Hg, Hs.
  - rewrite (migrate_ran _ _ _ ms) by done. by constructor.
Qed.

(** ** What a trace holds *)

Lemma invocations_app t t' : invocations (t ++ t') = invocations t ++ invocations t'.
Proof. apply bind_app. Qed.

Lemma writes_app t t' : writes (t ++ t') = writes t ++ writes t'.
Proof. apply bind_app. Qed.

Lemma reads_app t t' : reads (t ++ t') = reads t ++ reads t'.
Proof. apply bind_app. Qed.

Lemma invocations_executed h m w : invocations (executed_events h m w) = [version m].
Proof. unfold executed_events. by destruct (fn m (DB w)) as [[] d]. Qed.

Lemma writes_executed h m w : writes (executed_events h m w) = [getIdFromMigration h m].
Proof. unfold executed_events. by destruct (fn m (DB w)) as [[] d]. Qed.

Lemma collection_executed h m w :
  MigrationCollection (executed_world h m w) =
    <[getIdFromMigration h m := result_of h m (fn m (DB w)).2 (fn m (DB w)).1]>
      (MigrationCollection w).
Proof. unfold executed_world. by destruct (fn m (DB w)) as [s d]. Qed.

Lemma defaults_executed h m w : defaults (executed_world h m w) = defaults w.
Proof. unfold executed_world. by destruct (fn m (DB w)) as [s d]. Qed.

Lemma invocations_announce options : invocations (announce options) = [].
Proof. unfold announce. by destruct (single_of options). Qed.

Lemma writes_announce options : writes (announce options) = [].
Proof. unfold announce. by destruct (single_of options). Qed.

Lemma invocations_finish (r : (Error + unit) * list Event * World D) : invocations (finish r).1.2 = invocations r.1.2.
Proof.
  destruct r as [[[e|[]] t] w]; cbn [finish]; [|done].
  unfold catch. destruct (has_message e); cbn [fst snd]; [|done].
  by rewrite invocations_app, app_nil_r.
Qed.

Lemma writes_finish (r : (Error + unit) * list Event * World D) : writes (finish r).1.2 = writes r.1.2.
Proof.
  destruct r as [[[e|[]] t] w]; cbn [finish]; [|done].
  unfold catch. destruct (has_message e); cbn [fst snd]; [|done].
  by rewrite writes_app, app_nil_r.
Qed.

Lemma world_finish (r : (Error + unit) * list Event * World D) : (finish r).2 = r.2.
Proof.
  destruct r as [[[e|[]] t] w]; cbn [finish]; [|done].
  unfold catch. by destruct (has_message e).
Qed.

(** ** A successful result protects its document *)

Lemma skipped_by_result h o w m r :
  ignoreRemote o = false →
  MigrationCollection w !! getIdFromMigration h m = Some r →
  status r = Successful →
  skipped h o w m = true.
Proof. unfold skipped, is_successful. by intros -> -> ->. Qed.

Lemma successful_is_kept h ms o k r w :
  ignoreRemote o = false →
  MigrationCollection w !! k = Some r →
  status r = Successful →
  (∀ v, sha256_hex h (semver.version v) = k →
        v ∉ invocations (runMigrations h ms o w).1.2) ∧
  (k ∉ writes (runMigrations h ms o w).1.2) ∧
  MigrationCollection (runMigrations h ms o w).2 !! k = Some r.
Proof.
  intros Hi. revert w. induction ms as [|m ms IH]; intros w Hk Hr.
  { cbn. split_and!; [intros v _|..]; apply not_elem_of_nil || done. }
  destruct (runMigrations_turn h m ms o w) as [Hs|Hs Hd|d Hs _ Hf|d Hs _ Hf].
  - destruct (IH w Hk Hr) as (IH1 & IH2 & IH3). cbn. by split_and!.
  - cbn. split_and!; [intros v _|..]; apply not_elem_of_nil || done.
  - assert (getIdFromMigration h m ≠ k) as Hne.
    { intros <-. by rewrite (skipped_by_result h o w m r) in Hs. }
    assert (MigrationCollection (executed_world h m w) !! k = Some r) as Hk'.
    { by rewrite collection_executed, lookup_insert_ne. }
    destruct (IH _ Hk' Hr) as (IH1 & IH2 & IH3). cbn [after fst snd].
    rewrite invocations_app, writes_app, invocations_executed, writes_executed.
    split_and!; [| |done].
    + intros v Hv [->%list_elem_of_singleton|?]%elem_of_app; [done|by eapply IH1].
    + intros [->%list_elem_of_singleton|?]%elem_of_app; done.
  - assert (getIdFromMigration h m ≠ k) as Hne.
    { intros <-. by rewrite (skipped_by_result h o w m r) in Hs. }
    cbn [fst snd]. rewrite invocations_executed, writes_executed.
    split_and!; [| |by rewrite collection_executed, lookup_insert_ne].
    + intros v Hv ->%list_elem_of_singleton. done.
    + intros ->%list_elem_of_singleton. done.
Qed.

(** C2. When the record of a migration (the document under the key [k] of
    its version) has the status successful and the merged options do not
    ignore the remote state, a call of [migrate], with or without a
    selection by [single], never invokes the procedure of a descriptor of
    that key, writes no document under that key, and leaves the record as
    it was. *)
Theorem successful_migration_is_skipped h options w k r :
  ignoreRemote (Object_assign (defaults w) options) = false →
  MigrationCollection w !! k = Some r →
  status r = Successful →
  (∀ v, sha256_hex h (semver.version v) = k →
        v ∉ invocations (migrate h options w).1.2) ∧
  (k ∉ writes (migrate h options w).1.2) ∧
  MigrationCollection (migrate h options w).2 !! k = Some r.
Proof.
  intros Hi Hk Hr.
  destruct (migrate_migrated h options w) as [e t Hp Ht1 Ht2 _|ms Hp].
  { cbn [fst snd]. rewrite Ht1, Ht2. split_and!; [intros v _|..]; apply not_elem_of_nil || done. }
  rewrite invocations_finish, writes_finish, world_finish. cbn [after fst snd].
  rewrite invocations_app, writes_app, invocations_announce, writes_announce.
  by apply successful_is_kept.
Qed.

(** ** Dry runs *)

Lemma runMigrations_skip_prefix h pre ms o w :
  Forall (λ m, skipped h o w m = true) pre →
  runMigrations h (pre ++ ms) o w =
    after (pre ≫= skipped_events h) (runMigrations h ms o w).
Proof.
  induction 1 as [|m pre Hm _ IH]; [by rewrite after_nil|].
  cbn [app]. rewrite runMigrations_skipped, IH, after_after by done. done.
Qed.

Lemma dry_run_is_pure h ms o w :
  dryRun o = true →
  (runMigrations h ms o w).1.1 = inr tt ∧
  invocations (runMigrations h ms o w).1.2 = [] ∧
  writes (runMigrations h ms o w).1.2 = [] ∧
  (runMigrations h ms o w).2 = w.
Proof.
  intros Hd. induction ms as [|m ms IH]; [done|].
  destruct (runMigrations_turn h m ms o w) as [Hs|Hs _|d Hs ? Hf|d Hs ? Hf];
    [|done|congruence..].
  destruct IH as (IH1 & IH2 & IH3 & IH4). cbn [after fst snd].
  by rewrite invocations_app, writes_app, IH2, IH3.
Qed.

(** C4. When the merged options have [dryRun], a call of [migrate] invokes
    no procedure and writes no document, and the collection of results and
    the database are as before. The engine still reads the record of each
    migration and passes over those that are recorded as successful; at the
    first migration that it would run, it reports the step and ends the run:
    the trace holds nothing for the migrations after it. *)
Theorem dry_run_stops_at_first_pending h options w :
  dryRun (Object_assign (defaults w) options) = true →
  (invocations (migrate h options w).1.2 = [] ∧
   writes (migrate h options w).1.2 = [] ∧
   MigrationCollection (migrate h options w).2 = MigrationCollection w ∧
   DB (migrate h options w).2 = DB w) ∧
  (∀ pre m post,
     plan h options (Object_assign (defaults w) options) = inr (pre ++ m :: post) →
     Forall (λ x, skipped h (Object_assign (defaults w) options) w x = true) pre →
     skipped h (Object_assign (defaults w) options) w m = false →
     migrate h options w =
       (Fulfilled,
        announce options ++ (pre ≫= skipped_events h) ++
        [DocGet (getIdFromMigration h m);
         PrintMigration (version_string m) SkipDueToDryRun],
        with_defaults w (Object_assign (defaults w) options))) ∧
  (∀ ms,
     plan h options (Object_assign (defaults w) options) = inr ms →
     Forall (λ x, skipped h (Object_assign (defaults w) options) w x = true) ms →
     migrate h options w =
       (Fulfilled, announce options ++ (ms ≫= skipped_events h),
        with_defaults w (Object_assign (defaults w) options))).
Proof.
  intros Hd. split; [|split].
  - destruct (migrate_migrated h options w) as [e t Hp Ht1 Ht2 _|ms Hp]; [done|].
    rewrite invocations_finish, writes_finish, world_finish. cbn [after fst snd].
    rewrite invocations_app, writes_app, invocations_announce, writes_announce.
    destruct (dry_run_is_pure h ms _ (with_defaults w (Object_assign (defaults w) options)) Hd)
      as (_ & -> & -> & ->).
    done.
  - intros pre m post Hp Hpre Hm.
    rewrite (migrate_ran _ _ _ _ Hp).
    rewrite runMigrations_skip_prefix by done.
    rewrite runMigrations_dry by done. done.
  - intros ms Hp Hms.
    rewrite (migrate_ran _ _ _ _ Hp).
    rewrite <- (app_nil_r ms) at 1.
    rewrite runMigrations_skip_prefix by done.
    rewrite runMigrations_nil. cbn. by rewrite app_nil_r.
Qed.

(** ** A procedure that rejects *)

Lemma executed_events_rejected h m w d :
  fn m (DB w) = (Rejected, d) →
  executed_events h m w =
    [DocGet (getIdFromMigration h m); Invoke (version m) (name m); ConsoleError;
     PrintMigration (version_string m) ErrorWhileRunning;
     DocSet (getIdFromMigration h m)
       (mkResult (version_string m) (Timestamp_now h d) Failed)].
Proof. unfold executed_events. by intros ->. Qed.

Lemma executed_events_resolved h m w d :
  fn m (DB w) = (Resolved, d) →
  executed_events h m w =
    [DocGet (getIdFromMigration h m); Invoke (version m) (name m);
     PrintMigration (version_string m) Success;
     DocSet (getIdFromMigration h m)
       (mkResult (version_string m) (Timestamp_now h d) Successful)].
Proof. unfold executed_events. by intros ->. Qed.

Lemma executed_world_settled h m w s d :
  fn m (DB w) = (s, d) →
  executed_world h m w =
    {| defaults := defaults w;
       MigrationCollection :=
         <[getIdFromMigration h m := result_of h m d s]> (MigrationCollection w);
       DB := d |}.
Proof. unfold executed_world. by intros ->. Qed.

(** C1, as amended. Take a call of [migrate] that is not a dry run, in which
    the migrations [pre] have run to their end and the procedure of the next
    migration [m] rejects. The engine writes the result [failed] under the
    key of [m] and reads, invokes and writes nothing for the migrations
    [post]; the collection is the one that the run of [pre] left, but for
    that key. With the engine of [src/src/cli.ts] the call ends the process
    with the code 1; the loop of [src/src/index.ts] writes the same and stops
    the same, and ends normally. *)
Theorem failure_halts_the_run h options w pre m post t1 w1 d :
  dryRun (Object_assign (defaults w) options) = false →
  plan h options (Object_assign (defaults w) options) = inr (pre ++ m :: post) →
  runMigrations h pre (Object_assign (defaults w) options)
    (with_defaults w (Object_assign (defaults w) options)) = (inr tt, t1, w1) →
  skipped h (Object_assign (defaults w) options) w1 m = false →
  fn m (DB w1) = (Rejected, d) →
  migrate h options w =
    (Exit 1,
     announce options ++
     (t1 ++
      [DocGet (getIdFromMigration h m); Invoke (version m) (name m); ConsoleError;
       PrintMigration (version_string m) ErrorWhileRunning;
       DocSet (getIdFromMigration h m)
         (mkResult (version_string m) (Timestamp_now h d) Failed)]) ++
     [ConsoleError],
     {| defaults := defaults w1;
        MigrationCollection :=
          <[getIdFromMigration h m :=
              mkResult (version_string m) (Timestamp_now h d) Failed]>
            (MigrationCollection w1);
        DB := d |}) ∧
  Index.runMigrations h (pre ++ m :: post) (Object_assign (defaults w) options)
    (with_defaults w (Object_assign (defaults w) options)) =
    (inr tt,
     (t1 ++
      [DocGet (getIdFromMigration h m); Invoke (version m) (name m); ConsoleError;
       PrintMigration (version_string m) ErrorWhileRunning;
       DocSet (getIdFromMigration h m)
         (mkResult (version_string m) (Timestamp_now h d) Failed)]) ++
     [ConsoleLog],
     {| defaults := defaults w1;
        MigrationCollection :=
          <[getIdFromMigration h m :=
              mkResult (version_string m) (Timestamp_now h d) Failed]>
            (MigrationCollection w1);
        DB := d |}).
Proof.
  intros Hd Hp Hpre Hs Hf. split.
  - rewrite (migrate_ran _ _ _ _ Hp).
    rewrite (runMigrations_app _ _ _ _ _ _ _ Hd Hpre).
    rewrite (runMigrations_rejected _ _ _ _ _ d) by done.
    rewrite (executed_events_rejected _ _ _ d), (executed_world_settled _ _ _ _ d) by done.
    unfold finish, after, catch. cbn [fst snd has_message]. by rewrite <- !app_assoc.
  - rewrite (Index_runMigrations_app _ _ _ _ _ _ _ Hd Hpre).
    rewrite (Index_runMigrations_rejected _ _ _ _ _ d) by done.
    rewrite (executed_events_rejected _ _ _ d), (executed_world_settled _ _ _ _ d) by done.
    unfold after. cbn [fst snd]. by rewrite app_assoc.
Qed.

(** ** A forced run *)

(** C7. In a run that ignores the remote state and is not a dry run, let the
    migrations [pre] have run to their end and let the record of the next
    migration [m] have the status successful. The engine invokes the
    procedure of [m] again and writes a result under the key of [m]: the
    version, the time that [Timestamp.now] gives after the procedure, and the
    status of this execution. The document replaces the one that was there:
    the collection holds the same keys as before. *)
Theorem forced_rerun_overwrites h o pre m post w t1 w1 old s d :
  ignoreRemote o = true →
  dryRun o = false →
  runMigrations h pre o w = (inr tt, t1, w1) →
  MigrationCollection w1 !! getIdFromMigration h m = Some old →
  status old = Successful →
  fn m (DB w1) = (s, d) →
  runMigrations h (pre ++ m :: post) o w =
    after
      (t1 ++
       [DocGet (getIdFromMigration h m); Invoke (version m) (name m)] ++
       match s with Resolved => [] | Rejected => [ConsoleError] end ++
       [PrintMigration (version_string m)
          (match s with Resolved => Success | Rejected => ErrorWhileRunning end);
        DocSet (getIdFromMigration h m)
          (mkResult (version_string m) (Timestamp_now h d)
             (match s with Resolved => Successful | Rejected => Failed end))])
      (match s with
       | Resolved => runMigrations h post o (executed_world h m w1)
       | Rejected => (inl SkippingNextMigrations, [], executed_world h m w1)
       end) ∧
  MigrationCollection (executed_world h m w1) =
    <[getIdFromMigration h m :=
        mkResult (version_string m) (Timestamp_now h d)
          (match s with Resolved => Successful | Rejected => Failed end)]>
      (MigrationCollection w1) ∧
  MigrationCollection (executed_world h m w1) !! getIdFromMigration h m =
    Some (mkResult (version_string m) (Timestamp_now h d)
            (match s with Resolved => Successful | Rejected => Failed end)) ∧
  dom (MigrationCollection (executed_world h m w1)) = dom (MigrationCollection w1).
Proof.
  intros Hi Hd Hpre Hold Hst Hf.
  assert (skipped h o w1 m = false) as Hs by (unfold skipped; by rewrite Hi).
  assert (MigrationCollection (executed_world h m w1) =
    <[getIdFromMigration h m :=
        mkResult (version_string m) (Timestamp_now h d)
          (match s with Resolved => Successful | Rejected => Failed end)]>
      (MigrationCollection w1)) as Hcoll.
  { by rewrite (executed_world_settled _ _ _ s d). }
  split_and!.
  - rewrite (runMigrations_app _ _ _ _ _ _ _ Hd Hpre). destruct s.
    + rewrite (runMigrations_resolved _ _ _ _ _ d) by done.
      rewrite (executed_events_resolved _ _ _ d) by done.
      by rewrite after_after.
    + rewrite (runMigrations_rejected _ _ _ _ _ d) by done.
      rewrite (executed_events_rejected _ _ _ d) by done.
      unfold after. cbn [fst snd]. by rewrite !app_nil_r.
  - done.
  - by rewrite Hcoll, lookup_insert_eq.
  - rewrite Hcoll. by apply dom_insert_lookup_L.
Qed.

(** ** The module-level [defaults] *)

Lemma runMigrations_defaults h ms o w : defaults (runMigrations h ms o w).2 = defaults w.
Proof.
  revert w. induction ms as [|m ms IH]; intros w; [done|].
  destruct (runMigrations_turn h m ms o w) as [Hs|Hs Hd|d Hs _ Hf|d Hs _ Hf];
    cbn [after fst snd]; rewrite ?IH, ?defaults_executed; done.
Qed.

Lemma Index_runMigrations_defaults h ms o w :
  defaults (Index.runMigrations h ms o w).2 = defaults w.
Proof.
  revert w. induction ms as [|m ms IH]; intros w; [done|].
  destruct (skipped h o w m) eqn:Hs.
  { rewrite Index_runMigrations_skipped by done. cbn [after fst snd]. apply IH. }
  destruct (fn m (DB w)) as [[] d] eqn:Hf.
  - rewrite (Index_runMigrations_resolved _ _ _ _ _ d) by done.
    cbn [after fst snd]. by rewrite IH, defaults_executed.
  - rewrite (Index_runMigrations_rejected _ _ _ _ _ d) by done.
    cbn [fst snd]. by rewrite defaults_executed.
Qed.

Lemma migrate_defaults h options w :
  defaults (migrate h options w).2 = Object_assign (defaults w) options.
Proof.
  destruct (migrate_migrated h options w) as [e t Hp _ _ _|ms Hp]; [done|].
  rewrite world_finish. cbn [after fst snd]. by rewrite runMigrations_defaults.
Qed.

Lemma Index_migrate_defaults h options w :
  defaults (Index.migrate h options w).2 = Object_assign (defaults w) options.
Proof.
  unfold Index.migrate, assign_defaults, mbind, M_bind, bind.
  destruct (Index.gather h _) as [e|ms]; cbn; [done|].
  pose proof (Index_runMigrations_defaults h ms (Object_assign (defaults w) options)
                (with_defaults w (Object_assign (defaults w) options))) as H.
  destruct (Index.runMigrations h ms _ _) as [[r t] w']. exact H.
Qed.

Lemma migrate_dry_is_pure h options w :
  dryRun (Object_assign (defaults w) options) = true →
  invocations (migrate h options w).1.2 = [] ∧ writes (migrate h options w).1.2 = [].
Proof.
  intros Hd. destruct (migrate_migrated h options w) as [e t Hp Ht1 Ht2 _|ms Hp]; [done|].
  rewrite invocations_finish, writes_finish. cbn [after fst snd].
  rewrite invocations_app, writes_app, invocations_announce, writes_announce.
  destruct (dry_run_is_pure h ms _ (with_defaults w (Object_assign (defaults w) options)) Hd)
    as (_ & -> & -> & _).
  done.
Qed.

(** C10. A call of [migrate] leaves its merged options in the module-level
    [defaults], in both engines. A later call merges its own options into
    them: for an option that it leaves out it takes the value that the
    earlier call passed, and the value of the module only when the earlier
    call left it out too. So after a call with [dryRun] true, a call that
    leaves [dryRun] out is a dry run: it invokes no procedure and writes no
    result. *)
Theorem later_call_sees_earlier_options h first later w :
  defaults (migrate h first w).2 = Object_assign (defaults w) first ∧
  defaults (Index.migrate h first w).2 = Object_assign (defaults w) first ∧
  dryRun (Object_assign (defaults (migrate h first w).2) later) =
    default (default (dryRun (defaults w)) (first ≫= dryRun')) (later ≫= dryRun') ∧
  ignoreRemote (Object_assign (defaults (migrate h first w).2) later) =
    default (default (ignoreRemote (defaults w)) (first ≫= ignoreRemote'))
            (later ≫= ignoreRemote') ∧
  ignoreRemote (Object_assign (defaults (Index.migrate h first w).2) later) =
    default (default (ignoreRemote (defaults w)) (first ≫= ignoreRemote'))
            (later ≫= ignoreRemote') ∧
  (first ≫= dryRun' = Some true → later ≫= dryRun' = None →
   invocations (migrate h later (migrate h first w).2).1.2 = [] ∧
   writes (migrate h later (migrate h first w).2).1.2 = []).
Proof.
  rewrite Index_migrate_defaults.
  assert (dryRun (Object_assign (defaults (migrate h first w).2) later) =
    default (default (dryRun (defaults w)) (first ≫= dryRun')) (later ≫= dryRun')) as Hdry.
  { rewrite migrate_defaults. by destruct first as [[]|], later as [[]|]. }
  split_and!; [apply migrate_defaults|done|done|..].
  - rewrite migrate_defaults. by destruct first as [[]|], later as [[]|].
  - by destruct first as [[]|], later as [[]|].
  - intros H1 H2. apply migrate_dry_is_pure. by rewrite Hdry, H1, H2.
Qed.

(** ** How often a procedure is invoked *)

Lemma invocations_sublist h ms o w :
  invocations (runMigrations h ms o w).1.2 `sublist_of` version <$> ms.
Proof.
  revert w. induction ms as [|m ms IH]; intros w; [done|].
  destruct (runMigrations_turn h m ms o w) as [Hs|Hs Hd|d Hs _ Hf|d Hs _ Hf];
    cbn [after fst snd]; rewrite ?invocations_app, ?invocations_executed.
  - cbn. apply sublist_cons, IH.
  - apply sublist_nil_l.
  - cbn. apply sublist_skip, IH.
  - cbn. apply sublist_skip, sublist_nil_l.
Qed.

Lemma invocations_NoDup_of_list h ms o w :
  NoDup (version <$> ms) → NoDup (invocations (runMigrations h ms o w).1.2).
Proof. intros Hnd. eapply sublist_NoDup; [done|apply invocations_sublist]. Qed.

Lemma collection_executed_lookup h m w d :
  fn m (DB w) = (Resolved, d) →
  MigrationCollection (executed_world h m w) !! getIdFromMigration h m =
    Some (mkResult (version_string m) (Timestamp_now h d) Successful).
Proof. intros Hf. by rewrite collection_executed, Hf, lookup_insert_eq. Qed.

(** Without [ignoreRemote], the result that the engine has just written
    keeps the procedure from a second invocation. *)
Lemma invocations_NoDup_of_records h ms o w :
  ignoreRemote o = false → NoDup (invocations (runMigrations h ms o w).1.2).
Proof.
  intros Hi. revert w. induction ms as [|m ms IH]; intros w; [constructor|].
  destruct (runMigrations_turn h m ms o w) as [Hs|Hs Hd|d Hs _ Hf|d Hs _ Hf];
    cbn [after fst snd]; rewrite ?invocations_app, ?invocations_executed.
  - apply IH.
  - constructor.
  - cbn. apply NoDup_cons. split; [|apply IH].
    eapply (successful_is_kept h ms o (getIdFromMigration h m));
      [done|by eapply collection_executed_lookup|done..].
  - apply NoDup_singleton.
Qed.

End Runs.

(** ** Discovery *)

Section Gathering.
Context {D : Type}.
Implicit Types (h : Host D) (o : Options) (f : string) (files versions : list string)
  (c m : MigrationFile D) (cs ms : list (MigrationFile D)) (e : Error).

Lemma load_file_coerced h o versions f :
  load_file h o versions f =
    match coerced o f with
    | None => (RejectedAtOnce (InvalidVersion (rawVersion o f)), versions)
    | Some v =>
        if bool_decide (semver.version v ∈ versions)
        then (RejectedAtOnce (DuplicateVersion (semver.version v)), versions)
        else (Settles (described h o v f), versions ++ [semver.version v])
    end.
Proof. reflexivity. Qed.

Lemma Promise_all_rejected {A : Type} e (ps : list (Promise A)) :
  Promise_all (RejectedAtOnce e :: ps) = inl e.
Proof. reflexivity. Qed.

Lemma Promise_all_settles_inl {A : Type} e (ps : list (Promise A)) :
  ∃ e', Promise_all (Settles (inl e) :: ps) = inl e'.
Proof. unfold Promise_all. cbn. destruct (first_rejected ps); eauto. Qed.

Lemma Promise_all_settles_inr {A : Type} (a : A) (ps : list (Promise A)) :
  Promise_all (Settles (inr a) :: ps) =
    match Promise_all ps with inl e => inl e | inr l => inr (a :: l) end.
Proof. unfold Promise_all. cbn. by destruct (first_rejected ps). Qed.

Lemma entry_version h o f c : entry h o f = Some c → coerced o f = Some (version c).
Proof.
  unfold entry, described. destruct (coerced o f) as [v|]; [|done]. cbn.
  destruct (import_ h f) as [|[migration|]]; try done.
  destruct (_ !! 1%nat); [|done]. by intros [= <-].
Qed.

Lemma entry_described h o f v c :
  coerced o f = Some v → described h o v f = inr c → entry h o f = Some c.
Proof. unfold entry. intros -> E. cbn. by rewrite E. Qed.

(** [Promise.all] is fulfilled exactly when every file has a descriptor and
    no version comes twice. *)
Lemma Promise_all_files_map h o versions files cs :
  Promise_all (files_map h o versions files) = inr cs ↔
  Forall2 (λ f c, entry h o f = Some c) files cs ∧
  NoDup (version_string <$> cs) ∧
  (∀ c, c ∈ cs → version_string c ∉ versions).
Proof.
  revert versions cs. induction files as [|f files IH]; intros versions cs.
  { cbn. split.
    - intros [= <-]. split_and!; [constructor|constructor|]. by intros c ?%elem_of_nil.
    - intros [->%Forall2_nil_inv_l _]. done. }
  cbn [files_map]. rewrite load_file_coerced.
  destruct (coerced o f) as [v|] eqn:Hv.
  2:{ rewrite Promise_all_rejected. split; [done|].
      intros [(c & cs' & Hc & _ & _)%Forall2_cons_inv_l _].
      apply entry_version in Hc. congruence. }
  case_bool_decide as Hin.
  { rewrite Promise_all_rejected. split; [done|].
    intros [(c & cs' & Hc & _ & ->)%Forall2_cons_inv_l (_ & Hout)].
    apply entry_version in Hc. destruct (Hout c); [by left|].
    unfold version_string. congruence. }
  destruct (described h o v f) as [e|c] eqn:Hc.
  { destruct (Promise_all_settles_inl e (files_map h o (versions ++ [semver.version v]) files))
      as [e' ->].
    split; [done|].
    intros [(c & cs' & Hc' & _ & _)%Forall2_cons_inv_l _].
    unfold entry in Hc'. rewrite Hv in Hc'. cbn in Hc'. by rewrite Hc in Hc'. }
  rewrite Promise_all_settles_inr.
  assert (version c = v) as Hcv.
  { pose proof (entry_described _ _ _ _ _ Hv Hc) as E%entry_version. congruence. }
  destruct (Promise_all (files_map h o (versions ++ [semver.version v]) files))
    as [e|cs'] eqn:Hall.
  - split; [done|].
    intros [(c' & cs' & Hc' & Hcs' & ->)%Forall2_cons_inv_l (Hnd & Hout)].
    assert (inl e = inr cs') as E; [|done].
    rewrite <- Hall. apply IH. split_and!; [done|by apply NoDup_cons in Hnd as [_ ?]|].
    intros c'' Hc'' [?|Heq%list_elem_of_singleton]%elem_of_app.
    + destruct (Hout c''); [by right|done].
    + cbn in Hnd. apply NoDup_cons in Hnd as [Hnotin _]. destruct Hnotin.
      rewrite (entry_described _ _ _ _ _ Hv Hc) in Hc'. injection Hc' as <-.
      unfold version_string at 1. rewrite Hcv, <- Heq.
      by apply list_elem_of_fmap_2.
  - pose proof (proj1 (IH _ _) Hall) as (Hall' & Hnd & Hout). split.
    + intros [= <-]. split_and!.
      * constructor; [by eapply entry_described|done].
      * cbn. apply NoDup_cons. split; [|done].
        intros (c' & Hc' & Hin')%list_elem_of_fmap.
        destruct (Hout c' Hin'). apply elem_of_app. right.
        apply list_elem_of_singleton. rewrite <- Hc'. unfold version_string. by rewrite Hcv.
      * intros c' [->|Hin']%elem_of_cons.
        -- unfold version_string. by rewrite Hcv.
        -- intros ?. destruct (Hout c' Hin'). apply elem_of_app. by left.
    + intros [(c' & cs'' & Hc' & Hcs'' & ->)%Forall2_cons_inv_l (Hnd' & Hout')].
      rewrite (entry_described _ _ _ _ _ Hv Hc) in Hc'. injection Hc' as <-.
      f_equal. f_equal.
      assert (@inr Error _ cs' = inr cs'') as [= ->]; [|done].
      rewrite <- Hall. apply IH.
      split_and!; [done|by apply NoDup_cons in Hnd' as [_ ?]|].
      intros c'' Hc'' [?|Heq%list_elem_of_singleton]%elem_of_app.
      * destruct (Hout' c''); [by right|done].
      * cbn in Hnd'. apply NoDup_cons in Hnd' as [Hnotin _]. destruct Hnotin.
        unfold version_string at 1. rewrite Hcv, <- Heq.
        by apply list_elem_of_fmap_2.
Qed.

Lemma gather_inr h o ms :
  gather h o = inr ms ↔
  ∃ cs, Forall2 (λ f c, entry h o f = Some c) (files_of h o) cs ∧
        NoDup (version_string <$> cs) ∧
        ms = sortMigrationFiles cs.
Proof.
  unfold gather.
  destruct (Promise_all (files_map h o [] (files_of h o))) as [e|cs] eqn:Hall.
  - split; [done|]. intros (cs & H1 & H2 & _).
    assert (inl e = @inr Error _ cs) as E; [|done].
    rewrite <- Hall. apply Promise_all_files_map. split_and!; [done..|].
    by intros c _ ?%elem_of_nil.
  - apply Promise_all_files_map in Hall as (H1 & H2 & _). split.
    + intros [= <-]. by exists cs.
    + intros (cs' & H1' & H2' & ->). do 2 f_equal.
      assert (@inr Error _ cs = inr cs') as [= ->]; [|done].
      transitivity (Promise_all (files_map h o [] (files_of h o))).
      * symmetry. apply Promise_all_files_map. split_and!; [done..|].
        by intros c _ ?%elem_of_nil.
      * apply Promise_all_files_map. split_and!; [done..|].
        by intros c _ ?%elem_of_nil.
Qed.

Lemma NoDup_versions cs : NoDup (version_string <$> cs) → NoDup (version <$> cs).
Proof.
  intros Hnd. apply (NoDup_fmap_1 semver.version).
  by rewrite <- list_fmap_compose.
Qed.

Lemma entry_ext h h' o f :
  (∀ f, import_ h' f = import_ h f) → entry h' o f = entry h o f.
Proof. intros Hi. unfold entry, described. by rewrite Hi. Qed.

(** C3. When [gather] returns a list, the versions of the list are strictly
    ascending in the order of major, then minor, then patch; a host that
    enumerates the same files in another order gets the same list; the
    [gather] of [src/src/index.ts] returns the same list. *)
Theorem gather_strictly_ascending h h' o ms :
  (∀ f, import_ h' f = import_ h f) →
  cwd h' = cwd h →
  glob_sync h' (Js.join (directory o) "*.js") ≡ₚ glob_sync h (Js.join (directory o) "*.js") →
  gather h o = inr ms →
  StronglySorted semver.lt (version <$> ms) ∧
  gather h' o = inr ms ∧
  Index.gather h o = inr ms.
Proof.
  intros Hi Hc Hg Hms. split_and!; [| |done].
  - apply gather_inr in Hms as (cs & _ & Hnd & ->).
    by apply sortMigrationFiles_strict, NoDup_versions.
  - apply gather_inr in Hms as (cs & Hcs & Hnd & ->).
    assert (files_of h o ≡ₚ files_of h' o) as Hp.
    { unfold files_of. by rewrite Hc, Hg. }
    destruct (Permutation_Forall2 Hp Hcs) as (cs' & Hp' & Hcs').
    apply gather_inr. exists cs'. split_and!.
    + eapply Forall2_impl; [exact Hcs'|]. intros f c <-. by apply entry_ext.
    + by rewrite <- Hp'.
    + by apply sortMigrationFiles_unique; [apply NoDup_versions|].
Qed.

(** The first rejection that [Promise.all] sees *)

Lemma Promise_all_first_rejected {A : Type} (ps : list (Promise A)) e :
  first_rejected ps = Some e → Promise_all ps = inl e.
Proof. unfold Promise_all. by intros ->. Qed.

Lemma thrown_at_once_has_message e : thrown_at_once e → has_message e = true.
Proof. by destruct e. Qed.

Lemma first_rejected_kind h o versions files e :
  first_rejected (files_map h o versions files) = Some e → thrown_at_once e.
Proof.
  revert versions. induction files as [|f files IH]; intros versions; [done|].
  cbn [files_map]. rewrite load_file_coerced.
  destruct (coerced o f) as [v|] eqn:Hv; [|by intros [= <-]].
  case_bool_decide; [by intros [= <-]|]. cbn. apply IH.
Qed.




(** ** The selection *)

Lemma singleVersions_inr single versions :
  singleVersions single = inr versions ↔
  Forall2 (λ token v, semver.version <$> semver.coerce token = Some v) single versions.
Proof.
  revert versions. induction single as [|token single IH]; intros versions; cbn.
  { split; [intros [= <-]; constructor|by intros ->%Forall2_nil_inv_l]. }
  destruct (semver.coerce token) as [parsed|] eqn:Hp; cbn.
  2:{ split; [done|]. intros (? & ? & H & _)%Forall2_cons_inv_l.
      rewrite Hp in H. done. }
  destruct (singleVersions single) as [e|l].
  - split; [done|]. intros (? & l & _ & Hl & ->)%Forall2_cons_inv_l.
    by apply IH in Hl.
  - split.
    + intros [= <-]. constructor; [by rewrite Hp|]. by apply IH.
    + intros (? & l' & H & Hl & ->)%Forall2_cons_inv_l.
      rewrite Hp in H. injection H as <-.
      apply IH in Hl as [= ->]. done.
Qed.

Lemma filtered_inr ms versions (l : list (MigrationFile D)) :
  filtered ms versions = inr l ↔
  Forall2 (λ v m, List.find (λ m, String.eqb (version_string m) v) ms = Some m) versions l.
Proof.
  revert l. induction versions as [|v versions IH]; intros l; cbn.
  { split; [intros [= <-]; constructor|by intros ->%Forall2_nil_inv_l]. }
  destruct (List.find _ ms) as [m|] eqn:Hm; cbn.
  2:{ split; [done|]. intros (? & ? & H & _)%Forall2_cons_inv_l. congruence. }
  destruct (filtered ms versions) as [e|l'].
  - split; [done|]. intros (? & l' & _ & Hl & ->)%Forall2_cons_inv_l.
    by apply IH in Hl.
  - split.
    + intros [= <-]. constructor; [done|]. by apply IH.
    + intros (? & l'' & H & Hl & ->)%Forall2_cons_inv_l.
      rewrite Hm in H. injection H as <-.
      apply IH in Hl as [= ->]. done.
Qed.

Lemma find_version ms v m :
  List.find (λ m, String.eqb (version_string m) v) ms = Some m →
  m ∈ ms ∧ version_string m = v.
Proof.
  intros [Hin Hv]%find_some. split; [by apply list_elem_of_In|].
  by apply String.eqb_eq.
Qed.

Lemma filtered_versions ms versions (l : list (MigrationFile D)) :
  filtered ms versions = inr l →
  version_string <$> l = versions ∧ Forall (λ m, m ∈ ms) l.
Proof.
  intros H%filtered_inr. induction H as [|v m versions l Hm _ [IH1 IH2]]; [done|].
  apply find_version in Hm as [Hin <-]. split; [by rewrite <- IH1|by constructor].
Qed.

Lemma find_own ms m :
  NoDup (version_string <$> ms) → m ∈ ms →
  List.find (λ m', String.eqb (version_string m') (version_string m)) ms = Some m.
Proof.
  induction ms as [|m0 ms IH]; [by intros _ ?%elem_of_nil|].
  cbn. intros [Hnotin Hnd]%NoDup_cons Hin.
  destruct (String.eqb (version_string m0) (version_string m)) eqn:E.
  - apply String.eqb_eq in E. apply elem_of_cons in Hin as [->|Hin]; [done|].
    destruct Hnotin. rewrite E. by apply list_elem_of_fmap_2.
  - apply elem_of_cons in Hin as [->|Hin]; [by rewrite String.eqb_refl in E|].
    by apply IH.
Qed.

Lemma find_None ms v :
  (∀ m, m ∈ ms → version_string m ≠ v) →
  List.find (λ m, String.eqb (version_string m) v) ms = None.
Proof.
  induction ms as [|m0 ms IH]; [done|]. intros H. cbn.
  destruct (String.eqb (version_string m0) v) eqn:E.
  - apply String.eqb_eq in E. by destruct (H m0 ltac:(by left)).
  - apply IH. intros m Hm. apply H. by right.
Qed.

(** The strings that [gather] puts in the field [version] are read back, by
    [semver.gt], as the versions that the model keeps there. *)
Lemma gather_versions_parse h o ms :
  gather h o = inr ms →
  Forall (λ m, semver.parse (version_string m) = Some (version m)) ms.
Proof.
  intros (cs & Hcs & _ & ->)%gather_inr. rewrite sortMigrationFiles_Permutation.
  induction Hcs as [|f c files cs Hc _ IH]; constructor; [|done].
  apply entry_version in Hc. unfold coerced in Hc.
  destruct (rawVersion o f) as [raw|]; [|done]. cbn in Hc.
  by apply parse_version, (coerce_safe raw).
Qed.

Lemma gather_NoDup h o ms : gather h o = inr ms → NoDup (version_string <$> ms).
Proof.
  intros (cs & _ & Hnd & ->)%gather_inr. by rewrite sortMigrationFiles_Permutation.
Qed.

(** The list of a plan holds no version twice, when the tokens of the
    selection are coerced to versions that differ. *)
Lemma plan_NoDup h options o ms :
  (∀ single versions,
     single_of options = Some single → singleVersions single = inr versions →
     NoDup versions) →
  plan h options o = inr ms → NoDup (version <$> ms).
Proof.
  unfold plan, selection. intros Hnd.
  destruct (gather h o) as [e|ms0] eqn:Hg; [done|].
  destruct (single_of options) as [single|].
  - destruct (singleVersions single) as [e|versions] eqn:Hv; [done|].
    destruct (filtered ms0 versions) as [e|l] eqn:Hl; [done|].
    intros [= <-]. rewrite sortMigrationFiles_Permutation.
    apply NoDup_versions. apply filtered_versions in Hl as [-> _]. eauto.
  - intros [= <-]. by apply NoDup_versions, (gather_NoDup h o).
Qed.

Lemma invocations_migrate_NoDup h options w :
  (∀ ms, plan h options (Object_assign (defaults w) options) = inr ms →
         NoDup (invocations
                  (runMigrations h ms (Object_assign (defaults w) options)
                     (with_defaults w (Object_assign (defaults w) options))).1.2)) →
  NoDup (invocations (migrate h options w).1.2).
Proof.
  intros H. destruct (migrate_migrated h options w) as [e t Hp Ht _ _|ms Hp].
  - cbn [fst snd]. rewrite Ht. constructor.
  - rewrite invocations_finish. cbn [after fst snd].
    rewrite invocations_app, invocations_announce. by apply H.
Qed.

(** The tokens of a selection that succeeds, and the descriptors that it
    lists for them. *)
Lemma selection_tokens ms single selected :
  selection ms single = inr selected →
  ∃ l, selected ≡ₚ l ∧
       Forall2 (λ token m, m ∈ ms ∧ semver.coerce token = Some (version m)) single l.
Proof.
  unfold selection.
  destruct (singleVersions single) as [e|versions] eqn:Hv; [done|].
  destruct (filtered ms versions) as [e|l] eqn:Hl; [done|].
  intros [= <-]. exists l. split; [apply sortMigrationFiles_Permutation|].
  apply singleVersions_inr in Hv. apply filtered_inr in Hl.
  eapply Forall2_trans; [|exact Hv|exact Hl].
  intros token v m Ht [Hin Hm]%find_version. split; [done|].
  cbn beta in Ht.
  destruct (semver.coerce token) as [c|] eqn:Hc; cbn in Ht; [|done].
  injection Ht as Ht. f_equal. apply version_inj. by rewrite Ht, <- Hm.
Qed.

Lemma singleVersions_coerced single (vs : list semver.SemVer) :
  Forall2 (λ token v, semver.coerce token = Some v) single vs →
  singleVersions single = inr (semver.version <$> vs).
Proof.
  intros H. apply singleVersions_inr. apply Forall2_fmap_r.
  eapply Forall2_impl; [exact H|]. by intros token v ->.
Qed.

Lemma singleVersions_inr_coerced single versions :
  singleVersions single = inr versions →
  ∃ vs, Forall2 (λ token v, semver.coerce token = Some v) single vs ∧
        versions = semver.version <$> vs.
Proof.
  intros H%singleVersions_inr.
  induction H as [|token v single versions Ht _ (vs & IH & ->)]; [by exists []|].
  cbn beta in Ht.
  destruct (semver.coerce token) as [c|] eqn:Hc; cbn in Ht; [|done].
  injection Ht as <-. exists (c :: vs). split; [by constructor|done].
Qed.

(** C6, as amended. In a call of [migrate] the versions whose procedures
    are invoked are a sublist of the versions of the list that is run: a
    procedure is invoked at most once for each time that its descriptor is
    listed. Without a selection the list is the one of [gather], which
    holds no version twice; with a selection it holds one descriptor for
    each token, that of the version of the token. So no procedure is
    invoked twice when the merged options do not ignore the remote state,
    or when no two tokens of the selection are coerced to the same
    version. *)
Theorem invoked_at_most_once h options w :
  (∀ e, plan h options (Object_assign (defaults w) options) = inl e →
        invocations (migrate h options w).1.2 = []) ∧
  (∀ ms, plan h options (Object_assign (defaults w) options) = inr ms →
     invocations (migrate h options w).1.2 `sublist_of` version <$> ms ∧
     (single_of options = None → NoDup (version <$> ms)) ∧
     (∀ single, single_of options = Some single →
        ∃ l, ms ≡ₚ l ∧
             Forall2 (λ token m, semver.coerce token = Some (version m)) single l)) ∧
  (ignoreRemote (Object_assign (defaults w) options) = false ∨
   (∀ single vs,
      single_of options = Some single →
      Forall2 (λ token v, semver.coerce token = Some v) single vs →
      NoDup vs) →
   NoDup (invocations (migrate h options w).1.2)).
Proof.
  split_and!.
  - intros e He.
    destruct (migrate_migrated h options w) as [e' t Hp Ht _ _|ms Hp]; [done|congruence].
  - intros ms Hms. split_and!.
    + rewrite (migrate_ran _ _ _ ms), invocations_finish by done. cbn [after fst snd].
      rewrite invocations_app, invocations_announce. apply invocations_sublist.
    + intros Hs. unfold plan in Hms.
      destruct (gather h _) as [e|ms0] eqn:Hg; [done|]. rewrite Hs in Hms.
      injection Hms as <-. by eapply NoDup_versions, gather_NoDup.
    + intros single Hs. unfold plan in Hms.
      destruct (gather h _) as [e|ms0] eqn:Hg; [done|]. rewrite Hs in Hms.
      destruct (selection_tokens _ _ _ Hms) as (l & Hp & Hl). exists l. split; [done|].
      eapply Forall2_impl; [exact Hl|]. by intros token m [_ ?].
  - intros [Hi|Hnd]; apply invocations_migrate_NoDup; intros ms Hp.
    + by apply invocations_NoDup_of_records.
    + apply invocations_NoDup_of_list. eapply plan_NoDup; [|done].
      intros single versions Hs (vs & Hvs & ->)%singleVersions_inr_coerced.
      apply NoDup_fmap_2; [intros a b; apply version_inj|].
      by apply (Hnd single).
Qed.

(** ** The selection, sorted *)

Lemma selection_inr ms single selected :
  selection ms single = inr selected ↔
  ∃ versions (l : list (MigrationFile D)),
    singleVersions single = inr versions ∧ filtered ms versions = inr l ∧
    selected = sortMigrationFiles l.
Proof.
  unfold selection. split.
  - destruct (singleVersions single) as [e|versions]; [done|].
    destruct (filtered ms versions) as [e|l] eqn:Hl; [done|].
    intros [= <-]. by exists versions, l.
  - intros (versions & l & -> & -> & ->). done.
Qed.

Lemma selection_Permutation ms single single' selected :
  NoDup (version <$> ms) → single ≡ₚ single' →
  selection ms single = inr selected → selection ms single' = inr selected.
Proof.
  intros Hnd Hp (versions & l & Hv & Hl & ->)%selection_inr.
  apply singleVersions_inr in Hv. apply filtered_inr in Hl.
  destruct (Permutation_Forall2 Hp Hv) as (versions' & Hp' & Hv').
  destruct (Permutation_Forall2 Hp' Hl) as (l' & Hp'' & Hl').
  apply selection_inr. exists versions', l'.
  split_and!; [by apply singleVersions_inr|by apply filtered_inr|].
  apply (sortMigrationFiles_unique_of _ _ ms); [done| |done].
  apply filtered_inr, filtered_versions in Hl as [_ ?]. done.
Qed.

Lemma filtered_first_unknown ms pre v post :
  Forall (λ u, ∃ m, m ∈ ms ∧ version_string m = u) pre →
  (∀ m, m ∈ ms → version_string m ≠ v) →
  filtered ms (pre ++ v :: post) = inl (UnknownVersion v).
Proof.
  intros Hpre Hv. induction Hpre as [|u pre (m & Hin & Hm) _ IH]; cbn.
  - by rewrite find_None.
  - destruct (List.find _ ms) eqn:Hf; [by rewrite IH|].
    apply list_elem_of_In in Hin. apply (find_none _ _ Hf) in Hin.
    apply String.eqb_neq in Hin. done.
Qed.

Lemma migrate_try_selection_failed h options w ms single e :
  gather h (Object_assign (defaults w) options) = inr ms →
  single_of options = Some single →
  selection ms single = inl e →
  migrate_try h options w =
    (inl e, [ConsoleLog], with_defaults w (Object_assign (defaults w) options)).
Proof.
  intros Hg Hs He. unfold migrate_try, assign_defaults, mbind, M_bind, bind.
  rewrite Hg, Hs. cbn. rewrite He. reflexivity.
Qed.

(** C8, as amended. Let [gather] have returned the list [ms] and let the
    options hold a selection [single].

    When every token is coerced to the version of a descriptor of [ms],
    [l] being these descriptors in the order of the tokens, the list that
    is run is [l] sorted: it holds the descriptors of the tokens in
    ascending order of their versions; it is the same list for every order
    of the tokens; [migrate] runs this list, and the versions of the
    procedures that it invokes are in ascending order.

    When the tokens can be coerced and [token] is the first one whose
    version is the version of no descriptor of [ms], the body of [migrate]
    throws [UnknownVersion] for this version after the log of the number of
    migrations, and the call ends the process: it reads no record, invokes
    no procedure and writes no result. *)
Theorem selection_runs_in_version_order h options w single ms :
  single_of options = Some single →
  gather h (Object_assign (defaults w) options) = inr ms →
  (∀ l,
     Forall2 (λ token m, m ∈ ms ∧ semver.coerce token = Some (version m)) single l →
     selection ms single = inr (sortMigrationFiles l) ∧
     sortMigrationFiles l ≡ₚ l ∧
     StronglySorted semver.le (version <$> sortMigrationFiles l) ∧
     (∀ single', single ≡ₚ single' → selection ms single' = inr (sortMigrationFiles l)) ∧
     migrate h options w =
       finish (after [ConsoleLog; ConsoleLog]
         (runMigrations h (sortMigrationFiles l) (Object_assign (defaults w) options)
            (with_defaults w (Object_assign (defaults w) options)))) ∧
     invocations (migrate h options w).1.2 `sublist_of` version <$> sortMigrationFiles l ∧
     StronglySorted semver.le (invocations (migrate h options w).1.2)) ∧
  (∀ pre token post v,
     single = pre ++ token :: post →
     Forall (λ t, ∃ m, m ∈ ms ∧ semver.coerce t = Some (version m)) pre →
     semver.coerce token = Some v →
     v ∉ version <$> ms →
     Forall (λ t, is_Some (semver.coerce t)) post →
     migrate_try h options w =
       (inl (UnknownVersion (semver.version v)), [ConsoleLog],
        with_defaults w (Object_assign (defaults w) options)) ∧
     migrate h options w =
       (Exit 1, [ConsoleLog; ConsoleError],
        with_defaults w (Object_assign (defaults w) options))).
Proof.
  intros Hs Hg. split.
  - intros l Hl.
    assert (NoDup (version_string <$> ms)) as Hnd by (by eapply gather_NoDup).
    assert (Forall (λ m, m ∈ ms) l) as Hin.
    { clear -Hl. induction Hl as [|t m ? ? [? _] _ IH]; by constructor. }
    assert (selection ms single = inr (sortMigrationFiles l)) as Hsel.
    { apply selection_inr. exists (version_string <$> l), l. split_and!; [| |done].
      - rewrite (singleVersions_coerced _ (version <$> l)); [by rewrite <- list_fmap_compose|].
        apply Forall2_fmap_r. eapply Forall2_impl; [exact Hl|]. by intros t m [_ ?].
      - apply filtered_inr. clear Hl.
        induction Hin as [|m l Hm _ IH]; constructor; [|done]. by apply find_own. }
    assert (StronglySorted semver.le (version <$> sortMigrationFiles l)) as Hsorted.
    { apply (StronglySorted_fmap _ (λ a b, semver.le (version a) (version b))); [done|].
      apply sortMigrationFiles_sorted. }
    assert (migrate h options w =
       finish (after [ConsoleLog; ConsoleLog]
         (runMigrations h (sortMigrationFiles l) (Object_assign (defaults w) options)
            (with_defaults w (Object_assign (defaults w) options))))) as Hrun.
    { rewrite (migrate_ran _ _ _ (sortMigrationFiles l)).
      - unfold announce. by rewrite Hs.
      - unfold plan. by rewrite Hg, Hs. }
    assert (invocations (migrate h options w).1.2
              `sublist_of` version <$> sortMigrationFiles l) as Hsub.
    { rewrite Hrun, invocations_finish. cbn [after fst snd].
      rewrite invocations_app. cbn [invocations mbind list_bind app].
      apply invocations_sublist. }
    split_and!; [done|apply sortMigrationFiles_Permutation|done| |done|done|].
    + intros single' Hp. apply (selection_Permutation ms single); [|done..].
      by apply NoDup_versions.
    + by eapply StronglySorted_sublist.
  - intros pre token post v -> Hpre Htok Hv Hpost.
    apply Forall_exists_Forall2_l in Hpre as [l Hl].
    destruct (proj1 (Forall_exists_Forall2_l
                       (λ t u, semver.coerce t = Some u) post) Hpost) as [vpost Hvpost].
    assert (singleVersions (pre ++ token :: post) =
              inr ((version_string <$> l) ++
                   semver.version v :: (semver.version <$> vpost))) as Hsv.
    { rewrite (singleVersions_coerced _ ((version <$> l) ++ v :: vpost)).
      - by rewrite fmap_app, <- list_fmap_compose.
      - apply Forall2_app; [|by constructor].
        apply Forall2_fmap_r. eapply Forall2_impl; [exact Hl|]. by intros t m [_ ?]. }
    assert (selection ms (pre ++ token :: post) =
              inl (UnknownVersion (semver.version v))) as Hsel.
    { unfold selection. rewrite Hsv, filtered_first_unknown; [done| |].
      - clear -Hl. induction Hl as [|t m ? ? [? _] _ IH]; constructor; eauto.
      - intros m Hm E. apply Hv. apply version_inj in E as <-.
        by apply list_elem_of_fmap_2. }
    split.
    + by apply (migrate_try_selection_failed _ _ _ ms (pre ++ token :: post)).
    + by apply (migrate_selection_failed _ _ _ ms (pre ++ token :: post)
                  (UnknownVersion (semver.version v))).
Qed.

End Gathering.


(** ** The run of three migrations whose second one rejects *)

Lemma failure_halts_the_run_witness :
  migrate Fixture.second_rejects None (Fixture.world ∅) =
    (Exit 1,
     [ConsoleLog;
      DocGet "sha256:1.0.0"; Invoke (Fixture.v 1) "init";
      PrintMigration "1.0.0" Success;
      DocSet "sha256:1.0.0" (Fixture.successful "1.0.0" 1);
      DocGet "sha256:2.0.0"; Invoke (Fixture.v 2) "users"; ConsoleError;
      PrintMigration "2.0.0" ErrorWhileRunning;
      DocSet "sha256:2.0.0" (Fixture.failed "2.0.0" 2);
      ConsoleError],
     {| defaults := initial_defaults;
        MigrationCollection :=
          <["sha256:2.0.0" := Fixture.failed "2.0.0" 2]>
            (<["sha256:1.0.0" := Fixture.successful "1.0.0" 1]> ∅);
        DB := 2%nat |}) ∧
  Index.runMigrations Fixture.second_rejects
    [Fixture.init; Fixture.users_rejecting; Fixture.posts]
    initial_defaults (Fixture.world ∅) =
    (inr tt,
     [DocGet "sha256:1.0.0"; Invoke (Fixture.v 1) "init";
      PrintMigration "1.0.0" Success;
      DocSet "sha256:1.0.0" (Fixture.successful "1.0.0" 1);
      DocGet "sha256:2.0.0"; Invoke (Fixture.v 2) "users"; ConsoleError;
      PrintMigration "2.0.0" ErrorWhileRunning;
      DocSet "sha256:2.0.0" (Fixture.failed "2.0.0" 2);
      ConsoleLog],
     {| defaults := initial_defaults;
        MigrationCollection :=
          <["sha256:2.0.0" := Fixture.failed "2.0.0" 2]>
            (<["sha256:1.0.0" := Fixture.successful "1.0.0" 1]> ∅);
        DB := 2%nat |}).
Proof.
  exact (failure_halts_the_run Fixture.second_rejects None (Fixture.world ∅)
           [Fixture.init] Fixture.users_rejecting [Fixture.posts]
           [DocGet "sha256:1.0.0"; Invoke (Fixture.v 1) "init";
            PrintMigration "1.0.0" Success;
            DocSet "sha256:1.0.0" (Fixture.successful "1.0.0" 1)]
           {| defaults := initial_defaults;
              MigrationCollection := <["sha256:1.0.0" := Fixture.successful "1.0.0" 1]> ∅;
              DB := 1%nat |}
           2%nat eq_refl eq_refl eq_refl eq_refl eq_refl).
Defined.

(** The engine of [src/src/index.ts] on the same run: the record of the
    second migration is [failed], the third one is not looked at, and the
    promise of [migrate] is fulfilled. *)
Lemma index_failure_ends_normally :
  fn Fixture.users_rejecting 1%nat = (Rejected, 2%nat) ∧
  Index.migrate Fixture.second_rejects None (Fixture.world ∅) =
    (inr tt,
     [DocGet "sha256:1.0.0"; Invoke (Fixture.v 1) "init";
      PrintMigration "1.0.0" Success;
      DocSet "sha256:1.0.0" (Fixture.successful "1.0.0" 1);
      DocGet "sha256:2.0.0"; Invoke (Fixture.v 2) "users"; ConsoleError;
      PrintMigration "2.0.0" ErrorWhileRunning;
      DocSet "sha256:2.0.0" (Fixture.failed "2.0.0" 2);
      ConsoleLog],
     {| defaults := initial_defaults;
        MigrationCollection :=
          <["sha256:2.0.0" := Fixture.failed "2.0.0" 2]>
            (<["sha256:1.0.0" := Fixture.successful "1.0.0" 1]> ∅);
        DB := 2%nat |}).
Proof. split; vm_compute; reflexivity. Qed.

Lemma forced_rerun_overwrites_witness :
  runMigrations Fixture.all_resolve ([] ++ Fixture.init :: [])
    (Object_assign initial_defaults Fixture.force)
    (Fixture.world {["sha256:1.0.0" := Fixture.successful "1.0.0" 0]}) =
    (inr tt,
     [DocGet "sha256:1.0.0"; Invoke (Fixture.v 1) "init";
      PrintMigration "1.0.0" Success;
      DocSet "sha256:1.0.0" (Fixture.successful "1.0.0" 1)],
     {| defaults := initial_defaults;
        MigrationCollection := {["sha256:1.0.0" := Fixture.successful "1.0.0" 1]};
        DB := 1%nat |}).
Proof.
  destruct (forced_rerun_overwrites Fixture.all_resolve
              (Object_assign initial_defaults Fixture.force)
              [] Fixture.init []
              (Fixture.world {["sha256:1.0.0" := Fixture.successful "1.0.0" 0]})
              []
              (Fixture.world {["sha256:1.0.0" := Fixture.successful "1.0.0" 0]})
              (Fixture.successful "1.0.0" 0) Resolved 1%nat) as [-> _];
    vm_compute; reflexivity.
Defined.

(** ** A recorded migration, selected with [--only] *)

Lemma successful_migration_is_skipped_witness :
  (∀ v, sha256_hex Fixture.all_resolve (semver.version v) = "sha256:1.0.0" →
        v ∉ invocations
              (migrate Fixture.all_resolve (Fixture.only ["1"; "2"] false)
                 (Fixture.world {["sha256:1.0.0" := Fixture.successful "1.0.0" 0]})).1.2) ∧
  ("sha256:1.0.0" ∉
     writes
       (migrate Fixture.all_resolve (Fixture.only ["1"; "2"] false)
          (Fixture.world {["sha256:1.0.0" := Fixture.successful "1.0.0" 0]})).1.2) ∧
  MigrationCollection
    (migrate Fixture.all_resolve (Fixture.only ["1"; "2"] false)
       (Fixture.world {["sha256:1.0.0" := Fixture.successful "1.0.0" 0]})).2
    !! "sha256:1.0.0" = Some (Fixture.successful "1.0.0" 0).
Proof.
  apply successful_migration_is_skipped; vm_compute; reflexivity.
Defined.

(** ** A dry run over one recorded and two pending migrations *)

Lemma dry_run_stops_at_first_pending_witness :
  migrate Fixture.all_resolve Fixture.dry
    (Fixture.world {["sha256:1.0.0" := Fixture.successful "1.0.0" 0]}) =
    (Fulfilled,
     [ConsoleLog;
      DocGet "sha256:1.0.0"; PrintMigration "1.0.0" AlreadyRun;
      DocGet "sha256:2.0.0"; PrintMigration "2.0.0" SkipDueToDryRun],
     with_defaults
       (Fixture.world {["sha256:1.0.0" := Fixture.successful "1.0.0" 0]})
       (Object_assign initial_defaults Fixture.dry)).
Proof.
  destruct (dry_run_stops_at_first_pending Fixture.all_resolve Fixture.dry
              (Fixture.world {["sha256:1.0.0" := Fixture.successful "1.0.0" 0]})
              eq_refl) as (_ & W & _).
  rewrite (W [Fixture.init] Fixture.users [Fixture.posts]).
  - reflexivity.
  - vm_compute. reflexivity.
  - repeat constructor.
  - vm_compute. reflexivity.
Defined.

(** ** The order of the enumeration *)

Lemma gather_strictly_ascending_witness :
  StronglySorted semver.lt (version <$> [Fixture.init; Fixture.users; Fixture.posts]) ∧
  gather Fixture.all_resolve_reordered initial_defaults =
    inr [Fixture.init; Fixture.users; Fixture.posts] ∧
  Index.gather Fixture.all_resolve initial_defaults =
    inr [Fixture.init; Fixture.users; Fixture.posts].
Proof.
  apply (gather_strictly_ascending Fixture.all_resolve Fixture.all_resolve_reordered).
  - reflexivity.
  - reflexivity.
  - exact (Permutation_app_comm
             ["migrations/1__init.js"; "migrations/2__users.js"]
             ["migrations/3__posts.js"]).
  - vm_compute. reflexivity.
Defined.

(** ** Two files for the version 1.0.0 *)



Example one_twice_is_duplicate :
  gather Fixture.one_twice initial_defaults = inl (DuplicateVersion "1.0.0").
Proof. vm_compute. reflexivity. Qed.

(** A file without a version that is enumerated before the second of the
    two: its error is the one that [Promise.all] sees first. *)
Example invalid_before_duplicate :
  gather
    (Fixture.host
       ["migrations/1__init.js"; "migrations/x__notes.js"; "migrations/1.0.0__again.js"] [])
    initial_defaults = inl (InvalidVersion (Some "x")).
Proof. vm_compute. reflexivity. Qed.

(** A file without a procedure, enumerated first: the duplicate is thrown
    before any import has settled. *)
Example duplicate_before_missing_procedure :
  gather
    {| sha256_hex := λ s, s;
       Timestamp_now := Z.of_nat;
       glob_sync := λ _, ["migrations/3__posts.js"; "migrations/1__init.js";
                          "migrations/1.0__again.js"];
       import_ := λ _, Module_ None;
       cwd := "/app" |}
    initial_defaults = inl (DuplicateVersion "1.0.0").
Proof. vm_compute. reflexivity. Qed.

(** ** A directory whose name holds the delimiter *)

(** C9. With the directory [./my__migrations] and the delimiter [__], the
    path of every file holds the delimiter: the file [helper.js] passes the
    filter, [gather] fails on its name, and [migrate] ends the process. In
    the directory [./migrations] the same file is passed over. *)
Theorem delimiter_in_directory_breaks_discovery :
  files_of Fixture.delimiter_in_directory (Fixture.in_directory "./my__migrations") =
    ["/app/my__migrations/1__init.js"; "/app/my__migrations/helper.js"] ∧
  gather Fixture.delimiter_in_directory (Fixture.in_directory "./my__migrations") =
    inl (InvalidVersion (Some "helper.js")) ∧
  (migrate Fixture.delimiter_in_directory
     (Some (mkPartial (Some "./my__migrations") None None None None))
     (Fixture.world ∅)).1 = (Exit 1, [ConsoleError]) ∧
  files_of Fixture.delimiter_in_directory (Fixture.in_directory "./migrations") =
    ["/app/migrations/1__init.js"] ∧
  gather Fixture.delimiter_in_directory (Fixture.in_directory "./migrations") =
    inr [Fixture.init].
Proof. split_and!; vm_compute; reflexivity. Qed.

(** ** A selection that names one version twice *)

(** With [--only 1 1.0.0] and [--force], the procedure of the migration
    1.0.0 is invoked twice in one run. *)
Lemma selected_twice_invoked_twice :
  invocations
    (migrate Fixture.one_file (Fixture.only ["1"; "1.0.0"] true) (Fixture.world ∅)).1.2 =
    [Fixture.v 1; Fixture.v 1] ∧
  ¬ NoDup (invocations
             (migrate Fixture.one_file (Fixture.only ["1"; "1.0.0"] true)
                (Fixture.world ∅)).1.2).
Proof.
  assert (invocations
    (migrate Fixture.one_file (Fixture.only ["1"; "1.0.0"] true) (Fixture.world ∅)).1.2 =
    [Fixture.v 1; Fixture.v 1]) as E by (vm_compute; reflexivity).
  split; [done|]. rewrite E. intros [Hnotin _]%NoDup_cons. apply Hnotin. by left.
Qed.

Lemma invoked_at_most_once_witness :
  NoDup (invocations
           (migrate Fixture.one_file (Fixture.only ["1"; "1.0.0"] false)
              (Fixture.world ∅)).1.2).
Proof.
  destruct (invoked_at_most_once Fixture.one_file (Fixture.only ["1"; "1.0.0"] false)
              (Fixture.world ∅)) as (_ & _ & H).
  apply H. left. reflexivity.
Defined.

(** ** The selection [--only 2.0.0 1.0.0] *)

Lemma selection_runs_in_version_order_witness :
  (selection [Fixture.init; Fixture.users; Fixture.posts] ["2.0.0"; "1.0.0"] =
     inr (sortMigrationFiles [Fixture.users; Fixture.init]) ∧
   sortMigrationFiles [Fixture.users; Fixture.init] ≡ₚ [Fixture.users; Fixture.init] ∧
   StronglySorted semver.le
     (version <$> sortMigrationFiles [Fixture.users; Fixture.init]) ∧
   (∀ single', ["2.0.0"; "1.0.0"] ≡ₚ single' →
      selection [Fixture.init; Fixture.users; Fixture.posts] single' =
        inr (sortMigrationFiles [Fixture.users; Fixture.init])) ∧
   migrate Fixture.all_resolve (Fixture.only ["2.0.0"; "1.0.0"] false) (Fixture.world ∅) =
     finish (after [ConsoleLog; ConsoleLog]
       (runMigrations Fixture.all_resolve
          (sortMigrationFiles [Fixture.users; Fixture.init])
          (Object_assign (defaults (Fixture.world ∅))
             (Fixture.only ["2.0.0"; "1.0.0"] false))
          (with_defaults (Fixture.world ∅)
             (Object_assign (defaults (Fixture.world ∅))
                (Fixture.only ["2.0.0"; "1.0.0"] false))))) ∧
   invocations
     (migrate Fixture.all_resolve (Fixture.only ["2.0.0"; "1.0.0"] false)
        (Fixture.world ∅)).1.2
     `sublist_of` version <$> sortMigrationFiles [Fixture.users; Fixture.init] ∧
   StronglySorted semver.le
     (invocations
        (migrate Fixture.all_resolve (Fixture.only ["2.0.0"; "1.0.0"] false)
           (Fixture.world ∅)).1.2)) ∧
  (migrate_try Fixture.all_resolve (Fixture.only ["1"; "9.9.9"; "2"] false)
     (Fixture.world ∅) =
     (inl (UnknownVersion (semver.version (semver.mkSemVer 9 9 9))), [ConsoleLog],
      with_defaults (Fixture.world ∅)
        (Object_assign (defaults (Fixture.world ∅))
           (Fixture.only ["1"; "9.9.9"; "2"] false))) ∧
   migrate Fixture.all_resolve (Fixture.only ["1"; "9.9.9"; "2"] false) (Fixture.world ∅) =
     (Exit 1, [ConsoleLog; ConsoleError],
      with_defaults (Fixture.world ∅)
        (Object_assign (defaults (Fixture.world ∅))
           (Fixture.only ["1"; "9.9.9"; "2"] false)))).
Proof.
  split.
  - assert (H := selection_runs_in_version_order Fixture.all_resolve
                   (Fixture.only ["2.0.0"; "1.0.0"] false) (Fixture.world ∅)
                   ["2.0.0"; "1.0.0"] [Fixture.init; Fixture.users; Fixture.posts]
                   eq_refl).
    destruct H as [H _]; [vm_compute; reflexivity|].
    apply (H [Fixture.users; Fixture.init]).
    constructor; [|constructor; [|constructor]].
    + split; [apply list_elem_of_further, list_elem_of_here|reflexivity].
    + split; [apply list_elem_of_here|reflexivity].
  - assert (H := selection_runs_in_version_order Fixture.all_resolve
                   (Fixture.only ["1"; "9.9.9"; "2"] false) (Fixture.world ∅)
                   ["1"; "9.9.9"; "2"] [Fixture.init; Fixture.users; Fixture.posts]
                   eq_refl).
    destruct H as [_ H]; [vm_compute; reflexivity|].
    apply (H ["1"] "9.9.9" ["2"] (semver.mkSemVer 9 9 9)).
    + reflexivity.
    + constructor; [|constructor]. exists Fixture.init.
      split; [apply list_elem_of_here|reflexivity].
    + reflexivity.
    + intros Hin. vm_compute in Hin.
      repeat (apply elem_of_cons in Hin as [Hin|Hin]; [discriminate Hin|]).
      by apply elem_of_nil in Hin.
    + constructor; [|constructor]. eexists. reflexivity.
Defined.

(** A token whose version no migration has, beside a token that cannot be
    coerced: the error names the second one. *)
Lemma unknown_version_beside_invalid_token :
  gather Fixture.all_resolve
    (Object_assign initial_defaults (Fixture.only ["9.9.9"; "next"] false)) =
    inr [Fixture.init; Fixture.users; Fixture.posts] ∧
  semver.coerce "9.9.9" = Some (semver.mkSemVer 9 9 9) ∧
  (semver.mkSemVer 9 9 9 ∉ version <$> [Fixture.init; Fixture.users; Fixture.posts]) ∧
  migrate_try Fixture.all_resolve (Fixture.only ["9.9.9"; "next"] false)
    (Fixture.world ∅) =
    (inl (InvalidVersionSpecified "next"), [ConsoleLog],
     with_defaults (Fixture.world ∅)
       (Object_assign initial_defaults (Fixture.only ["9.9.9"; "next"] false))).
Proof.
  split_and!; [vm_compute; reflexivity..| |vm_compute; reflexivity].
  intros Hin. vm_compute in Hin.
  repeat (apply elem_of_cons in Hin as [Hin|Hin]; [discriminate Hin|]).
  by apply elem_of_nil in Hin.
Qed.

Example only_2_then_1 :
  (migrate Fixture.all_resolve (Fixture.only ["2.0.0"; "1.0.0"] false) (Fixture.world ∅)).1 =
    (Fulfilled,
     [ConsoleLog; ConsoleLog;
      DocGet "sha256:1.0.0"; Invoke (Fixture.v 1) "init";
      PrintMigration "1.0.0" Success;
      DocSet "sha256:1.0.0" (Fixture.successful "1.0.0" 1);
      DocGet "sha256:2.0.0"; Invoke (Fixture.v 2) "users";
      PrintMigration "2.0.0" Success;
      DocSet "sha256:2.0.0" (Fixture.successful "2.0.0" 2)]).
Proof. vm_compute. reflexivity. Qed.

Example only_unknown :
  migrate_try Fixture.all_resolve (Fixture.only ["9.9.9"] false) (Fixture.world ∅) =
    (inl (UnknownVersion "9.9.9"), [ConsoleLog],
     with_defaults (Fixture.world ∅)
       (Object_assign initial_defaults (Fixture.only ["9.9.9"] false))) ∧
  migrate Fixture.all_resolve (Fixture.only ["9.9.9"] false) (Fixture.world ∅) =
    (Exit 1, [ConsoleLog; ConsoleError],
     with_defaults (Fixture.world ∅)
       (Object_assign initial_defaults (Fixture.only ["9.9.9"] false))).
Proof. split; vm_compute; reflexivity. Qed.

(** ** A call after a dry run *)

Example call_after_dry_run :
  (migrate Fixture.all_resolve None
     (migrate Fixture.all_resolve Fixture.dry (Fixture.world ∅)).2).1 =
    (Fulfilled,
     [ConsoleLog; DocGet "sha256:1.0.0"; PrintMigration "1.0.0" SkipDueToDryRun]).
Proof. vm_compute. reflexivity. Qed.

Lemma later_call_sees_earlier_options_witness :
  invocations
    (migrate Fixture.all_resolve None
       (migrate Fixture.all_resolve Fixture.dry (Fixture.world ∅)).2).1.2 = [] ∧
  writes
    (migrate Fixture.all_resolve None
       (migrate Fixture.all_resolve Fixture.dry (Fixture.world ∅)).2).1.2 = [].
Proof.
  apply (later_call_sees_earlier_options Fixture.all_resolve Fixture.dry None
           (Fixture.world ∅)); reflexivity.
Defined.

(** * More properties of the engine *)

(** ** What a run reads and writes *)

Section Traces.
Context {D : Type}.
Implicit Types (h : Host D) (w : World D) (m : MigrationFile D)
  (ms pre post : list (MigrationFile D)) (o : Options) (t : list Event).

Lemma results_app t t' : results (t ++ t') = results t ++ results t'.
Proof. apply bind_app. Qed.

Lemma reads_executed h m w : reads (executed_events h m w) = [getIdFromMigration h m].
Proof. unfold executed_events. by destruct (fn m (DB w)) as [[] d]. Qed.

Lemma results_executed h m w :
  results (executed_events h m w) =
    [result_of h m (fn m (DB w)).2 (fn m (DB w)).1].
Proof. unfold executed_events. by destruct (fn m (DB w)) as [[] d]. Qed.

Lemma reads_in_list h ms o w k :
  k ∈ reads (runMigrations h ms o w).1.2 → k ∈ getIdFromMigration h <$> ms.
Proof.
  revert w. induction ms as [|m ms IH]; intros w; [by intros ?%elem_of_nil|].
  destruct (runMigrations_turn h m ms o w) as [Hs|Hs Hd|d Hs _ Hf|d Hs _ Hf];
    cbn [after fst snd]; rewrite ?reads_app, ?reads_executed; cbn.
  - intros [->|?]%elem_of_cons; [by left|right; by eapply IH].
  - intros [->|?%elem_of_nil]%elem_of_cons; [by left|done].
  - intros [->|?]%elem_of_cons; [by left|right; by eapply IH].
  - intros [->|?%elem_of_nil]%elem_of_cons; [by left|done].
Qed.

Lemma writes_in_list h ms o w k :
  k ∈ writes (runMigrations h ms o w).1.2 → k ∈ getIdFromMigration h <$> ms.
Proof.
  revert w. induction ms as [|m ms IH]; intros w; [by intros ?%elem_of_nil|].
  destruct (runMigrations_turn h m ms o w) as [Hs|Hs Hd|d Hs _ Hf|d Hs _ Hf];
    cbn [after fst snd]; rewrite ?writes_app, ?writes_executed; cbn.
  - intros ?. right. by eapply IH.
  - by intros ?%elem_of_nil.
  - intros [->|?]%elem_of_cons; [by left|right; by eapply IH].
  - intros [->|?%elem_of_nil]%elem_of_cons; [by left|done].
Qed.

Lemma others_untouched h ms o w k :
  k ∉ getIdFromMigration h <$> ms →
  MigrationCollection (runMigrations h ms o w).2 !! k = MigrationCollection w !! k.
Proof.
  revert w. induction ms as [|m ms IH]; intros w Hk; [done|].
  assert (k ∉ getIdFromMigration h <$> ms) as Hk' by (intros ?; apply Hk; by right).
  assert (getIdFromMigration h m ≠ k) as Hne by (intros <-; apply Hk; by left).
  destruct (runMigrations_turn h m ms o w) as [Hs|Hs Hd|d Hs _ Hf|d Hs _ Hf];
    cbn [after fst snd].
  - by apply IH.
  - done.
  - rewrite IH by done. by rewrite collection_executed, lookup_insert_ne.
  - by rewrite collection_executed, lookup_insert_ne.
Qed.

(** X1. A run reads and writes only under the ids of the migrations of its
    list; every other document, and the module-level [defaults], are as
    before. *)
Theorem runMigrations_frame h ms o w :
  reads (runMigrations h ms o w).1.2 ⊆ getIdFromMigration h <$> ms ∧
  writes (runMigrations h ms o w).1.2 ⊆ getIdFromMigration h <$> ms ∧
  (∀ k, k ∉ getIdFromMigration h <$> ms →
        MigrationCollection (runMigrations h ms o w).2 !! k = MigrationCollection w !! k) ∧
  defaults (runMigrations h ms o w).2 = defaults w.
Proof.
  split_and!.
  - intros k. apply reads_in_list.
  - intros k. apply writes_in_list.
  - intros k. apply others_untouched.
  - apply runMigrations_defaults.
Qed.

(** X2. A result is written for every procedure that is invoked, and for no
    other reason: the ids written are the digests of the versions invoked,
    one for one and in the same order. The records are read in the order of
    the list, without a gap. *)
Theorem one_write_for_each_invocation h ms o w :
  writes (runMigrations h ms o w).1.2 =
    (λ v, sha256_hex h (semver.version v)) <$> invocations (runMigrations h ms o w).1.2 ∧
  reads (runMigrations h ms o w).1.2 `prefix_of` getIdFromMigration h <$> ms.
Proof.
  split.
  - revert w. induction ms as [|m ms IH]; intros w; [done|].
    destruct (runMigrations_turn h m ms o w) as [Hs|Hs Hd|d Hs _ Hf|d Hs _ Hf];
      cbn [after fst snd];
      rewrite ?writes_app, ?invocations_app, ?writes_executed, ?invocations_executed.
    + apply IH.
    + done.
    + cbn. f_equal. apply IH.
    + done.
  - revert w. induction ms as [|m ms IH]; intros w; [done|].
    destruct (runMigrations_turn h m ms o w) as [Hs|Hs Hd|d Hs _ Hf|d Hs _ Hf];
      cbn [after fst snd]; rewrite ?reads_app, ?reads_executed; cbn.
    + apply prefix_cons, IH.
    + apply prefix_cons, prefix_nil.
    + apply prefix_cons, IH.
    + apply prefix_cons, prefix_nil.
Qed.

(** X3. The outcome of a run tells the results that it wrote: a run that ends
    normally wrote only successful results; a run that throws throws
    [SkippingNextMigrations], and wrote one failed result, the last one. *)
Theorem outcome_tells_results h ms o w :
  match (runMigrations h ms o w).1.1 with
  | inr _ => Forall (λ r, status r = Successful) (results (runMigrations h ms o w).1.2)
  | inl e =>
      e = SkippingNextMigrations ∧
      ∃ rs r, results (runMigrations h ms o w).1.2 = rs ++ [r] ∧
              status r = Failed ∧ Forall (λ r, status r = Successful) rs
  end.
Proof.
  revert w. induction ms as [|m ms IH]; intros w; [by constructor|].
  destruct (runMigrations_turn h m ms o w) as [Hs|Hs Hd|d Hs _ Hf|d Hs _ Hf];
    cbn [after fst snd]; rewrite ?results_app, ?results_executed, ?Hf.
  - apply IH.
  - constructor.
  - specialize (IH (executed_world h m w)). cbn [fst snd].
    destruct (runMigrations h ms o (executed_world h m w)) as [[[e|[]] t] w'];
      cbn [fst snd] in *.
    + destruct IH as (-> & rs & r & -> & Hr & Hrs). split; [done|].
      exists (result_of h m d Resolved :: rs), r. split_and!; [done..|].
      by constructor.
    + by constructor.
  - cbn [fst snd]. split; [done|]. by exists [], (result_of h m d Rejected).
Qed.

(** X4. Every result is written under the digest of the version that it holds,
    which is the version of a migration of the list; a collection that is
    keyed this way stays so. *)
Theorem results_are_well_keyed h ms o w :
  (∀ k r, DocSet k r ∈ (runMigrations h ms o w).1.2 →
          k = sha256_hex h (result_version r) ∧
          result_version r ∈ version_string <$> ms) ∧
  (well_keyed h (MigrationCollection w) →
   well_keyed h (MigrationCollection (runMigrations h ms o w).2)).
Proof.
  assert (∀ m w0 k r, DocSet k r ∈ executed_events h m w0 →
            k = sha256_hex h (result_version r) ∧ result_version r = version_string m)
    as Hex.
  { intros m w0 k r. unfold executed_events.
    destruct (fn m (DB w0)) as [[] d]; cbn;
      rewrite !elem_of_cons, elem_of_nil; intros H; decompose [or] H;
      try done; by simplify_eq. }
  split.
  - revert w. induction ms as [|m ms IH]; intros w k r; [by intros ?%elem_of_nil|].
    destruct (runMigrations_turn h m ms o w) as [Hs|Hs Hd|d Hs _ Hf|d Hs _ Hf];
      cbn [after fst snd].
    + intros [H|H]%elem_of_app.
      * unfold skipped_events in H. rewrite !elem_of_cons, elem_of_nil in H.
        decompose [or] H; done.
      * destruct (IH _ _ _ H) as [? ?]. split; [done|]. by right.
    + rewrite !elem_of_cons, elem_of_nil. intros H. decompose [or] H; done.
    + intros [H|H]%elem_of_app.
      * destruct (Hex _ _ _ _ H) as [? Hr]. split; [done|]. rewrite Hr. by left.
      * destruct (IH _ _ _ H) as [? ?]. split; [done|]. by right.
    + intros H. destruct (Hex _ _ _ _ H) as [? Hr]. split; [done|]. rewrite Hr. by left.
  - revert w. induction ms as [|m ms IH]; intros w Hw; [done|].
    destruct (runMigrations_turn h m ms o w) as [Hs|Hs Hd|d Hs _ Hf|d Hs _ Hf];
      cbn [after fst snd].
    + by apply IH.
    + done.
    + apply IH. rewrite collection_executed.
      intros k r [[<- <-]|[_ ?]]%lookup_insert_Some; [done|by apply Hw].
    + rewrite collection_executed.
      intros k r [[<- <-]|[_ ?]]%lookup_insert_Some; [done|by apply Hw].
Qed.

(** ** A run after a run *)

Lemma successful_preserved h ms o w k :
  (runMigrations h ms o w).1.1 = inr tt →
  is_successful (MigrationCollection w !! k) = true →
  is_successful (MigrationCollection (runMigrations h ms o w).2 !! k) = true.
Proof.
  revert w. induction ms as [|m ms IH]; intros w; [done|].
  destruct (runMigrations_turn h m ms o w) as [Hs|Hs Hd|d Hs _ Hf|d Hs _ Hf];
    cbn [after fst snd]; [apply IH|done| |done].
  intros Hr Hk. apply IH; [done|]. rewrite collection_executed, Hf.
  destruct (decide (getIdFromMigration h m = k)) as [<-|Hne].
  - by rewrite lookup_insert_eq.
  - by rewrite lookup_insert_ne.
Qed.

Lemma completed_all_recorded h ms o w :
  dryRun o = false →
  (runMigrations h ms o w).1.1 = inr tt →
  Forall (λ m, is_successful
                 (MigrationCollection (runMigrations h ms o w).2
                    !! getIdFromMigration h m) = true) ms.
Proof.
  intros Hd. revert w. induction ms as [|m ms IH]; intros w; [constructor|].
  destruct (runMigrations_turn h m ms o w) as [Hs|Hs Hd'|d Hs _ Hf|d Hs _ Hf];
    cbn [after fst snd]; [| congruence | | done].
  - intros Hr. constructor; [|by apply IH].
    apply successful_preserved; [done|].
    unfold skipped in Hs. by apply andb_prop in Hs as [_ ?].
  - intros Hr. constructor; [|by apply IH].
    apply successful_preserved; [done|].
    by rewrite (collection_executed_lookup _ _ _ d).
Qed.

Lemma runMigrations_all_skipped h ms o w :
  Forall (λ m, skipped h o w m = true) ms →
  runMigrations h ms o w = (inr tt, ms ≫= skipped_events h, w).
Proof.
  intros H. rewrite <- (app_nil_r ms) at 1.
  rewrite runMigrations_skip_prefix by done.
  rewrite runMigrations_nil. unfold after. cbn. by rewrite app_nil_r.
Qed.

Lemma completed_then_skipped h ms o o' w t w' :
  dryRun o = false →
  runMigrations h ms o w = (inr tt, t, w') →
  ignoreRemote o' = false →
  runMigrations h ms o' w' = (inr tt, ms ≫= skipped_events h, w').
Proof.
  intros Hd Hrun Hi. apply runMigrations_all_skipped.
  pose proof (completed_all_recorded h ms o w Hd) as H. rewrite Hrun in H.
  eapply Forall_impl; [by apply H|]. intros m Hm. cbn in Hm.
  unfold skipped. by rewrite Hi, Hm.
Qed.

(** X5. After a run that is not a dry run and that ends normally, whether it
    ignored the remote state or not, a run of the same list that does not
    ignore it reads every record, passes over every migration, invokes no
    procedure and leaves the world as it is. *)
Theorem completed_run_is_not_repeated h ms o o' w t w' :
  dryRun o = false →
  runMigrations h ms o w = (inr tt, t, w') →
  ignoreRemote o' = false →
  runMigrations h ms o' w' = (inr tt, ms ≫= skipped_events h, w') ∧
  invocations (ms ≫= skipped_events h) = [] ∧
  writes (ms ≫= skipped_events h) = [] ∧
  reads (ms ≫= skipped_events h) = getIdFromMigration h <$> ms.
Proof.
  intros Hd Hrun Hi. split; [by eapply completed_then_skipped|].
  clear. induction ms as [|m ms (IH1 & IH2 & IH3)]; [done|].
  rewrite bind_cons, invocations_app, writes_app, reads_app, IH1, IH2, IH3. done.
Qed.

Lemma Object_assign_idemp d options :
  Object_assign (Object_assign d options) options = Object_assign d options.
Proof. destruct options as [[[] [] [] [] []]|]; reflexivity. Qed.

Lemma with_defaults_same w : with_defaults w (defaults w) = w.
Proof. by destruct w. Qed.

(** X6. The same call of [migrate], once more: when the first call was not a
    dry run, did not ignore the remote state and was fulfilled, the second
    call has the same merged options and the same list, and only passes over
    the migrations of the list. *)
Theorem migrate_twice h options w t w' :
  dryRun (Object_assign (defaults w) options) = false →
  ignoreRemote (Object_assign (defaults w) options) = false →
  migrate h options w = (Fulfilled, t, w') →
  ∃ ms,
    plan h options (Object_assign (defaults w) options) = inr ms ∧
    migrate h options w' =
      (Fulfilled, announce options ++ (ms ≫= skipped_events h), w').
Proof.
  intros Hd Hi Hm.
  assert (defaults w' = Object_assign (defaults w) options) as Hdef.
  { pose proof (migrate_defaults h options w) as H. by rewrite Hm in H. }
  destruct (migrate_migrated h options w) as [e t0 Hp _ _ _|ms Hp];
    [by destruct (has_message e)|].
  exists ms. split; [done|].
  destruct (runMigrations h ms _ (with_defaults w _)) as [[[e|[]] t1] w1] eqn:Hrun.
  { unfold finish, after, catch in Hm. cbn in Hm. by destruct (has_message e). }
  unfold finish, after in Hm. cbn in Hm. injection Hm as <- <-.
  rewrite (migrate_ran _ _ _ ms); rewrite Hdef, Object_assign_idemp; [|done].
  rewrite <- Hdef, with_defaults_same.
  rewrite (completed_then_skipped _ _ _ _ _ _ _ Hd Hrun) by (by rewrite Hdef).
  reflexivity.
Qed.

(** X7. A run that ignores the remote state, is not a dry run and ends normally
    has read the record of, invoked the procedure of, and written a result
    for every migration of the list, in the order of the list. *)
Theorem forced_run_runs_all h ms o w :
  ignoreRemote o = true →
  dryRun o = false →
  (runMigrations h ms o w).1.1 = inr tt →
  invocations (runMigrations h ms o w).1.2 = version <$> ms ∧
  reads (runMigrations h ms o w).1.2 = getIdFromMigration h <$> ms ∧
  writes (runMigrations h ms o w).1.2 = getIdFromMigration h <$> ms.
Proof.
  intros Hi Hd. revert w. induction ms as [|m ms IH]; intros w; [done|].
  destruct (runMigrations_turn h m ms o w) as [Hs|Hs Hd'|d Hs _ Hf|d Hs _ Hf];
    cbn [after fst snd].
  - unfold skipped in Hs. by rewrite Hi in Hs.
  - congruence.
  - intros (IH1 & IH2 & IH3)%IH.
    rewrite invocations_app, reads_app, writes_app, invocations_executed,
      reads_executed, writes_executed, IH1, IH2, IH3. done.
  - done.
Qed.

(** X8. After a run that halted at the migration [m], a run of the same list
    that does not ignore the remote state passes over the migrations before
    [m], whose results are recorded, and invokes [m] first: a failed result
    does not keep a migration from running again. *)
Theorem failed_run_resumes h pre m post o o' w t1 w1 d :
  dryRun o = false →
  runMigrations h pre o w = (inr tt, t1, w1) →
  skipped h o w1 m = false →
  fn m (DB w1) = (Rejected, d) →
  Forall (λ x, getIdFromMigration h x ≠ getIdFromMigration h m) pre →
  ignoreRemote o' = false →
  dryRun o' = false →
  (runMigrations h (pre ++ m :: post) o w).1.1 = inl SkippingNextMigrations ∧
  ∃ rest,
    (runMigrations h (pre ++ m :: post) o'
       (runMigrations h (pre ++ m :: post) o w).2).1.2 =
      (pre ≫= skipped_events h) ++
      [DocGet (getIdFromMigration h m); Invoke (version m) (name m)] ++ rest.
Proof.
  intros Hd Hpre Hs Hf Hids Hi' Hd'.
  rewrite (runMigrations_app _ _ _ _ _ _ _ Hd Hpre).
  rewrite (runMigrations_rejected _ _ _ _ _ d) by done.
  cbn [after fst snd]. split; [done|].
  set (w2 := executed_world h m w1).
  assert (Forall (λ x, skipped h o' w2 x = true) pre) as Hskip.
  { pose proof (completed_all_recorded h pre o w Hd) as H. rewrite Hpre in H.
    specialize (H eq_refl). cbn [snd] in H.
    rewrite Forall_forall in H, Hids |- *. intros x Hx.
    unfold skipped, w2. rewrite Hi', collection_executed, lookup_insert_ne by (symmetry; auto).
    by rewrite H. }
  assert (skipped h o' w2 m = false) as Hm.
  { unfold skipped, w2. by rewrite Hi', collection_executed, Hf, lookup_insert_eq. }
  rewrite runMigrations_skip_prefix by done.
  destruct (runMigrations_turn h m post o' w2) as [?|? ?|d' _ _ Hf'|d' _ _ Hf'];
    try congruence; cbn [after fst snd].
  - rewrite (executed_events_resolved _ _ _ d') by done. eexists. reflexivity.
  - rewrite (executed_events_rejected _ _ _ d') by done. eexists. reflexivity.
Qed.

(** ** The two engines *)

Lemma Index_runMigrations_inr h ms o w : (Index.runMigrations h ms o w).1.1 = inr tt.
Proof.
  revert w. induction ms as [|m ms IH]; intros w; [done|].
  destruct (skipped h o w m) eqn:Hs.
  { rewrite Index_runMigrations_skipped by done. apply IH. }
  destruct (fn m (DB w)) as [[] d] eqn:Hf.
  - rewrite (Index_runMigrations_resolved _ _ _ _ _ d) by done. apply IH.
  - by rewrite (Index_runMigrations_rejected _ _ _ _ _ d).
Qed.


(** X10. The [migrate] of [src/src/index.ts] rejects exactly when [gather]
    fails, with the error of [gather] and before any read; a procedure that
    rejects does not reject it. *)
Theorem Index_migrate_rejects_with_gather h options w :
  match Index.gather h (Object_assign (defaults w) options) with
  | inl e =>
      Index.migrate h options w =
        (inl e, [], with_defaults w (Object_assign (defaults w) options))
  | inr ms =>
      Index.migrate h options w =
        Index.runMigrations h ms (Object_assign (defaults w) options)
          (with_defaults w (Object_assign (defaults w) options)) ∧
      (Index.migrate h options w).1.1 = inr tt
  end.
Proof.
  unfold Index.migrate, assign_defaults, mbind, M_bind, bind.
  destruct (Index.gather h _) as [e|ms]; cbn; [done|].
  pose proof (Index_runMigrations_inr h ms
                (Object_assign (defaults w) options)
                (with_defaults w (Object_assign (defaults w) options))) as H.
  destruct (Index.runMigrations h ms _ _) as [[r t] w']. cbn in H. by subst.
Qed.

End Traces.

(** ** The pieces of a file name *)

Lemma append_cons c (s t : string) : String c s +:+ t = String c (s +:+ t).
Proof. reflexivity. Qed.

Lemma append_empty_r (s : string) : s +:+ "" = s.
Proof. induction s as [|c s IH]; [done|]. by rewrite append_cons, IH. Qed.

Lemma append_assoc (a b c : string) : (a +:+ b) +:+ c = a +:+ (b +:+ c).
Proof. induction a as [|x a IH]; [done|]. by rewrite !append_cons, IH. Qed.

Lemma split_from_not_nil sep s skip cur : Js.split_from sep s skip cur ≠ [].
Proof.
  revert skip cur. induction s as [|c s IH]; intros skip cur; [done|].
  cbn [Js.split_from]. destruct skip; [|apply IH].
  destruct (String.prefix sep (String c s)); [done|apply IH].
Qed.

Lemma split_from_no_delimiter sep s cur :
  Js.includes s sep = false → Js.split_from sep s 0 cur = [cur +:+ s].
Proof.
  revert cur. induction s as [|c s IH]; intros cur; cbn [Js.includes Js.split_from].
  - intros _. by rewrite append_empty_r.
  - intros [-> Hs]%orb_false_elim. rewrite IH by done.
    by rewrite append_assoc.
Qed.

Lemma split_from_delimiter sep s cur :
  Js.includes s sep = true → String.prefix sep "" = false →
  ∃ first second rest, Js.split_from sep s 0 cur = first :: second :: rest.
Proof.
  intros Hs Hsep. revert cur Hs.
  induction s as [|c s IH]; intros cur; cbn [Js.includes Js.split_from].
  - rewrite Hsep. done.
  - destruct (String.prefix sep (String c s)) eqn:Hp.
    + intros _.
      destruct (Js.split_from sep s (String.length sep - 1) "") as [|second rest] eqn:E.
      * by destruct (split_from_not_nil _ _ _ _ E).
      * by exists cur, second, rest.
    + cbn. apply IH.
Qed.

Lemma prefix_empty_false sep : sep ≠ "" → String.prefix sep "" = false.
Proof. by destruct sep. Qed.

(** X11. [s.split(sep)] for a separator that is not empty: a string without the
    separator is the one piece; a string with it has a second piece. *)
Theorem split_second_piece s sep :
  sep ≠ "" →
  (Js.includes s sep = false → Js.split s sep = [s]) ∧
  (Js.includes s sep = true → is_Some (Js.split s sep !! 1%nat)).
Proof.
  intros Hsep. destruct sep as [|c0 sep]; [done|]. unfold Js.split. split.
  - intros H. rewrite split_from_no_delimiter by done. reflexivity.
  - intros H. destruct (split_from_delimiter (String c0 sep) s "" H)
      as (first & second & rest & ->); [done|]. by eexists.
Qed.


Lemma split_without_delimiter s sep :
  sep ≠ "" → Js.includes s sep = false → Js.split s sep = [s].
Proof.
  intros Hsep H. destruct sep as [|c0 sep]; [done|]. unfold Js.split.
  by rewrite split_from_no_delimiter.
Qed.

Lemma prefix_split (p s : string) : String.prefix p s = true → ∃ r, s = p +:+ r.
Proof.
  revert s. induction p as [|a p IH]; intros s; [by exists s|].
  destruct s as [|b s]; cbn [String.prefix]; [done|].
  destruct (ascii_dec a b) as [->|]; [|done].
  intros [r ->]%IH. by exists r.
Qed.

Lemma split_from_concat sep s :
  sep ≠ "" →
  (∀ cur, String.concat sep (Js.split_from sep s 0 cur) = cur +:+ s) ∧
  (∀ s1 s2 cur, s = s1 +:+ s2 →
     String.concat sep (Js.split_from sep s (String.length s1) cur) = cur +:+ s2).
Proof.
  intros Hsep. induction s as [|c s [IH1 IH2]].
  { split; [intros cur; cbn; by rewrite append_empty_r|].
    intros [|? ?] s2 cur E; [|by rewrite append_cons in E].
    change ("" +:+ s2) with s2 in E. subst s2. cbn. by rewrite append_empty_r. }
  assert (∀ cur, String.concat sep (Js.split_from sep (String c s) 0 cur)
                 = cur +:+ String c s) as H1.
  { intros cur. cbn [Js.split_from].
    destruct (String.prefix sep (String c s)) eqn:Hp.
    - destruct sep as [|c0 sep']; [done|].
      cbn [String.prefix] in Hp. destruct (ascii_dec c0 c) as [->|]; [|done].
      apply prefix_split in Hp as [r ->].
      replace (String.length (String c sep') - 1)%nat with (String.length sep')
        by (cbn [String.length]; lia).
      pose proof (IH2 sep' r "" eq_refl) as E. cbn in E.
      destruct (Js.split_from (String c sep') (sep' +:+ r) (String.length sep') "")
        as [|piece pieces] eqn:Hl; [by destruct (split_from_not_nil _ _ _ _ Hl)|].
      change (String.concat (String c sep') (cur :: piece :: pieces))
        with (cur +:+ String c sep' +:+ String.concat (String c sep') (piece :: pieces)).
      rewrite E.
      by rewrite append_cons.
    - rewrite IH1, append_assoc. done. }
  split; [exact H1|].
  intros [|c1 s1] s2 cur.
  - intros E. change ("" +:+ s2) with s2 in E. subst s2. apply H1.
  - rewrite append_cons. intros [= <- ->]. cbn [String.length Js.split_from].
    by apply IH2.
Qed.

(** X12. [s.split(sep)] for a separator that is not empty: the pieces, joined by
    the separator, are the string. *)
Theorem split_join s sep :
  sep ≠ "" → String.concat sep (Js.split s sep) = s.
Proof.
  intros Hsep. destruct (split_from_concat sep s Hsep) as [H _].
  destruct sep; [done|]. apply H.
Qed.

(** ** What [gather] asks of a file *)

Section Files.
Context {D : Type}.
Implicit Types (h : Host D) (o : Options) (f : string) (files : list string)
  (c m : MigrationFile D) (cs ms : list (MigrationFile D)) (e : Error).

(** The descriptor of a file, by the pieces of the name of the file. *)
Lemma entry_Some h o f c :
  entry h o f = Some c ↔
  ∃ raw piece rest,
    Js.split (Js.basename f) (delimiter o) = raw :: piece :: rest ∧
    semver.coerce raw = Some (version c) ∧
    name c = Js.strip_extension piece ∧
    import_ h f = Module_ (Some (fn c)).
Proof.
  unfold entry, coerced, rawVersion, described. split.
  - destruct (Js.split _ _) as [|raw [|piece rest]]; cbn; [done| |].
    + destruct (semver.coerce raw); cbn; [|done].
      by destruct (import_ h f) as [|[]].
    + destruct (semver.coerce raw) as [v|] eqn:Hv; cbn; [|done].
      destruct (import_ h f) as [|[fn0|]]; try done.
      intros [= <-]. by exists raw, piece, rest.
  - intros (raw & piece & rest & -> & Hv & Hn & ->). cbn. rewrite Hv. cbn.
    destruct c. cbn in *. by subst.
Qed.

Lemma gather_entries h o ms :
  gather h o = inr ms →
  ∃ cs, Forall2 (λ f c, entry h o f = Some c) (files_of h o) cs ∧ ms ≡ₚ cs.
Proof.
  intros (cs & Hcs & _ & ->)%gather_inr. exists cs. split; [done|].
  apply sortMigrationFiles_Permutation.
Qed.

(** X13. When [gather] returns a list, the name of every file that it read
    holds the delimiter, for a delimiter that is not empty: a file of the
    pattern whose path holds the delimiter before the name only makes
    [gather] fail. *)
Theorem gather_needs_delimiter_in_name h o ms :
  delimiter o ≠ "" →
  gather h o = inr ms →
  Forall (λ f, Js.includes (Js.basename f) (delimiter o) = true) (files_of h o).
Proof.
  intros Hsep (cs & Hcs & _)%gather_entries.
  induction Hcs as [|f c files cs Hc _ IH]; constructor; [|done].
  apply entry_Some in Hc as (raw & piece & rest & Hsplit & _).
  destruct (Js.includes (Js.basename f) (delimiter o)) eqn:E; [done|].
  by rewrite split_without_delimiter in Hsplit.
Qed.

(** X14. [gather] returns a list exactly when the name of every file has a first
    piece that can be coerced to a version and a second piece, the module of
    every file exports a procedure, and no two files have the same version. *)
Theorem gather_succeeds_iff h o :
  (∃ ms, gather h o = inr ms) ↔
  Forall (λ f, ∃ raw piece rest v migration,
            Js.split (Js.basename f) (delimiter o) = raw :: piece :: rest ∧
            semver.coerce raw = Some v ∧
            import_ h f = Module_ (Some migration)) (files_of h o) ∧
  NoDup (coerced o <$> files_of h o).
Proof.
  split.
  - intros [ms (cs & Hcs & Hnd & _)%gather_inr]. split.
    + clear Hnd. induction Hcs as [|f c files cs Hc _ IH]; constructor; [|done].
      apply entry_Some in Hc as (raw & piece & rest & ? & ? & _ & ?).
      by exists raw, piece, rest, (version c), (fn c).
    + assert (coerced o <$> files_of h o = Some <$> (version <$> cs)) as ->.
      { clear Hnd. induction Hcs as [|f c files cs Hc _ IH]; [done|].
        cbn. by rewrite IH, (entry_version _ _ _ _ Hc). }
      apply (NoDup_fmap_2 Some), NoDup_versions, Hnd.
  - intros [Hall Hnd].
    assert (∃ cs, Forall2 (λ f c, entry h o f = Some c) (files_of h o) cs) as [cs Hcs].
    { clear Hnd.
      induction Hall as [|f files (raw & piece & rest & v & migration & H1 & H2 & H3) _ [cs IH]].
      - exists []. constructor.
      - exists (mkFile v (Js.strip_extension piece) migration :: cs).
        constructor; [|done]. apply entry_Some. by exists raw, piece, rest. }
    exists (sortMigrationFiles cs). apply gather_inr. exists cs.
    split_and!; [done| |done].
    assert (coerced o <$> files_of h o = Some <$> (version <$> cs)) as E.
    { clear Hnd Hall. induction Hcs as [|f c files cs Hc _ IH]; [done|].
      cbn. by rewrite IH, (entry_version _ _ _ _ Hc). }
    rewrite E in Hnd. apply (NoDup_fmap_1 Some) in Hnd.
    change (NoDup ((semver.version ∘ version) <$> cs)).
    rewrite (list_fmap_compose version semver.version).
    apply NoDup_fmap_2; [|done]. intros a b. apply version_inj.
Qed.

(** X15. The list that [gather] returns has one descriptor for each file that it
    read: its version is the first piece of the name of the file, coerced;
    its name is the second piece after [replace(extension, '')], and the
    pieces after the second one are left out; its procedure is the export
    [migration] of the module of the file. *)
Theorem gather_descriptors h o ms :
  gather h o = inr ms →
  length ms = length (files_of h o) ∧
  Forall (λ m, ∃ f raw piece rest,
            f ∈ files_of h o ∧
            Js.split (Js.basename f) (delimiter o) = raw :: piece :: rest ∧
            semver.coerce raw = Some (version m) ∧
            name m = Js.strip_extension piece ∧
            import_ h f = Module_ (Some (fn m))) ms.
Proof.
  intros (cs & Hcs & Hp)%gather_entries. rewrite Hp. split.
  - symmetry. by eapply Forall2_length.
  - clear Hp. induction Hcs as [|f c files cs Hc _ IH]; constructor.
    + apply entry_Some in Hc as (raw & piece & rest & ? & ? & ? & ?).
      exists f, raw, piece, rest. split_and!; [by left|done..].
    + eapply Forall_impl; [exact IH|]. cbn.
      intros m (f' & raw & piece & rest & ? & ?). exists f', raw, piece, rest.
      split; [by right|done].
Qed.

Lemma uncoercible_rejected h o versions files j f :
  files !! j = Some f → coerced o f = None →
  ∃ e, first_rejected (files_map h o versions files) = Some e ∧
       (Forall (λ f, is_Some (coerced o f)) (take j files) →
        NoDup (coerced o <$> take j files) →
        (∀ f', f' ∈ take j files → ∀ v, coerced o f' = Some v → semver.version v ∉ versions) →
        e = InvalidVersion (rawVersion o f)).
Proof.
  revert versions j. induction files as [|f0 files IH]; intros versions j; [done|].
  cbn [files_map]. rewrite load_file_coerced. destruct j as [|j]; cbn [lookup list_lookup].
  - intros [= ->] ->. eauto.
  - intros Hj Hv. cbn [take]. destruct (coerced o f0) as [v0|] eqn:Hv0.
    2:{ eexists. split; [done|]. intros [[? ?] _]%Forall_cons. congruence. }
    case_bool_decide as Hin.
    { eexists. split; [done|]. intros _ _ Hout. destruct (Hout f0 ltac:(by left) v0 Hv0 Hin). }
    cbn. destruct (IH (versions ++ [semver.version v0]) j Hj Hv) as (e & He & Hkind).
    exists e. split; [done|]. intros [_ Hall]%Forall_cons Hnd Hout.
    cbn in Hnd. apply NoDup_cons in Hnd as [Hnotin Hnd].
    apply Hkind; [done..|].
    intros f' Hf' v Hv' [?|Heq%list_elem_of_singleton]%elem_of_app.
    + by destruct (Hout f' ltac:(by right) v Hv').
    + apply version_inj in Heq as ->. destruct Hnotin.
      rewrite Hv0, <- Hv'. by apply list_elem_of_fmap_2.
Qed.

(** X16. A file whose first piece cannot be coerced to a version makes [gather]
    fail with an error that a callback threw before any import, whatever the
    modules of the other files do: [migrate] ends the process and reads no
    record. The error is [InvalidVersion] for this file when the files that
    are enumerated before it have versions, no two of them the same. *)
Theorem uncoercible_file_fails_at_once h o j f :
  files_of h o !! j = Some f →
  coerced o f = None →
  (∃ e, gather h o = inl e ∧ thrown_at_once e) ∧
  (Forall (λ f, is_Some (coerced o f)) (take j (files_of h o)) →
   NoDup (coerced o <$> take j (files_of h o)) →
   gather h o = inl (InvalidVersion (rawVersion o f))) ∧
  (∀ options w,
     Object_assign (defaults w) options = o →
     migrate h options w = (Exit 1, [ConsoleError], with_defaults w o)).
Proof.
  intros Hj Hv.
  destruct (uncoercible_rejected h o [] _ _ _ Hj Hv) as (e & He & Hkind).
  assert (gather h o = inl e) as Hg.
  { unfold gather. by rewrite (Promise_all_first_rejected _ e). }
  split_and!.
  - exists e. split; [done|]. by eapply first_rejected_kind.
  - intros Hall Hnd. rewrite Hg, Hkind; [done..|]. by intros ? _ ? _ ?%elem_of_nil.
  - intros options w <-. apply (migrate_gather_failed _ _ _ e); [done|].
    by eapply thrown_at_once_has_message, first_rejected_kind.
Qed.

End Files.

(** ** Versions, read back *)

Section Coerced.
Import semver.

Lemma span_digits_app d s :
  all_digits d = true → (span_digits s).1 = "" → span_digits (d +:+ s) = (d, s).
Proof.
  intros Hd Hs. induction d as [|c d IH].
  - change ("" +:+ s) with s. destruct s as [|c s]; [done|].
    cbn [span_digits] in *. destruct (is_digit c); [|done].
    by destruct (span_digits s).
  - rewrite append_cons. cbn [span_digits all_digits] in *.
    apply andb_prop in Hd as [-> Hd]. by rewrite IH.
Qed.

Lemma value_from_lower acc s :
  (acc * 10 ^ N.of_nat (String.length s) <= value_from acc s)%N.
Proof.
  revert acc. induction s as [|c s IH]; intros acc.
  - cbn. lia.
  - cbn [value_from String.length]. etrans; [|apply IH].
    rewrite Nat2N.inj_succ, N.pow_succ_r'. nia.
Qed.

Lemma num_first n :
  ∃ c s, num n = String c s ∧ is_digit c = true ∧ (n ≠ 0%N → (1 <= digit_value c)%N).
Proof.
  pose proof (all_digits_num n) as Hall. unfold num in *.
  destruct n as [|p]; [by exists "0"%char, ""|]. cbn [N.to_uint] in *.
  destruct (Pos.to_uint p) as [|d|d|d|d|d|d|d|d|d|d] eqn:E;
    [by destruct (DecimalPos.Unsigned.to_uint_nonnil p)
    |by destruct (to_uint_not_D0 p d)|..];
    cbn [NilEmpty.string_of_uint] in *; eexists _, _; (split; [reflexivity|]);
    (split; [reflexivity|]); intros _; vm_compute; discriminate.
Qed.

Lemma num_length n :
  (n <= MAX_SAFE_INTEGER)%N →
  (1 <= String.length (num n) ∧ String.length (num n) <= MAX_SAFE_COMPONENT_LENGTH)%nat.
Proof.
  intros Hn. destruct (decide (n = 0%N)) as [->|Hn0].
  { change (num 0) with "0". cbn. unfold MAX_SAFE_COMPONENT_LENGTH. lia. }
  destruct (num_first n) as (c & s & E & _ & Hc).
  pose proof (value_from_num n) as Hv. rewrite E in *. cbn [String.length].
  split; [lia|]. unfold MAX_SAFE_COMPONENT_LENGTH.
  destruct (decide (String.length s < 16)%nat) as [|Hlen]; [lia|].
  cbn [value_from] in Hv. pose proof (value_from_lower (10 * 0 + digit_value c) s) as H.
  rewrite Hv in H. specialize (Hc Hn0).
  assert (10 ^ 16 <= 10 ^ N.of_nat (String.length s))%N as Hpow.
  { apply N.pow_le_mono_r; lia. }
  unfold MAX_SAFE_INTEGER in Hn.
  change (10 ^ 16)%N with 10000000000000000%N in Hpow. nia.
Qed.

Lemma coerce_version_suffix v suffix :
  safe v → (span_digits suffix).1 = "" → coerce (version v +:+ suffix) = Some v.
Proof.
  destruct v as [ma mi pa]. intros (H1 & H2 & H3) Hs. cbn in H1, H2, H3.
  rewrite version_dots. cbn [major minor patch].
  rewrite append_assoc, append_cons, append_assoc, append_cons.
  destruct (num_first ma) as (c & s & E & Hc & _).
  unfold coerce. rewrite E at 1. rewrite append_cons. cbn [coerce_from].
  rewrite Hc. cbn [negb andb]. rewrite <- append_cons, <- E.
  rewrite span_digits_app; [|apply all_digits_num|done].
  destruct (num_length ma H1) as [_ ->%Nat.leb_le].
  unfold parse_components, dot_component. cbn [Ascii.eqb Bool.eqb].
  rewrite span_digits_app; [|apply all_digits_num|done].
  destruct (num_length mi H2) as [->%Nat.leb_le ->%Nat.leb_le]. cbn [andb].
  rewrite span_digits_app; [|apply all_digits_num|done].
  destruct (num_length pa H3) as [->%Nat.leb_le ->%Nat.leb_le]. cbn [andb].
  rewrite ?Ascii.eqb_refl. by rewrite !numeric_identifier_num.
Qed.

Lemma coerce_version v : safe v → coerce (version v) = Some v.
Proof.
  intros Hv. rewrite <- (append_empty_r (version v)). by apply coerce_version_suffix.
Qed.

(** X17. The text of a version that [coerce] returned is coerced, and parsed, to
    the same version, and so is this text with anything after it that does
    not start with a digit: a fourth component, a prerelease tag. *)
Theorem coerce_reads_version_back raw v suffix :
  coerce raw = Some v →
  (span_digits suffix).1 = "" →
  coerce (version v +:+ suffix) = Some v ∧
  coerce (version v) = Some v ∧
  parse (version v) = Some v.
Proof.
  intros Hv%coerce_safe Hs. split_and!.
  - by apply coerce_version_suffix.
  - by apply coerce_version.
  - by apply parse_version.
Qed.

Lemma coerce_from_skips pre s b :
  Forall (λ c, is_digit c = false) (String.list_ascii_of_string pre) →
  pre ≠ "" → coerce_from (pre +:+ s) b = coerce_from s false.
Proof.
  revert b. induction pre as [|c pre IH]; intros b Hpre Hne; [done|].
  cbn [String.list_ascii_of_string] in Hpre. apply Forall_cons in Hpre as [Hc Hpre].
  rewrite append_cons. cbn [coerce_from]. rewrite Hc. cbn [andb].
  destruct pre as [|c' pre]; [done|]. by apply IH.
Qed.

(** X18. [coerce] passes over the characters before the first digit, and finds
    no version in a text without a digit. *)
Theorem coerce_skips_non_digits pre s :
  Forall (λ c, is_digit c = false) (String.list_ascii_of_string pre) →
  coerce (pre +:+ s) = coerce s ∧ coerce pre = None.
Proof.
  intros Hpre. unfold coerce. destruct pre as [|c pre]; [done|]. split.
  - by apply coerce_from_skips.
  - rewrite <- (append_empty_r (String c pre)). by rewrite coerce_from_skips.
Qed.

End Coerced.

(** ** The selection, token by token *)

Section Selected.
Context {D : Type}.
Implicit Types (h : Host D) (o : Options) (w : World D)
  (m : MigrationFile D) (ms l : list (MigrationFile D)).

(** X19. A selection that is an empty list is a selection: however many
    migrations [gather] found, none is run and no record is read. *)
Theorem empty_selection_runs_nothing h options w ms :
  single_of options = Some [] →
  gather h (Object_assign (defaults w) options) = inr ms →
  migrate h options w =
    (Fulfilled, [ConsoleLog; ConsoleLog],
     with_defaults w (Object_assign (defaults w) options)).
Proof.
  intros Hs Hg. rewrite (migrate_ran _ _ _ []).
  - unfold announce. by rewrite Hs.
  - unfold plan. by rewrite Hg, Hs.
Qed.

Lemma singleVersions_invalid single token :
  token ∈ single → semver.coerce token = None →
  ∃ u, u ∈ single ∧ semver.coerce u = None ∧
       singleVersions single = inl (InvalidVersionSpecified u) ∧
       ∃ pre post, single = pre ++ u :: post ∧
                   Forall (λ t, is_Some (semver.coerce t)) pre.
Proof.
  intros Hin Hc. induction single as [|t single IH]; [by apply elem_of_nil in Hin|].
  cbn. destruct (semver.coerce t) as [parsed|] eqn:Ht.
  - apply elem_of_cons in Hin as [->|Hin]; [congruence|].
    destruct (IH Hin) as (u & ? & ? & -> & pre & post & -> & Hpre).
    exists u. split_and!; [by right|done..|].
    exists (t :: pre), post. split; [done|]. constructor; [by rewrite Ht|done].
  - exists t. split_and!; [by left|done..|]. by exists [], single.
Qed.

(** X20. A token of the selection that cannot be coerced to a version ends
    the call with [InvalidVersionSpecified] for the first such token,
    whether the other tokens name versions that exist or not: the tokens are
    all coerced before the first one is looked up. No record is read. *)
Theorem invalid_token_fails_first h options w single ms token :
  single_of options = Some single →
  gather h (Object_assign (defaults w) options) = inr ms →
  token ∈ single →
  semver.coerce token = None →
  (∃ u, u ∈ single ∧ semver.coerce u = None ∧
        migrate_try h options w =
          (inl (InvalidVersionSpecified u), [ConsoleLog],
           with_defaults w (Object_assign (defaults w) options)) ∧
        ∃ pre post, single = pre ++ u :: post ∧
                    Forall (λ t, is_Some (semver.coerce t)) pre) ∧
  migrate h options w =
    (Exit 1, [ConsoleLog; ConsoleError],
     with_defaults w (Object_assign (defaults w) options)).
Proof.
  intros Hs Hg Hin Hc.
  destruct (singleVersions_invalid single token Hin Hc) as (u & Hu & Hcu & Hv & Hfirst).
  assert (selection ms single = inl (InvalidVersionSpecified u)) as Hsel.
  { unfold selection. by rewrite Hv. }
  split.
  - exists u. split_and!; [done..| |done].
    by apply (migrate_try_selection_failed _ _ _ ms single).
  - by apply (migrate_selection_failed _ _ _ ms single (InvalidVersionSpecified u)).
Qed.

Lemma gather_safe h o ms :
  gather h o = inr ms → Forall (λ m, semver.safe (version m)) ms.
Proof.
  intros (cs & Hcs & Hp)%gather_entries. rewrite Hp. clear Hp.
  induction Hcs as [|f c files cs Hc _ IH]; constructor; [|done].
  apply entry_Some in Hc as (raw & _ & _ & _ & Hc & _). by apply (coerce_safe raw).
Qed.

(** X21. Every migration that [gather] returned can be selected by the text of
    its own version: the selection of the versions of some of them is these
    migrations, sorted. *)
Theorem selection_by_own_versions h o ms l :
  gather h o = inr ms →
  Forall (λ m, m ∈ ms) l →
  selection ms (version_string <$> l) = inr (sortMigrationFiles l).
Proof.
  intros Hg Hl. apply selection_inr. exists (version_string <$> l), l.
  pose proof (gather_safe _ _ _ Hg) as Hsafe. rewrite Forall_forall in Hsafe.
  pose proof (gather_NoDup _ _ _ Hg) as Hnd.
  split_and!; [| |done].
  - apply singleVersions_inr. induction Hl as [|m l Hm _ IH]; constructor; [|done].
    unfold version_string. by rewrite coerce_version by auto.
  - apply filtered_inr. induction Hl as [|m l Hm _ IH]; constructor; [|done].
    by apply find_own.
Qed.

(** X22. [sortMigrationFiles] returns the elements of its array in the order of
    their versions, whatever the array is; without two equal versions the
    order is strict, the result does not depend on the order of the array,
    and sorting it again changes nothing. *)
Theorem sortMigrationFiles_sorts l :
  sortMigrationFiles l ≡ₚ l ∧
  StronglySorted semver.le (version <$> sortMigrationFiles l) ∧
  (NoDup (version <$> l) →
   StronglySorted semver.lt (version <$> sortMigrationFiles l) ∧
   sortMigrationFiles (sortMigrationFiles l) = sortMigrationFiles l ∧
   ∀ l', l ≡ₚ l' → sortMigrationFiles l' = sortMigrationFiles l).
Proof.
  split_and!.
  - apply sortMigrationFiles_Permutation.
  - apply (StronglySorted_fmap _ (λ a b, semver.le (version a) (version b))); [done|].
    apply sortMigrationFiles_sorted.
  - intros Hnd. split_and!.
    + by apply sortMigrationFiles_strict.
    + symmetry. apply sortMigrationFiles_unique; [done|].
      symmetry. apply sortMigrationFiles_Permutation.
    + intros l' Hp. symmetry. by apply sortMigrationFiles_unique.
Qed.

End Selected.

(** ** The name of a migration *)

Lemma prefix_nil (s : string) : String.prefix "" s = true.
Proof. by destruct s. Qed.





(** ** The command line *)

Section CommandLine.
Context {D : Type}.
Implicit Types (h : Host D) (w : World D) (args : Cli.Args).

(** X24. The options that the action of the command leaves in [defaults]: the
    flags are those of the command line, whatever an earlier call left
    there, and the delimiter is the one that was there. An action with
    [--dry-run] invokes no procedure and writes no result. *)
Theorem action_takes_flags_from_command_line h args w :
  directory (defaults (Cli.action h args w).2) = Cli.migrations args ∧
  delimiter (defaults (Cli.action h args w).2) = delimiter (defaults w) ∧
  ignoreRemote (defaults (Cli.action h args w).2) = Cli.force args ∧
  dryRun (defaults (Cli.action h args w).2) = Cli.dryRun args ∧
  (Cli.dryRun args = true →
   invocations (Cli.action h args w).1.2 = [] ∧ writes (Cli.action h args w).1.2 = []).
Proof.
  unfold Cli.action. rewrite migrate_defaults. split_and!; [done..|].
  intros Hd. by apply migrate_dry_is_pure.
Qed.

Lemma gather_no_match h o :
  glob_sync h (Js.join (directory o) "*.js") = [] →
  gather h o = inr [] ∧ Index.gather h o = inr [].
Proof. intros H. unfold gather, Index.gather, files_of. by rewrite H. Qed.

(** X25. With the default of [-m], the pattern that [gather] hands to [glob] is
    [migrations/*.js/*.js]: when no directory below [migrations] has a name
    in [.js], the action finds no migration, whatever files [migrations]
    holds, and ends without a read; so does the action of the first
    document. *)
Theorem action_default_pattern h args w :
  Cli.migrations args = Cli.default_migrations →
  Js.join (directory (defaults (Cli.action h args w).2)) "*.js" = "migrations/*.js/*.js" ∧
  (glob_sync h "migrations/*.js/*.js" = [] →
   (Cli.only args = None →
    ∃ w', Cli.action h args w = (Fulfilled, [ConsoleLog], w')) ∧
   ∃ w', Cli.action_v1 h args w = (inr tt, [], w')).
Proof.
  intros Hm.
  assert (∀ options,
    options ≫= directory' = Some (Cli.migrations args) →
    Js.join (directory (Object_assign (defaults w) options)) "*.js"
    = "migrations/*.js/*.js") as Hjoin.
  { intros [[[dir|] ? ? ? ?]|]; cbn; [|done..]. intros [= ->]. by rewrite Hm. }
  split.
  { unfold Cli.action. rewrite migrate_defaults. by apply Hjoin. }
  intros Hglob.
  assert (∀ options,
    options ≫= directory' = Some (Cli.migrations args) →
    gather h (Object_assign (defaults w) options) = inr [] ∧
    Index.gather h (Object_assign (defaults w) options) = inr []) as Hnone.
  { intros options Hdir. apply gather_no_match. by rewrite Hjoin. }
  split.
  - intros Ho. eexists. unfold Cli.action. rewrite Ho.
    match goal with
    | |- migrate h ?o w = _ => pose proof (Hnone o eq_refl) as [Hg _]
    end.
    rewrite (migrate_ran _ _ _ []); [reflexivity|]. unfold plan. by rewrite Hg.
  - eexists. unfold Cli.action_v1.
    match goal with
    | |- Index.migrate h ?o w = _ => pose proof (Hnone o eq_refl) as [_ Hg]
    end.
    unfold Index.migrate, assign_defaults, mbind, M_bind, bind.
    rewrite Hg. reflexivity.
Qed.

End CommandLine.

(** ** How a call ends *)

Section Endings.
Context {D : Type}.
Implicit Types (h : Host D) (w : World D) (m : MigrationFile D)
  (ms : list (MigrationFile D)) (o : Options) (t : list Event).

Lemma results_announce options : results (announce options) = [].
Proof. unfold announce. by destruct (single_of options). Qed.

Lemma runMigrations_outcome h ms o w :
  match (runMigrations h ms o w).1.1 with
  | inr _ => Forall (λ r, status r = Successful) (results (runMigrations h ms o w).1.2)
  | inl e =>
      e = SkippingNextMigrations ∧
      ∃ rs r, results (runMigrations h ms o w).1.2 = rs ++ [r] ∧
              status r = Failed ∧ Forall (λ r, status r = Successful) rs
  end.
Proof.
  revert w. induction ms as [|m ms IH]; intros w; [by constructor|].
  destruct (runMigrations_turn h m ms o w) as [Hs|Hs Hd|d Hs _ Hf|d Hs _ Hf];
    cbn [after fst snd]; rewrite ?results_app, ?results_executed, ?Hf.
  - apply IH.
  - constructor.
  - specialize (IH (executed_world h m w)). cbn [fst snd].
    destruct (runMigrations h ms o (executed_world h m w)) as [[[e|[]] t] w'];
      cbn [fst snd] in *.
    + destruct IH as (-> & rs & r & -> & Hr & Hrs). split; [done|].
      exists (result_of h m d Resolved :: rs), r. split_and!; [done..|].
      by constructor.
    + by constructor.
  - cbn [fst snd]. split; [done|]. by exists [], (result_of h m d Rejected).
Qed.

(** X26. A call of [migrate] ends in one of three ways. It is fulfilled: a
    list was made, and every result that the call wrote is successful. It
    ends the process with the code 1 after a last message on the error
    stream: either the list could not be made, with an error whose message
    can be read, and nothing was read or written; or a procedure rejected,
    and the last result written is the one failed result. Or its [catch]
    block throws: the module of a file threw [null] or [undefined] while it
    was loaded; then nothing is logged, read or written, and the process is
    not ended. *)
Theorem migrate_ending h options w :
  match (migrate h options w).1.1 with
  | Fulfilled =>
      (∃ ms, plan h options (Object_assign (defaults w) options) = inr ms) ∧
      Forall (λ r, status r = Successful) (results (migrate h options w).1.2)
  | Exit code =>
      code = 1%Z ∧
      last (migrate h options w).1.2 = Some ConsoleError ∧
      ((∃ e, plan h options (Object_assign (defaults w) options) = inl e ∧
             has_message e = true ∧
             results (migrate h options w).1.2 = [] ∧
             reads (migrate h options w).1.2 = []) ∨
       (∃ rs r, results (migrate h options w).1.2 = rs ++ [r] ∧
                status r = Failed ∧ Forall (λ r, status r = Successful) rs))
  | CatchThrew =>
      (∃ f, gather h (Object_assign (defaults w) options) = inl (ImportFailed f Nullish)) ∧
      (migrate h options w).1.2 = []
  end.
Proof.
  destruct (plan h options (Object_assign (defaults w) options)) as [e|ms] eqn:Hp.
  - unfold plan in Hp.
    destruct (gather h _) as [e'|migrations] eqn:Hg.
    + injection Hp as ->. rewrite (migrate_gather_caught _ _ _ e) by done.
      unfold catch. destruct (has_message e) eqn:He; cbn [fst snd].
      * split; [done|]. split; [done|]. left. by exists e.
      * split; [|done]. destruct e as [| |f []| | | | |]; try done. by exists f.
    + destruct (single_of options) as [single|] eqn:Hs; [|done].
      rewrite (migrate_selection_failed _ _ _ migrations single e) by done.
      cbn [fst snd]. split; [done|]. split; [done|]. left. exists e.
      split_and!; [done| |done..]. by eapply selection_has_message.
  - rewrite (migrate_ran _ _ _ ms) by done.
    pose proof (runMigrations_outcome h ms (Object_assign (defaults w) options)
                  (with_defaults w (Object_assign (defaults w) options))) as H.
    destruct (runMigrations h ms _ _) as [[[e|[]] t] w']; cbn [finish after fst snd] in *.
    + destruct H as (-> & rs & r & Hr & ? & ?). unfold catch. cbn [has_message fst snd].
      split; [done|]. split; [by rewrite last_snoc|]. right.
      exists rs, r.
      rewrite !results_app, results_announce, Hr. cbn. by rewrite app_nil_r.
    + split; [by eexists|]. by rewrite results_app, results_announce.
Qed.

(** X27. A run changes the world by the procedures that it invokes only: a run
    that invoked none left the collection of results and the database as
    they were, and so did a call of [migrate], apart from [defaults]. *)
Theorem no_invocation_no_change h options ms o w :
  (invocations (runMigrations h ms o w).1.2 = [] → (runMigrations h ms o w).2 = w) ∧
  (invocations (migrate h options w).1.2 = [] →
   (migrate h options w).2 = with_defaults w (Object_assign (defaults w) options)).
Proof.
  assert (∀ ms o w, invocations (runMigrations h ms o w).1.2 = [] →
                    (runMigrations h ms o w).2 = w) as Hrun.
  { clear. intros ms o. induction ms as [|m ms IH]; intros w; [done|].
    destruct (runMigrations_turn h m ms o w) as [Hs|Hs Hd|d Hs _ Hf|d Hs _ Hf];
      cbn [after fst snd]; rewrite ?invocations_app, ?invocations_executed.
    - apply IH.
    - done.
    - done.
    - done. }
  split; [apply Hrun|].
  destruct (migrate_migrated h options w) as [e t Hp _ _ _|ms' Hp]; [done|].
  rewrite invocations_finish, world_finish. cbn [after fst snd].
  rewrite invocations_app, invocations_announce. apply Hrun.
Qed.

End Endings.

(** * The properties above, on the hosts of the examples *)

(** ** A run of one migration beside the record of another *)

Lemma runMigrations_frame_witness :
  MigrationCollection
    (runMigrations Fixture.all_resolve [Fixture.init] initial_defaults
       (Fixture.world {["sha256:9.0.0" := Fixture.successful "9.0.0" 0]})).2
    !! "sha256:9.0.0" =
  MigrationCollection (Fixture.world {["sha256:9.0.0" := Fixture.successful "9.0.0" 0]})
    !! "sha256:9.0.0".
Proof.
  apply (runMigrations_frame Fixture.all_resolve [Fixture.init] initial_defaults
           (Fixture.world {["sha256:9.0.0" := Fixture.successful "9.0.0" 0]})).
  intros H%list_elem_of_singleton. vm_compute in H. discriminate H.
Defined.

Lemma results_are_well_keyed_witness :
  well_keyed Fixture.all_resolve
    (MigrationCollection
       (runMigrations Fixture.all_resolve [Fixture.init; Fixture.users] initial_defaults
          (Fixture.world {["sha256:1.0.0" := Fixture.successful "1.0.0" 0]})).2).
Proof.
  apply (results_are_well_keyed Fixture.all_resolve [Fixture.init; Fixture.users]
           initial_defaults
           (Fixture.world {["sha256:1.0.0" := Fixture.successful "1.0.0" 0]})).
  intros k r H.
  change (({["sha256:1.0.0" := Fixture.successful "1.0.0" 0]}
            : gmap string MigrationResult) !! k = Some r) in H.
  apply lookup_singleton_Some in H as [<- <-]. reflexivity.
Defined.

(** ** A second run *)

Lemma completed_run_is_not_repeated_witness :
  runMigrations Fixture.all_resolve [Fixture.init; Fixture.users] initial_defaults
    {| defaults := initial_defaults;
       MigrationCollection :=
         <["sha256:2.0.0" := Fixture.successful "2.0.0" 2]>
           (<["sha256:1.0.0" := Fixture.successful "1.0.0" 1]> ∅);
       DB := 2%nat |} =
    (inr tt,
     [Fixture.init; Fixture.users] ≫= skipped_events Fixture.all_resolve,
     {| defaults := initial_defaults;
        MigrationCollection :=
          <["sha256:2.0.0" := Fixture.successful "2.0.0" 2]>
            (<["sha256:1.0.0" := Fixture.successful "1.0.0" 1]> ∅);
        DB := 2%nat |}) ∧
  invocations ([Fixture.init; Fixture.users] ≫= skipped_events Fixture.all_resolve) = [] ∧
  writes ([Fixture.init; Fixture.users] ≫= skipped_events Fixture.all_resolve) = [] ∧
  reads ([Fixture.init; Fixture.users] ≫= skipped_events Fixture.all_resolve) =
    getIdFromMigration Fixture.all_resolve <$> [Fixture.init; Fixture.users].
Proof.
  apply (completed_run_is_not_repeated Fixture.all_resolve [Fixture.init; Fixture.users]
           (Object_assign initial_defaults Fixture.force) initial_defaults
           (Fixture.world ∅)
           [DocGet "sha256:1.0.0"; Invoke (Fixture.v 1) "init";
            PrintMigration "1.0.0" Success;
            DocSet "sha256:1.0.0" (Fixture.successful "1.0.0" 1);
            DocGet "sha256:2.0.0"; Invoke (Fixture.v 2) "users";
            PrintMigration "2.0.0" Success;
            DocSet "sha256:2.0.0" (Fixture.successful "2.0.0" 2)]).
  - reflexivity.
  - vm_compute. reflexivity.
  - reflexivity.
Defined.

Lemma migrate_twice_witness :
  ∃ ms,
    plan Fixture.all_resolve None (Object_assign (defaults (Fixture.world ∅)) None) = inr ms ∧
    migrate Fixture.all_resolve None
      {| defaults := initial_defaults;
         MigrationCollection :=
           <["sha256:3.0.0" := Fixture.successful "3.0.0" 3]>
             (<["sha256:2.0.0" := Fixture.successful "2.0.0" 2]>
                (<["sha256:1.0.0" := Fixture.successful "1.0.0" 1]> ∅));
         DB := 3%nat |} =
      (Fulfilled, announce None ++ (ms ≫= skipped_events Fixture.all_resolve),
       {| defaults := initial_defaults;
          MigrationCollection :=
            <["sha256:3.0.0" := Fixture.successful "3.0.0" 3]>
              (<["sha256:2.0.0" := Fixture.successful "2.0.0" 2]>
                 (<["sha256:1.0.0" := Fixture.successful "1.0.0" 1]> ∅));
          DB := 3%nat |}).
Proof.
  apply (migrate_twice Fixture.all_resolve None (Fixture.world ∅)
           [ConsoleLog;
            DocGet "sha256:1.0.0"; Invoke (Fixture.v 1) "init";
            PrintMigration "1.0.0" Success;
            DocSet "sha256:1.0.0" (Fixture.successful "1.0.0" 1);
            DocGet "sha256:2.0.0"; Invoke (Fixture.v 2) "users";
            PrintMigration "2.0.0" Success;
            DocSet "sha256:2.0.0" (Fixture.successful "2.0.0" 2);
            DocGet "sha256:3.0.0"; Invoke (Fixture.v 3) "posts";
            PrintMigration "3.0.0" Success;
            DocSet "sha256:3.0.0" (Fixture.successful "3.0.0" 3)]).
  - reflexivity.
  - reflexivity.
  - vm_compute. reflexivity.
Defined.

Lemma forced_run_runs_all_witness :
  invocations
    (runMigrations Fixture.all_resolve [Fixture.init; Fixture.users]
       (Object_assign initial_defaults Fixture.force)
       (Fixture.world {["sha256:1.0.0" := Fixture.successful "1.0.0" 0]})).1.2 =
    version <$> [Fixture.init; Fixture.users] ∧
  reads
    (runMigrations Fixture.all_resolve [Fixture.init; Fixture.users]
       (Object_assign initial_defaults Fixture.force)
       (Fixture.world {["sha256:1.0.0" := Fixture.successful "1.0.0" 0]})).1.2 =
    getIdFromMigration Fixture.all_resolve <$> [Fixture.init; Fixture.users] ∧
  writes
    (runMigrations Fixture.all_resolve [Fixture.init; Fixture.users]
       (Object_assign initial_defaults Fixture.force)
       (Fixture.world {["sha256:1.0.0" := Fixture.successful "1.0.0" 0]})).1.2 =
    getIdFromMigration Fixture.all_resolve <$> [Fixture.init; Fixture.users].
Proof.
  apply (forced_run_runs_all Fixture.all_resolve [Fixture.init; Fixture.users]
           (Object_assign initial_defaults Fixture.force)
           (Fixture.world {["sha256:1.0.0" := Fixture.successful "1.0.0" 0]}));
    vm_compute; reflexivity.
Defined.

Lemma failed_run_resumes_witness :
  (runMigrations Fixture.second_rejects
     ([Fixture.init] ++ Fixture.users_rejecting :: [Fixture.posts])
     initial_defaults (Fixture.world ∅)).1.1 = inl SkippingNextMigrations ∧
  ∃ rest,
    (runMigrations Fixture.second_rejects
       ([Fixture.init] ++ Fixture.users_rejecting :: [Fixture.posts]) initial_defaults
       (runMigrations Fixture.second_rejects
          ([Fixture.init] ++ Fixture.users_rejecting :: [Fixture.posts])
          initial_defaults (Fixture.world ∅)).2).1.2 =
      ([Fixture.init] ≫= skipped_events Fixture.second_rejects) ++
      [DocGet (getIdFromMigration Fixture.second_rejects Fixture.users_rejecting);
       Invoke (version Fixture.users_rejecting) (name Fixture.users_rejecting)] ++ rest.
Proof.
  apply (failed_run_resumes Fixture.second_rejects
           [Fixture.init] Fixture.users_rejecting [Fixture.posts]
           initial_defaults initial_defaults (Fixture.world ∅)
           [DocGet "sha256:1.0.0"; Invoke (Fixture.v 1) "init";
            PrintMigration "1.0.0" Success;
            DocSet "sha256:1.0.0" (Fixture.successful "1.0.0" 1)]
           {| defaults := initial_defaults;
              MigrationCollection := <["sha256:1.0.0" := Fixture.successful "1.0.0" 1]> ∅;
              DB := 1%nat |}
           2%nat).
  - reflexivity.
  - vm_compute. reflexivity.
  - vm_compute. reflexivity.
  - reflexivity.
  - constructor; [|constructor]. intros H. vm_compute in H. discriminate H.
  - reflexivity.
  - reflexivity.
Defined.

(** ** The two engines on the run whose second migration rejects *)


(** ** The names of the files of the examples *)

Lemma split_second_piece_witness :
  (Js.includes "1__init.js" "__" = false → Js.split "1__init.js" "__" = ["1__init.js"]) ∧
  (Js.includes "1__init.js" "__" = true → is_Some (Js.split "1__init.js" "__" !! 1%nat)).
Proof. apply (split_second_piece "1__init.js" "__"). discriminate. Defined.

Lemma split_join_witness :
  String.concat "__" (Js.split "1__create__users.js" "__") = "1__create__users.js".
Proof. apply (split_join "1__create__users.js" "__"). discriminate. Defined.

Lemma gather_needs_delimiter_in_name_witness :
  Forall (λ f, Js.includes (Js.basename f) (delimiter initial_defaults) = true)
         (files_of Fixture.all_resolve initial_defaults).
Proof.
  apply (gather_needs_delimiter_in_name Fixture.all_resolve initial_defaults
           [Fixture.init; Fixture.users; Fixture.posts]).
  - discriminate.
  - vm_compute. reflexivity.
Defined.

Lemma gather_succeeds_iff_witness :
  Forall (λ f, ∃ raw piece rest v migration,
            Js.split (Js.basename f) (delimiter initial_defaults) = raw :: piece :: rest ∧
            semver.coerce raw = Some v ∧
            import_ Fixture.all_resolve f = Module_ (Some migration))
         (files_of Fixture.all_resolve initial_defaults) ∧
  NoDup (coerced initial_defaults <$> files_of Fixture.all_resolve initial_defaults).
Proof.
  apply (proj1 (gather_succeeds_iff Fixture.all_resolve initial_defaults)).
  exists [Fixture.init; Fixture.users; Fixture.posts]. vm_compute. reflexivity.
Defined.

Lemma gather_descriptors_witness :
  length [Fixture.init; Fixture.users; Fixture.posts] =
    length (files_of Fixture.all_resolve initial_defaults) ∧
  Forall (λ m, ∃ f raw piece rest,
            f ∈ files_of Fixture.all_resolve initial_defaults ∧
            Js.split (Js.basename f) (delimiter initial_defaults) = raw :: piece :: rest ∧
            semver.coerce raw = Some (version m) ∧
            name m = Js.strip_extension piece ∧
            import_ Fixture.all_resolve f = Module_ (Some (fn m)))
         [Fixture.init; Fixture.users; Fixture.posts].
Proof.
  apply (gather_descriptors Fixture.all_resolve initial_defaults
           [Fixture.init; Fixture.users; Fixture.posts]).
  vm_compute. reflexivity.
Defined.

Lemma uncoercible_file_fails_at_once_witness :
  (∃ e, gather (Fixture.host ["migrations/1__init.js"; "migrations/x__notes.js"] [])
          initial_defaults = inl e ∧ thrown_at_once e) ∧
  (Forall (λ f, is_Some (coerced initial_defaults f))
     (take 1 (files_of (Fixture.host ["migrations/1__init.js"; "migrations/x__notes.js"] [])
                initial_defaults)) →
   NoDup (coerced initial_defaults <$>
            take 1 (files_of (Fixture.host ["migrations/1__init.js"; "migrations/x__notes.js"] [])
                      initial_defaults)) →
   gather (Fixture.host ["migrations/1__init.js"; "migrations/x__notes.js"] [])
     initial_defaults =
     inl (InvalidVersion (rawVersion initial_defaults "/app/migrations/x__notes.js"))) ∧
  (∀ options w,
     Object_assign (defaults w) options = initial_defaults →
     migrate (Fixture.host ["migrations/1__init.js"; "migrations/x__notes.js"] [])
       options w = (Exit 1, [ConsoleError], with_defaults w initial_defaults)).
Proof.
  apply (uncoercible_file_fails_at_once
           (Fixture.host ["migrations/1__init.js"; "migrations/x__notes.js"] [])
           initial_defaults 1 "/app/migrations/x__notes.js").
  - vm_compute. reflexivity.
  - vm_compute. reflexivity.
Defined.

(** ** Versions and selections of the examples *)

Lemma coerce_reads_version_back_witness :
  semver.coerce (semver.version (semver.mkSemVer 1 2 0) +:+ ".4-beta") =
    Some (semver.mkSemVer 1 2 0) ∧
  semver.coerce (semver.version (semver.mkSemVer 1 2 0)) = Some (semver.mkSemVer 1 2 0) ∧
  semver.parse (semver.version (semver.mkSemVer 1 2 0)) = Some (semver.mkSemVer 1 2 0).
Proof.
  apply (coerce_reads_version_back "v1.2" (semver.mkSemVer 1 2 0) ".4-beta");
    vm_compute; reflexivity.
Defined.

Lemma coerce_skips_non_digits_witness :
  semver.coerce ("v" +:+ "1.2") = semver.coerce "1.2" ∧ semver.coerce "v" = None.
Proof.
  apply (coerce_skips_non_digits "v" "1.2"). repeat constructor.
Defined.

Lemma empty_selection_runs_nothing_witness :
  migrate Fixture.all_resolve (Fixture.only [] false) (Fixture.world ∅) =
    (Fulfilled, [ConsoleLog; ConsoleLog],
     with_defaults (Fixture.world ∅)
       (Object_assign (defaults (Fixture.world ∅)) (Fixture.only [] false))).
Proof.
  apply (empty_selection_runs_nothing Fixture.all_resolve (Fixture.only [] false)
           (Fixture.world ∅) [Fixture.init; Fixture.users; Fixture.posts]).
  - reflexivity.
  - vm_compute. reflexivity.
Defined.

Lemma invalid_token_fails_first_witness :
  (∃ u, u ∈ ["9.9.9"; "next"] ∧ semver.coerce u = None ∧
        migrate_try Fixture.all_resolve (Fixture.only ["9.9.9"; "next"] false)
          (Fixture.world ∅) =
          (inl (InvalidVersionSpecified u), [ConsoleLog],
           with_defaults (Fixture.world ∅)
             (Object_assign (defaults (Fixture.world ∅))
                (Fixture.only ["9.9.9"; "next"] false))) ∧
        ∃ pre post, ["9.9.9"; "next"] = pre ++ u :: post ∧
                    Forall (λ t, is_Some (semver.coerce t)) pre) ∧
  migrate Fixture.all_resolve (Fixture.only ["9.9.9"; "next"] false) (Fixture.world ∅) =
    (Exit 1, [ConsoleLog; ConsoleError],
     with_defaults (Fixture.world ∅)
       (Object_assign (defaults (Fixture.world ∅))
          (Fixture.only ["9.9.9"; "next"] false))).
Proof.
  apply (invalid_token_fails_first Fixture.all_resolve
           (Fixture.only ["9.9.9"; "next"] false) (Fixture.world ∅)
           ["9.9.9"; "next"] [Fixture.init; Fixture.users; Fixture.posts] "next").
  - reflexivity.
  - vm_compute. reflexivity.
  - right. left.
  - reflexivity.
Defined.

Lemma selection_by_own_versions_witness :
  selection [Fixture.init; Fixture.users; Fixture.posts]
    (version_string <$> [Fixture.posts; Fixture.init]) =
    inr (sortMigrationFiles [Fixture.posts; Fixture.init]).
Proof.
  apply (selection_by_own_versions Fixture.all_resolve initial_defaults
           [Fixture.init; Fixture.users; Fixture.posts] [Fixture.posts; Fixture.init]).
  - vm_compute. reflexivity.
  - repeat constructor.
Defined.

Lemma sortMigrationFiles_sorts_witness :
  StronglySorted semver.lt
    (version <$> sortMigrationFiles [Fixture.posts; Fixture.init; Fixture.users]) ∧
  sortMigrationFiles (sortMigrationFiles [Fixture.posts; Fixture.init; Fixture.users]) =
    sortMigrationFiles [Fixture.posts; Fixture.init; Fixture.users] ∧
  ∀ l', [Fixture.posts; Fixture.init; Fixture.users] ≡ₚ l' →
        sortMigrationFiles l' =
          sortMigrationFiles [Fixture.posts; Fixture.init; Fixture.users].
Proof.
  apply (sortMigrationFiles_sorts [Fixture.posts; Fixture.init; Fixture.users]).
  repeat constructor; vm_compute; intros H;
    repeat (apply elem_of_cons in H as [H|H]; [discriminate H|]);
    by apply elem_of_nil in H.
Defined.


(** ** The command line of the examples *)

Lemma action_takes_flags_from_command_line_witness :
  invocations
    (Cli.action Fixture.all_resolve (Cli.mkArgs "./migrations" None false true)
       (Fixture.world ∅)).1.2 = [] ∧
  writes
    (Cli.action Fixture.all_resolve (Cli.mkArgs "./migrations" None false true)
       (Fixture.world ∅)).1.2 = [].
Proof.
  apply (action_takes_flags_from_command_line Fixture.all_resolve
           (Cli.mkArgs "./migrations" None false true) (Fixture.world ∅)).
  reflexivity.
Defined.

Lemma action_default_pattern_witness :
  Js.join
    (directory
       (defaults
          (Cli.action Fixture.all_resolve
             (Cli.mkArgs Cli.default_migrations None false false) (Fixture.world ∅)).2))
    "*.js" = "migrations/*.js/*.js" ∧
  (glob_sync Fixture.all_resolve "migrations/*.js/*.js" = [] →
   (Cli.only (Cli.mkArgs Cli.default_migrations None false false) = None →
    ∃ w', Cli.action Fixture.all_resolve
            (Cli.mkArgs Cli.default_migrations None false false) (Fixture.world ∅) =
            (Fulfilled, [ConsoleLog], w')) ∧
   ∃ w', Cli.action_v1 Fixture.all_resolve
           (Cli.mkArgs Cli.default_migrations None false false) (Fixture.world ∅) =
           (inr tt, [], w')).
Proof.
  apply (action_default_pattern Fixture.all_resolve
           (Cli.mkArgs Cli.default_migrations None false false) (Fixture.world ∅)).
  reflexivity.
Defined.

(** ** A dry run of one migration *)

Lemma no_invocation_no_change_witness :
  (runMigrations Fixture.all_resolve [Fixture.init]
     (Object_assign initial_defaults Fixture.dry) (Fixture.world ∅)).2 = Fixture.world ∅.
Proof.
  apply (no_invocation_no_change Fixture.all_resolve None [Fixture.init]
           (Object_assign initial_defaults Fixture.dry) (Fixture.world ∅)).
  reflexivity.
Defined.

(** ** A module that throws [null] *)

Lemma migrate_ending_witness :
  (∃ f, gather Fixture.throws_null (Object_assign (defaults (Fixture.world ∅)) None) =
          inl (ImportFailed f Nullish)) ∧
  (migrate Fixture.throws_null None (Fixture.world ∅)).1.2 = [].
Proof. exact (migrate_ending Fixture.throws_null None (Fixture.world ∅)). Defined.

Example null_rejection_escapes_catch :
  migrate Fixture.throws_null None (Fixture.world ∅) = (CatchThrew, [], Fixture.world ∅) ∧
  Index.migrate Fixture.throws_null None (Fixture.world ∅) =
    (inl (ImportFailed "/app/migrations/1__init.js" Nullish), [], Fixture.world ∅).
Proof. split; vm_compute; reflexivity. Qed.
